(** * A static blog: content store, query engine, navigation resolver

    Shallow embedding of the JavaScript sources of the blog

      - the post manager  (class [PostManager]),
      - the utilities     ([replacePhotoPlaceholders], [generateExcerpt], ...),
      - the router        (class [Router], with the superseded [router-old.js]),
      - the search box    (class [SearchManager]),

    followed by the properties of the specification that concern them.

    JavaScript strings are sequences of UTF-16 code units; they are lists
    of [N] here, so that [length] is the [.length] of the source.  What the
    browser supplies and the repository does not define (the DOM, the
    clock, Unicode case mapping) is collected in the class [Browser]. *)

From Stdlib Require Import ZArith NArith Strings.String Strings.Ascii.
From Stdlib Require Import Lists.List Sorting.Sorted Sorting.Permutation.
From Stdlib Require Import Numbers.DecimalString Lia.
From stdpp Require Import base option list gmap.

Open Scope Z_scope.

(** ** JavaScript strings *)

Module JS.

Abbreviation jsstring := (list N).

(** A source literal, written as a Rocq string of ASCII characters. *)
Fixpoint js (s : string) : jsstring :=
  match s with
  | EmptyString => []
  | String a rest => N_of_ascii a :: js rest
  end.

(** The double quote, which a Rocq literal cannot hold undoubled. *)
Definition dquote : jsstring := [34%N].

(** [ToBoolean] on a string: the empty string is the only falsy one. *)
Definition truthy (s : jsstring) : bool :=
  match s with [] => false | _ :: _ => true end.

(** [ToBoolean] on a property that is either [undefined] or a string. *)
Definition truthyProp (o : option jsstring) : bool :=
  match o with Some s => truthy s | None => false end.

(** [String(n)] for a non-negative integer. *)
Definition decimal (n : nat) : jsstring :=
  js (NilZero.string_of_uint (Nat.to_uint n)).

(** [t] is a prefix of [s], by code units. *)
Fixpoint startsWith (s t : jsstring) {struct t} : bool :=
  match t, s with
  | [], _ => true
  | _ :: _, [] => false
  | b :: t', a :: s' => (a =? b)%N && startsWith s' t'
  end.

(** [s.includes(t)]: [t] occurs in [s] at some index. *)
Fixpoint includes (s t : jsstring) : bool :=
  startsWith s t ||
  match s with
  | [] => false
  | _ :: s' => includes s' t
  end.

(** [s.split(sep)] for a separator of one code unit, as a non-empty list:
    the first piece and the others. *)
Fixpoint split1 (sep : N) (s : jsstring) : jsstring * list jsstring :=
  match s with
  | [] => ([], [])
  | c :: s' =>
      let '(hd, tl) := split1 sep s' in
      if (c =? sep)%N then ([], hd :: tl) else (c :: hd, tl)
  end.

Definition split (sep : N) (s : jsstring) : list jsstring :=
  let '(hd, tl) := split1 sep s in hd :: tl.

(** White space and line terminators, the code units [trim] strips. *)
Definition isWhiteSpace (c : N) : bool :=
  match c with
  | 9 | 10 | 11 | 12 | 13 | 32 | 160 | 5760 | 8232 | 8233 | 8239 | 8287
  | 12288 | 65279 => true
  | _ => (8192 <=? c)%N && (c <=? 8202)%N
  end%N.

Fixpoint trimStart (s : jsstring) : jsstring :=
  match s with
  | c :: s' => if isWhiteSpace c then trimStart s' else s
  | [] => []
  end.

Definition trim (s : jsstring) : jsstring :=
  rev (trimStart (rev (trimStart s))).

(** [s.substring(0, n)]. *)
Definition substring0 (n : nat) (s : jsstring) : jsstring := take n s.

(** [s.slice(1)]. *)
Definition slice1 (s : jsstring) : jsstring := drop 1 s.

(** [a.slice(0, limit)] on an array, for an integer [limit]: a negative
    limit counts from the end. *)
Definition slice0 {A} (limit : Z) (a : list A) : list A :=
  let len := Z.of_nat (length a) in
  let final := if limit <? 0 then Z.max (len + limit) 0 else Z.min limit len in
  take (Z.to_nat final) a.

(** [SortCompare] of the language specification: a comparator result that
    is NaN (here [None]) counts as [+0]. *)
Definition sortCompare {A} (comparefn : A -> A -> option Z) (x y : A) : Z :=
  default 0 (comparefn x y).

(** [a.sort(comparefn)].  The language requires the sort to be stable, so
    for a consistent comparator the result is determined: it is the list
    that inserting the elements from the right, each before the first
    element it does not have to follow, produces. *)
Fixpoint sortInsert {A} (comparefn : A -> A -> option Z) (x : A) (l : list A)
  : list A :=
  match l with
  | [] => [x]
  | y :: l' =>
      if 0 <? sortCompare comparefn x y
      then y :: sortInsert comparefn x l'
      else x :: l
  end.

Definition sort {A} (comparefn : A -> A -> option Z) (a : list A) : list A :=
  foldr (sortInsert comparefn) [] a.

(** A [Set] keeps its elements in insertion order, without duplicates. *)
Definition Set_add (x : jsstring) (s : list jsstring) : list jsstring :=
  if decide (x ∈ s) then s else s ++ [x].

(** [x < y] on strings: the code units decide, from the left, and a
    proper prefix comes first. *)
Fixpoint lessThan (x y : jsstring) : bool :=
  match x, y with
  | _, [] => false
  | [], _ :: _ => true
  | a :: x', b :: y' => (a <? b)%N || ((a =? b)%N && lessThan x' y')
  end.

(** The comparator of [a.sort()] without an argument, on strings. *)
Definition defaultCompare (x y : jsstring) : option Z :=
  Some (if lessThan x y then -1 else if lessThan y x then 1 else 0).

(** [a.findIndex(f)], counting from [i]: [-1] when no element passes. *)
Fixpoint findIndexFrom {A} (f : A -> bool) (i : Z) (a : list A) : Z :=
  match a with
  | [] => -1
  | x :: a' => if f x then i else findIndexFrom f (i + 1) a'
  end.

Definition findIndex {A} (f : A -> bool) (a : list A) : Z := findIndexFrom f 0 a.

(** [a[i]] for an integer [i]: [undefined], here [None], outside the array. *)
Definition at_index {A} (a : list A) (i : Z) : option A :=
  if i <? 0 then None else a !! Z.to_nat i.

End JS.

Import JS.

Arguments js : simpl never.
Arguments decimal : simpl never.

(** ** What the browser supplies *)

Class Browser := {
  (** [div.innerHTML = html; div.textContent] on a detached [div] *)
  div_textContent : jsstring -> jsstring;
  (** [div.innerHTML = html; div.innerText] *)
  div_innerText : jsstring -> jsstring;
  (** [s.toLowerCase()] *)
  toLowerCase : jsstring -> jsstring;
  toLowerCase_empty : toLowerCase [] = [];
  (** the time value of [new Date(s)], [None] for an invalid date (NaN) *)
  Date_time : jsstring -> option Z;
  (** [d.toLocaleDateString('en-US', {year, month: 'long', day})] *)
  toLocaleDateString : option Z -> jsstring
}.

(** ** Effects: a trace of what the page does, a state, exceptions *)

Inductive JsError :=
  | FetchRejected                 (* [fetch] rejects: the network failed *)
  | JsonSyntaxError               (* [response.json()] rejects *)
  | TypeError                     (* a property of [null] is read *)
  | URIError                      (* malformed URI sequence *)
  | Error (msg : jsstring).       (* [new Error(msg)] *)

Inductive Event :=
  | Fetch (url : jsstring)
  | ShowLoading
  | HideLoading
  | ConsoleError (label : jsstring) (e : JsError)
  | ShowError (msg : jsstring)
  | AssignHash (url : jsstring)
  | UpdateActiveNavigation (route : jsstring)
  | CloseSidebar.

Inductive Completion (A : Type) :=
  | Normal (a : A)
  | Throw (e : JsError).
Arguments Normal {A} a.
Arguments Throw {A} e.

Record Result (S A : Type) := mkResult {
  trace : list Event;
  final : S;
  completion : Completion A
}.
Arguments mkResult {S A} trace final completion.
Arguments trace {S A} r.
Arguments final {S A} r.
Arguments completion {S A} r.

(** A computation over a state [S]: asynchronous functions are run to
    their settlement, [Normal] for a fulfilled promise and [Throw] for a
    rejected one. *)
Definition M (S A : Type) : Type := S -> Result S A.

Section Monad.
Context {S : Type}.

Definition ret {A} (a : A) : M S A := fun s => mkResult [] s (Normal a).

Definition bind {A B} (m : M S A) (k : A -> M S B) : M S B := fun s =>
  let r := m s in
  match completion r with
  | Normal a =>
      let r' := k a (final r) in
      mkResult (trace r ++ trace r') (final r') (completion r')
  | Throw e => mkResult (trace r) (final r) (Throw e)
  end.

Definition throw {A} (e : JsError) : M S A := fun s => mkResult [] s (Throw e).

(** [try { m } catch (error) { h error }] *)
Definition tryCatch {A} (m : M S A) (h : JsError -> M S A) : M S A := fun s =>
  let r := m s in
  match completion r with
  | Normal a => r
  | Throw e =>
      let r' := h e (final r) in
      mkResult (trace r ++ trace r') (final r') (completion r')
  end.

Definition emit (e : Event) : M S unit := fun s => mkResult [e] s (Normal tt).
Definition get : M S S := fun s => mkResult [] s (Normal s).
Definition modify (f : S -> S) : M S unit := fun s => mkResult [] (f s) (Normal tt).
End Monad.

Notation "'let*' x ':=' m 'in' k" := (bind m (fun x => k))
  (at level 10, x name, m at level 200, k at level 200).
Notation "m ';;' k" := (bind m (fun _ => k))
  (at level 100, right associativity).

(** A computation on a component, run inside a larger state. *)
Definition zoom {S T A} (proj : S -> T) (upd : T -> S -> S) (m : M T A) : M S A :=
  fun s => let r := m (proj s) in
           mkResult (trace r) (upd (final r) s) (completion r).

(** ** Utility functions *)

Module Utils.
Section WithBrowser.
Context `{Browser}.

(** Number of maximal runs of white space in [s], where [inRun] tells
    whether the previous code unit was white space. *)
Fixpoint whiteSpaceRuns (inRun : bool) (s : jsstring) : nat :=
  match s with
  | [] => 0
  | c :: s' =>
      if isWhiteSpace c
      then (if inRun then 0 else 1) + whiteSpaceRuns true s'
      else whiteSpaceRuns false s'
  end%nat.

(** [calculateReadingTime]: [text.split(/\s+/)] has one piece more than
    [text] has runs of white space; [Math.ceil(words / wordsPerMinute)]. *)
Definition calculateReadingTime (text : jsstring) : nat :=
  let wordsPerMinute := 200%nat in
  let words := S (whiteSpaceRuns false text) in
  let minutes := ((words + wordsPerMinute - 1) / wordsPerMinute)%nat in
  minutes.

Definition formatDate (dateString : jsstring) : jsstring :=
  toLocaleDateString (Date_time dateString).

(** [div.textContent || div.innerText || ''] *)
Definition extractTextFromHTML (html : jsstring) : jsstring :=
  if truthy (div_textContent html) then div_textContent html
  else if truthy (div_innerText html) then div_innerText html
  else [].

Definition generateExcerpt (content : jsstring) : jsstring :=
  let maxLength := 150%nat in
  let text := extractTextFromHTML content in
  if (length text <=? maxLength)%nat then text
  else trim (substring0 maxLength text) ++ js "...".

End WithBrowser.

(** [GetSubstitution] for a match without capture groups: in the
    replacement text [$$] stands for a dollar sign, [$&] for the matched
    text, [$`] for what precedes the match and [$'] for what follows it;
    any other dollar sign stands for itself. *)
Fixpoint getSubstitution (matched before after replacement : jsstring)
  : jsstring :=
  match replacement with
  | [] => []
  | c :: rest =>
      if (c =? 36)%N then
        match rest with
        | d :: rest' =>
            if (d =? 36)%N then 36%N :: getSubstitution matched before after rest'
            else if (d =? 38)%N then matched ++ getSubstitution matched before after rest'
            else if (d =? 96)%N then before ++ getSubstitution matched before after rest'
            else if (d =? 39)%N then after ++ getSubstitution matched before after rest'
            else c :: getSubstitution matched before after rest
        | [] => [c]
        end
      else c :: getSubstitution matched before after rest
  end.

(** [s.replace(new RegExp(pattern, 'g'), replacement)] for a pattern in
    which every character matches itself.  The matches are found from
    left to right and do not overlap; after a match at the current
    position, [skip] counts the code units of it still to pass over.
    [before] is what was read of the whole string so far. *)
Fixpoint replaceLoop (pattern replacement before s : jsstring) (skip : nat)
  : jsstring :=
  match s with
  | [] => []
  | c :: s' =>
      match skip with
      | S k => replaceLoop pattern replacement (before ++ [c]) s' k
      | O =>
          if startsWith s pattern
          then getSubstitution pattern before (drop (length pattern) s) replacement
               ++ replaceLoop pattern replacement (before ++ [c]) s'
                    (length pattern - 1)
          else c :: replaceLoop pattern replacement (before ++ [c]) s' 0
      end
  end.

Definition replaceAll (pattern replacement s : jsstring) : jsstring :=
  replaceLoop pattern replacement [] s 0.

(** The text [{{photoN}}] for the photo at [index].  As a pattern of
    [new RegExp(placeholder, 'g')] it matches itself only: a brace that
    does not open a repetition count is an ordinary character. *)
Definition placeholder (index : nat) : jsstring :=
  js "{{photo" ++ decimal (index + 1) ++ js "}}".

Definition imgTag (photo : jsstring) (index : nat) : jsstring :=
  js "<img src=" ++ dquote ++ photo ++ dquote
  ++ js " alt=" ++ dquote ++ js "Blog image " ++ decimal (index + 1) ++ dquote
  ++ js " class=" ++ dquote ++ js "w-full h-auto rounded-lg shadow-md my-4" ++ dquote
  ++ js " loading=" ++ dquote ++ js "lazy" ++ dquote ++ js ">".

(** The body of [photos.forEach((photo, index) => ...)], from [index] on. *)
Fixpoint replaceEach (index : nat) (photos : list jsstring)
  (processedContent : jsstring) : jsstring :=
  match photos with
  | [] => processedContent
  | photo :: photos' =>
      replaceEach (S index) photos'
        (replaceAll (placeholder index) (imgTag photo index) processedContent)
  end.

Definition replacePhotoPlaceholders (content : jsstring) (photos : list jsstring)
  : jsstring :=
  replaceEach 0 photos content.

(** The [innerHTML] of an element whose only child is a text node: the
    text with [&], [<], [>] and the no-break space written as character
    references. *)
Definition serializeText (text : jsstring) : jsstring :=
  flat_map (fun c => if (c =? 38)%N then js "&amp;"
                     else if (c =? 60)%N then js "&lt;"
                     else if (c =? 62)%N then js "&gt;"
                     else if (c =? 160)%N then js "&nbsp;"
                     else [c]) text.

(** [div.textContent = html; return div.innerHTML] *)
Definition sanitizeHTML (html : jsstring) : jsstring := serializeText html.

(** [div.textContent = text; return div.innerHTML] *)
Definition escapeHTML (text : jsstring) : jsstring := serializeText text.

(** A regular expression [/^t1 t2 ... tn$/] whose terms are a literal
    code unit or a character class repeated once or more. *)
Inductive Term :=
  | Char (c : N)
  | OneOrMore (class : N -> bool).

(** [regex.test(s)] for such an expression: some way of cutting [s] into
    pieces matches the terms one after the other. *)
Fixpoint test (terms : list Term) (s : jsstring) {struct s} : bool :=
  match terms, s with
  | [], [] => true
  | [], _ :: _ => false
  | _ :: _, [] => false
  | Char c :: terms', a :: s' => (a =? c)%N && test terms' s'
  | OneOrMore class :: terms', a :: s' =>
      class a && (test terms' s' || test terms s')
  end.

(** The class [[^\s@]]. *)
Definition notSpaceNorAt (c : N) : bool := negb (isWhiteSpace c || (c =? 64)%N).

(** [/^[^\s@]+@[^\s@]+\.[^\s@]+$/] *)
Definition emailRegex : list Term :=
  [OneOrMore notSpaceNorAt; Char 64; OneOrMore notSpaceNorAt; Char 46;
   OneOrMore notSpaceNorAt].

Definition isValidEmail (email : jsstring) : bool := test emailRegex email.

End Utils.

Import Utils.

(** ** The network *)

Inductive TagsField :=
  | TagsAbsent                         (* no [tags], or neither string nor array *)
  | TagsString (s : jsstring)          (* a comma-separated string *)
  | TagsArray (l : list jsstring).     (* an array of strings *)

(** A JSON object as the blog reads it: the properties of a post document
    and the [posts] property of the index document, each absent ([None])
    or of the type the interface gives it. *)
Record Document := mkDocument {
  doc_posts : option (list jsstring);
  doc_slug : option jsstring;
  doc_title : option jsstring;
  doc_author : option jsstring;
  doc_date : option jsstring;
  doc_contents : option jsstring;
  doc_category : option jsstring;
  doc_tags : TagsField;
  doc_coverPhoto : option jsstring;
  doc_photos : option (list jsstring)
}.

(** What [response.json()] yields.  A JSON number, string, boolean or
    array has none of the properties read: it behaves as [JObject] of a
    document with every property absent. *)
Inductive Json :=
  | JNull
  | JObject (d : Document).

Record Response := mkResponse {
  ok : bool;
  body : option Json          (* [None]: the body is not JSON *)
}.

(** A network answers a request with a response, or fails ([None]); it
    gives the same answer whenever the same address is asked again. *)
Definition Network := jsstring -> option Response.

Section Fetch.
Context {S : Type} (net : Network).

(** [fetch(url)]: the request goes out when [fetch] is called; the
    response, or the failure, is there when the promise is awaited. *)
Definition request (url : jsstring) : M S unit := emit (Fetch url).

Definition respond (url : jsstring) : M S Response :=
  match net url with
  | Some response => ret response
  | None => throw FetchRejected
  end.

Definition fetch (url : jsstring) : M S Response :=
  request url ;; respond url.

Definition json (response : Response) : M S Json :=
  match body response with
  | Some j => ret j
  | None => throw JsonSyntaxError
  end.

End Fetch.

(** ** The post manager *)

Record Post := mkPost {
  slug : jsstring;
  title : jsstring;
  author : jsstring;
  date : jsstring;
  contents : jsstring;
  category : option jsstring;
  tags : TagsField;
  coverPhoto : option jsstring;
  photos : option (list jsstring);
  processedContent : jsstring;
  excerpt : jsstring;
  readingTime : nat;
  formattedDate : jsstring;
  tagArray : list jsstring
}.

Record PostManager := mkPostManager {
  posts : list Post;
  categories : list jsstring;
  allTags : list jsstring;        (* [this.tags]; [tags] is a post's *)
  postsLoaded : bool;
  viewMode : jsstring
}.

Definition newPostManager : PostManager :=
  mkPostManager [] [] [] false (js "grid").

Module PostManager.
Section WithBrowser.
Context `{Browser} (net : Network).

(** [post[field]] for the fields [validatePost] requires. *)
Definition property (post : Document) (field : jsstring) : option jsstring :=
  if decide (field = js "slug") then doc_slug post
  else if decide (field = js "title") then doc_title post
  else if decide (field = js "author") then doc_author post
  else if decide (field = js "date") then doc_date post
  else if decide (field = js "contents") then doc_contents post
  else None.

Definition requiredFields : list jsstring :=
  [js "slug"; js "title"; js "author"; js "date"; js "contents"].

(** [requiredFields.every(field => post.hasOwnProperty(field) && post[field])] *)
Definition everyRequired (post : Document) : bool :=
  forallb (fun field => truthyProp (property post field)) requiredFields.

(** On [null] the property access throws. *)
Definition validatePost (post : Json) : M PostManager bool :=
  match post with
  | JNull => throw TypeError
  | JObject d => ret (everyRequired d)
  end.

(** [post.tagArray]: a string is split at commas, its pieces trimmed and
    the empty ones dropped; an array is taken as it is. *)
Definition tagArrayOf (t : TagsField) : list jsstring :=
  match t with
  | TagsString s => List.filter truthy (map trim (split 44 s))
  | TagsArray l => l
  | TagsAbsent => []
  end.

(** The post object, once [loadPost] has added the derived properties.
    A required field holds a string when this is reached. *)
Definition processPost (d : Document) : Post :=
  let contents := default [] (doc_contents d) in
  let date := default [] (doc_date d) in
  {| slug := default [] (doc_slug d);
     title := default [] (doc_title d);
     author := default [] (doc_author d);
     date := date;
     contents := contents;
     category := doc_category d;
     tags := doc_tags d;
     coverPhoto := doc_coverPhoto d;
     photos := doc_photos d;
     processedContent := replacePhotoPlaceholders contents (default [] (doc_photos d));
     excerpt := generateExcerpt contents;
     readingTime := calculateReadingTime (extractTextFromHTML contents);
     formattedDate := formatDate date;
     tagArray := tagArrayOf (doc_tags d) |}.

Definition postUrl (slug : jsstring) : jsstring :=
  js "static/posts/" ++ slug ++ js ".json".

(** The [try] block of [loadPost], from the response on. *)
Definition readPost (slug : jsstring) (response : Response)
  : M PostManager (option Post) :=
  if negb (ok response) then throw (Error (js "Post not found: " ++ slug))
  else
    let* post := json response in
    let* valid := validatePost post in
    if negb valid then throw (Error (js "Invalid post structure: " ++ slug))
    else
      match post with
      | JObject d => ret (Some (processPost d))
      | JNull => throw TypeError
      end.

(** The [catch] block of [loadPost]: [null] is [None]. *)
Definition reportPost (slug : jsstring) (error : JsError)
  : M PostManager (option Post) :=
  emit (ConsoleError (js "Error loading post " ++ slug ++ js ":") error) ;;
  ret None.

Definition loadPost (slug : jsstring) : M PostManager (option Post) :=
  tryCatch
    (let* response := fetch net (postUrl slug) in readPost slug response)
    (reportPost slug).

(** [loadPost] from its first [await] on, the request being out. *)
Definition loadPostAwaited (slug : jsstring) : M PostManager (option Post) :=
  tryCatch
    (let* response := respond net (postUrl slug) in readPost slug response)
    (reportPost slug).

Definition commonSlugs : list jsstring :=
  [js "welcome-to-my-blog";
   js "getting-started-with-web-development";
   js "javascript-best-practices";
   js "css-tips-and-tricks";
   js "my-development-setup"].

(** The loop of [discoverPosts] over the slugs still to probe. *)
Fixpoint discoverLoop (slugs existingSlugs : list jsstring)
  : M PostManager (list jsstring) :=
  match slugs with
  | [] => ret existingSlugs
  | slug :: rest =>
      let* found :=
        tryCatch
          (let* response := fetch net (postUrl slug) in ret (ok response))
          (fun _ => ret false) in
      discoverLoop rest (if found then existingSlugs ++ [slug] else existingSlugs)
  end.

Definition discoverPosts : M PostManager (list jsstring) :=
  discoverLoop commonSlugs [].

(** [postSlugs.map(slug => this.loadPost(slug))]: each call of
    [loadPost] runs up to its first [await], so the requests go out one
    after the other, in the order of the slugs, before any answer is
    looked at. *)
Fixpoint requestEach (postSlugs : list jsstring) : M PostManager unit :=
  match postSlugs with
  | [] => ret tt
  | slug :: rest => request (postUrl slug) ;; requestEach rest
  end.

(** [await Promise.all(postPromises)]: the results come in the order of
    the slugs.  No call of [loadPost] touches the manager; the calls are
    let go on in the order of the slugs. *)
Fixpoint awaitEach (postSlugs : list jsstring) : M PostManager (list (option Post)) :=
  match postSlugs with
  | [] => ret []
  | slug :: rest =>
      let* post := loadPostAwaited slug in
      let* others := awaitEach rest in
      ret (post :: others)
  end.

Definition loadEach (postSlugs : list jsstring) : M PostManager (list (option Post)) :=
  requestEach postSlugs ;; awaitEach postSlugs.

(** [posts.filter(post => post !== null)] *)
Definition nonNull (loaded : list (option Post)) : list Post :=
  omap id loaded.

Definition extractCategoriesAndTags (pm : PostManager) : PostManager :=
  let step (acc : list jsstring * list jsstring) (post : Post) :=
    let cats := if truthyProp (category post)
                then Set_add (default [] (category post)) (fst acc)
                else fst acc in
    (cats, foldl (fun tags tag => Set_add tag tags) (snd acc) (tagArray post)) in
  let '(cats, tags) := foldl step ([], []) (posts pm) in
  {| posts := posts pm; categories := cats; allTags := tags;
     postsLoaded := postsLoaded pm; viewMode := viewMode pm |}.

Definition indexUrl : jsstring := js "static/posts/index.json".

Definition loadAllPosts : M PostManager (list Post) :=
  let* this := get in
  if postsLoaded this then ret (posts this)
  else
    tryCatch
      (emit ShowLoading ;;
       let* response := fetch net indexUrl in
       let* postSlugs :=
         if ok response then
           let* index := json response in
           match index with
           | JNull => throw TypeError
           | JObject d => ret (default [] (doc_posts d))
           end
         else discoverPosts in
       let* loaded := loadEach postSlugs in
       modify (fun this => {| posts := nonNull loaded; categories := categories this;
                              allTags := allTags this; postsLoaded := postsLoaded this;
                              viewMode := viewMode this |}) ;;
       modify extractCategoriesAndTags ;;
       modify (fun this => {| posts := posts this; categories := categories this;
                              allTags := allTags this; postsLoaded := true;
                              viewMode := viewMode this |}) ;;
       emit HideLoading ;;
       let* this := get in
       ret (posts this))
      (fun error =>
         emit (ConsoleError (js "Error loading posts:") error) ;;
         emit HideLoading ;;
         throw error).

(** *** Reading the collection *)

Definition getPostBySlug (this : PostManager) (s : jsstring) : option Post :=
  List.find (fun post => bool_decide (slug post = s)) (posts this).

Definition getPostsByCategory (this : PostManager) (c : jsstring) : list Post :=
  List.filter (fun post => bool_decide (category post = Some c)) (posts this).

Definition getPostsByTag (this : PostManager) (tag : jsstring) : list Post :=
  List.filter (fun post => bool_decide (tag ∈ tagArray post)) (posts this).

(** [new Date(b.date) - new Date(a.date)], [None] when it is NaN. *)
Definition byDateDescending (a b : Post) : option Z :=
  match Date_time (date b), Date_time (date a) with
  | Some tb, Some ta => Some (tb - ta)
  | _, _ => None
  end.

(** [getLatestPosts(limit)], where the source has 5 for a [limit] left
    out: [sort] works in place, on [this.posts]. *)
Definition getLatestPosts (limit : Z) : M PostManager (list Post) :=
  modify (fun this => {| posts := sort byDateDescending (posts this);
                         categories := categories this; allTags := allTags this;
                         postsLoaded := postsLoaded this; viewMode := viewMode this |}) ;;
  let* this := get in
  ret (slice0 limit (posts this)).

Definition searchPosts (this : PostManager) (query : jsstring) : list Post :=
  let searchTerm := toLowerCase query in
  List.filter (fun post =>
    let titleMatch := includes (toLowerCase (title post)) searchTerm in
    let contentMatch :=
      includes (toLowerCase (extractTextFromHTML (contents post))) searchTerm in
    let tagMatch :=
      existsb (fun tag => includes (toLowerCase tag) searchTerm) (tagArray post) in
    let categoryMatch :=
      match category post with
      | Some c => truthy c && includes (toLowerCase c) searchTerm
      | None => false
      end in
    titleMatch || contentMatch || tagMatch || categoryMatch) (posts this).

(** The posts [generatePostNavigation(currentPost)] links to, [prevPost]
    and [nextPost]; [null] is [None]. *)
Definition postNavigation (this : PostManager) (currentPost : Post)
  : option Post * option Post :=
  let currentIndex :=
    findIndex (fun post => bool_decide (slug post = slug currentPost)) (posts this) in
  let prevPost :=
    if 0 <? currentIndex then at_index (posts this) (currentIndex - 1) else None in
  let nextPost :=
    if currentIndex <? Z.of_nat (length (posts this)) - 1
    then at_index (posts this) (currentIndex + 1) else None in
  (prevPost, nextPost).

(** [Array.from(this.categories).sort()] *)
Definition getAllCategories (this : PostManager) : list jsstring :=
  sort defaultCompare (categories this).

(** [Array.from(this.tags).sort()] *)
Definition getAllTags (this : PostManager) : list jsstring :=
  sort defaultCompare (allTags this).

End WithBrowser.
End PostManager.

Arguments PostManager.everyRequired : simpl never.

(** ** URI encoding and the address bar *)

Module URI.
Open Scope N_scope.

Definition isHighSurrogate (c : N) : bool := (0xD800 <=? c) && (c <=? 0xDBFF).
Definition isLowSurrogate (c : N) : bool := (0xDC00 <=? c) && (c <=? 0xDFFF).

(** The code points of a string; [None] stands for a lone surrogate. *)
Fixpoint codePoints (s : jsstring) : list (option N) :=
  match s with
  | [] => []
  | c :: s' =>
      if isHighSurrogate c then
        match s' with
        | d :: s'' =>
            if isLowSurrogate d
            then Some (0x10000 + (c - 0xD800) * 0x400 + (d - 0xDC00)) :: codePoints s''
            else None :: codePoints s'
        | [] => [None]
        end
      else if isLowSurrogate c then None :: codePoints s'
      else Some c :: codePoints s'
  end.

(** The code units of a code point. *)
Definition codeUnits (cp : N) : jsstring :=
  if cp <? 0x10000 then [cp]
  else [0xD800 + (cp - 0x10000) / 0x400; 0xDC00 + (cp - 0x10000) mod 0x400].

Definition utf8 (cp : N) : list N :=
  if cp <? 0x80 then [cp]
  else if cp <? 0x800 then [0xC0 + cp / 0x40; 0x80 + cp mod 0x40]
  else if cp <? 0x10000 then
    [0xE0 + cp / 0x1000; 0x80 + (cp / 0x40) mod 0x40; 0x80 + cp mod 0x40]
  else
    [0xF0 + cp / 0x40000; 0x80 + (cp / 0x1000) mod 0x40;
     0x80 + (cp / 0x40) mod 0x40; 0x80 + cp mod 0x40].

Definition hexDigit (d : N) : N := if d <? 10 then 48 + d else 55 + d.

Definition percentEncode (b : N) : jsstring := [37; hexDigit (b / 16); hexDigit (b mod 16)].

Definition isAlphaNum (c : N) : bool :=
  ((48 <=? c) && (c <=? 57)) || ((65 <=? c) && (c <=? 90)) || ((97 <=? c) && (c <=? 122)).

(** The characters [encodeURIComponent] leaves as they are:
    letters, digits and [- _ . ! ~ * ' ( )]. *)
Definition isUnreserved (c : N) : bool :=
  isAlphaNum c
  || (c =? 45) || (c =? 95) || (c =? 46) || (c =? 33) || (c =? 126)
  || (c =? 42) || (c =? 39) || (c =? 40) || (c =? 41).

Fixpoint encodeCodePoints (cps : list (option N)) : option jsstring :=
  match cps with
  | [] => Some []
  | None :: _ => None
  | Some cp :: rest =>
      match encodeCodePoints rest with
      | Some r =>
          Some ((if isUnreserved cp then [cp] else flat_map percentEncode (utf8 cp)) ++ r)
      | None => None
      end
  end.

(** [encodeURIComponent(s)]; [None] is the [URIError] for a lone surrogate. *)
Definition encodeURIComponent (s : jsstring) : option jsstring :=
  encodeCodePoints (codePoints s).

Definition hexValue (c : N) : option N :=
  if (48 <=? c) && (c <=? 57) then Some (c - 48)
  else if (65 <=? c) && (c <=? 70) then Some (c - 55)
  else if (97 <=? c) && (c <=? 102) then Some (c - 87)
  else None.

(** How a byte may begin a UTF-8 sequence: on its own, or followed by
    [n] more, the first of them between [lo] and [hi]. *)
Inductive Lead :=
  | LeadAscii
  | LeadOf (n : nat) (bits lo hi : N)
  | LeadInvalid.

Definition lead (b : N) : Lead :=
  if b <=? 0x7F then LeadAscii
  else if (0xC2 <=? b) && (b <=? 0xDF) then LeadOf 1 (b - 0xC0) 0x80 0xBF
  else if (0xE0 <=? b) && (b <=? 0xEF) then
    LeadOf 2 (b - 0xE0) (if b =? 0xE0 then 0xA0 else 0x80) (if b =? 0xED then 0x9F else 0xBF)
  else if (0xF0 <=? b) && (b <=? 0xF4) then
    LeadOf 3 (b - 0xF0) (if b =? 0xF0 then 0x90 else 0x80) (if b =? 0xF4 then 0x8F else 0xBF)
  else LeadInvalid.

(** The UTF-8 decoder of the encoding standard.  [pending] holds, inside
    a sequence, the number of bytes still expected, the bits read and
    the range allowed for the next byte.  An error is [None] in the
    output; the byte that breaks a sequence is read again as a first
    byte. *)
Fixpoint utf8Decode (pending : option (nat * N * N * N)) (bytes : list N)
  : list (option N) :=
  match bytes with
  | [] => match pending with Some _ => [None] | None => [] end
  | b :: rest =>
      let start :=
        match lead b with
        | LeadAscii => Some b :: utf8Decode None rest
        | LeadOf n bits lo hi => utf8Decode (Some (n, bits, lo, hi)) rest
        | LeadInvalid => None :: utf8Decode None rest
        end in
      match pending with
      | None => start
      | Some (n, bits, lo, hi) =>
          if (lo <=? b) && (b <=? hi) then
            let bits' := bits * 0x40 + (b - 0x80) in
            match n with
            | 1%nat | 0%nat => Some bits' :: utf8Decode None rest
            | S n' => utf8Decode (Some (n', bits', 0x80, 0xBF)) rest
            end
          else None :: start
      end
  end.

(** A string with percent escapes, cut into literal code units and
    escaped bytes; [None] when a [%] is not followed by two hex digits. *)
Inductive Token := Lit (c : N) | Esc (b : N).

Fixpoint tokens (s : jsstring) : option (list Token) :=
  match s with
  | [] => Some []
  | c :: s' =>
      if c =? 37 then
        match s' with
        | h :: l :: s'' =>
            match hexValue h, hexValue l, tokens s'' with
            | Some x, Some y, Some ts => Some (Esc (16 * x + y) :: ts)
            | _, _, _ => None
            end
        | _ => None
        end
      else
        match tokens s' with
        | Some ts => Some (Lit c :: ts)
        | None => None
        end
  end.

(** The maximal runs of escaped bytes, each decoded as UTF-8; [None]
    when a run is not well-formed UTF-8. *)
Fixpoint decodeTokens (run : list N) (ts : list Token) : option jsstring :=
  let flush (k : option jsstring) :=
    match k with
    | None => None
    | Some r =>
        foldr (fun cp acc =>
                 match cp, acc with
                 | Some v, Some a => Some (codeUnits v ++ a)
                 | _, _ => None
                 end) (Some r) (utf8Decode None run)
    end in
  match ts with
  | [] => flush (Some [])
  | Esc b :: ts' => decodeTokens (run ++ [b]) ts'
  | Lit c :: ts' =>
      flush (match decodeTokens [] ts' with Some r => Some (c :: r) | None => None end)
  end.

(** [decodeURIComponent(s)]; [None] is the [URIError]. *)
Definition decodeURIComponent (s : jsstring) : option jsstring :=
  match tokens s with
  | Some ts => decodeTokens [] ts
  | None => None
  end.

(** The bytes of a string in UTF-8, a lone surrogate as U+FFFD. *)
Definition utf8Bytes (s : jsstring) : list N :=
  flat_map (fun cp => utf8 (default 0xFFFD cp)) (codePoints s).

(** Percent-decoding of the URL standard: a [%] that two hex digits do
    not follow stands for itself. *)
Fixpoint percentDecode (bytes : list N) : list N :=
  match bytes with
  | [] => []
  | b :: rest =>
      match rest with
      | h :: l :: rest' =>
          match (if b =? 37 then hexValue h else None), hexValue l with
          | Some x, Some y => (16 * x + y) :: percentDecode rest'
          | _, _ => b :: percentDecode rest
          end
      | _ => b :: percentDecode rest
      end
  end.

(** UTF-8 decode without BOM: the bytes are decoded as they stand, a
    byte order mark at their head is not looked for and comes out as
    U+FEFF; an error is replaced by U+FFFD. *)
Definition utf8DecodeWithoutBOM (bytes : list N) : jsstring :=
  flat_map (fun cp => codeUnits (default 0xFFFD cp)) (utf8Decode None bytes).

Definition plusToSpace (bytes : list N) : list N :=
  map (fun b => if b =? 43 then 32 else b) bytes.

(** The name and the value of one [name=value] piece of a query. *)
Definition parsePair (piece : list N) : jsstring * jsstring :=
  let '(name, others) := split1 61 piece in
  let value := match others with
               | [] => []
               | v :: vs => foldl (fun acc x => acc ++ [61] ++ x) v vs
               end in
  (utf8DecodeWithoutBOM (percentDecode (plusToSpace name)),
   utf8DecodeWithoutBOM (percentDecode (plusToSpace value))).

(** [new URLSearchParams(init)] for a string: the list of its pairs, in
    the order [forEach] visits them. *)
Definition URLSearchParams (init : jsstring) : list (jsstring * jsstring) :=
  let init' := match init with 63 :: rest => rest | _ => init end in
  map parsePair (List.filter truthy (split 38 (utf8Bytes init'))).

(** The code units the URL parser escapes in a fragment: controls, the
    space, the double quote, the angle brackets, the backquote, and what
    is not ASCII. *)
Definition inFragmentPercentEncodeSet (cp : N) : bool :=
  (cp <=? 0x20) || (0x7E <? cp)
  || (cp =? 0x22) || (cp =? 0x3C) || (cp =? 0x3E) || (cp =? 0x60).

Definition isTabOrNewline (c : N) : bool :=
  (c =? 9) || (c =? 10) || (c =? 13).

(** What [window.location.hash] reads after [window.location.hash = url]:
    the fragment the URL parser makes of [url] without its leading [#],
    behind a [#]; the empty string when the fragment is empty. *)
Definition hashAfterAssign (url : jsstring) : jsstring :=
  let input := match url with 35 :: rest => rest | _ => url end in
  let input' := List.filter (fun c => negb (isTabOrNewline c)) input in
  let fragment :=
    flat_map (fun cp => let v := default 0xFFFD cp in
                        if inFragmentPercentEncodeSet v
                        then flat_map percentEncode (utf8 v) else [v])
             (codePoints input') in
  match fragment with
  | [] => []
  | _ => 35 :: fragment
  end.

(** The bytes the serializer of [URLSearchParams] leaves as they are:
    letters, digits and [* - . _]. *)
Definition isFormSafe (b : N) : bool :=
  isAlphaNum b || (b =? 42) || (b =? 45) || (b =? 46) || (b =? 95).

Definition formEncode (s : jsstring) : jsstring :=
  flat_map (fun b => if isFormSafe b then [b]
                     else if b =? 32 then [43]
                     else percentEncode b) (utf8Bytes s).

(** [params.toString()] of a [URLSearchParams] holding [pairs]. *)
Fixpoint formSerialize (pairs : list (jsstring * jsstring)) : jsstring :=
  match pairs with
  | [] => []
  | (name, value) :: rest =>
      formEncode name ++ [61] ++ formEncode value
      ++ match rest with [] => [] | _ => [38] ++ formSerialize rest end
  end.

End URI.

(** ** The page: its three singletons and the address bar *)

Record Router := mkRouter {
  currentRoute : option jsstring;                 (* [null] at first *)
  currentParams : gmap jsstring jsstring
}.

Record SearchManager := mkSearchManager {
  currentQuery : jsstring;
  searchResults : list Post
}.

Record Page := mkPage {
  postManager : PostManager;
  searchManager : SearchManager;
  router : Router;
  location_hash : jsstring                        (* [window.location.hash] *)
}.

Definition newPage : Page :=
  mkPage newPostManager (mkSearchManager [] []) (mkRouter None ∅) [].

Definition withPostManager {A} (m : M PostManager A) : M Page A :=
  zoom postManager
       (fun pm page => mkPage pm (searchManager page) (router page) (location_hash page))
       m.

Definition setRouter (r : Router) : M Page unit :=
  modify (fun page => mkPage (postManager page) (searchManager page) r (location_hash page)).

Definition setSearchManager (sm : SearchManager) : M Page unit :=
  modify (fun page => mkPage (postManager page) sm (router page) (location_hash page)).

(** [window.location.hash = url] *)
Definition assignHash (url : jsstring) : M Page unit :=
  emit (AssignHash url) ;;
  modify (fun page => mkPage (postManager page) (searchManager page) (router page)
                             (URI.hashAfterAssign url)).

(** [o[key] = value] on an object literal whose values are strings.
    The name [__proto__] is the accessor of the prototype: assigning a
    string to it adds no property. *)
Definition setProperty (key value : jsstring) (o : gmap jsstring jsstring)
  : gmap jsstring jsstring :=
  if decide (key = js "__proto__") then o else <[key := value]> o.

(** ** The router *)

(** How far [handleRouteChange] is followed: to the call
    [this.routes[route](params)], made inside its [try] block, or to the
    call [this.routes['404']()] of its [else] branch.  What the handler
    called does, and the [catch] block that logs a handler's error and
    calls [render404], come after and are not part of [Handler]. *)
Inductive Dispatch :=
  | Handler (route : jsstring) (params : gmap jsstring jsstring)
  | NotFound.

Module Router.

(** The keys of [this.routes]. *)
Definition routes : list jsstring :=
  [js "home"; js "posts"; js "post"; js "categories"; js "tags"; js "search";
   js "about"; js "404"].

(** The properties every object inherits: [this.routes[name]] is defined
    for them too. *)
Definition inherited : list jsstring :=
  [js "constructor"; js "hasOwnProperty"; js "isPrototypeOf";
   js "propertyIsEnumerable"; js "toLocaleString"; js "toString"; js "valueOf";
   js "__proto__"; js "__defineGetter__"; js "__defineSetter__";
   js "__lookupGetter__"; js "__lookupSetter__"].

(** A step that may throw [URIError]. *)
Definition orURIError {S A} (o : option A) : M S A :=
  match o with Some a => ret a | None => throw URIError end.

(** [if (params.key) { url += `?key=${encodeURIComponent(params.key)}` }] *)
Definition addQuery (params : gmap jsstring jsstring) (key url : jsstring)
  : M Page jsstring :=
  if truthyProp (params !! key) then
    let* encoded := orURIError (URI.encodeURIComponent (default [] (params !! key))) in
    ret (url ++ js "?" ++ key ++ js "=" ++ encoded)
  else ret url.

Definition navigate (route : jsstring) (params : gmap jsstring jsstring) : M Page unit :=
  setRouter (mkRouter (Some route) params) ;;
  let url := js "#" ++ route in
  let url := if truthyProp (params !! js "slug")
             then url ++ js "/" ++ default [] (params !! js "slug") else url in
  let* url := addQuery params (js "category") url in
  let* url := addQuery params (js "tag") url in
  let* url := addQuery params (js "q") url in
  assignHash url ;;
  emit (UpdateActiveNavigation route) ;;
  emit CloseSidebar.

(** [params.forEach((value, key) => { routeParams[key] = decodeURIComponent(value) })] *)
Fixpoint decodeInto (pairs : list (jsstring * jsstring))
  (routeParams : gmap jsstring jsstring) : option (gmap jsstring jsstring) :=
  match pairs with
  | [] => Some routeParams
  | (key, value) :: rest =>
      match URI.decodeURIComponent value with
      | Some v => decodeInto rest (setProperty key v routeParams)
      | None => None
      end
  end.

(** The first part of [handleRouteChange]: the target route and the
    parameters read from the address bar ([windowHash]) or from [path]. *)
Definition resolve (path : option jsstring) (windowHash : jsstring)
  : option (jsstring * gmap jsstring jsstring) :=
  let hash := if truthyProp path then default [] path else slice1 windowHash in
  let '(route, pathParts) := split1 47 hash in
  let params :=
    URI.URLSearchParams (default [] (split 63 windowHash !! 1%nat)) in
  let routeParams : gmap jsstring jsstring :=
    match pathParts with
    | part :: _ => {[ js "slug" := part ]}
    | [] => ∅
    end in
  match decodeInto params routeParams with
  | Some routeParams =>
      let targetRoute := if truthy route then route else js "home" in
      Some (targetRoute, routeParams)
  | None => None
  end.

(** [handleRouteChange(path)], as far as the call of a handler. *)
Definition handleRouteChange (path : option jsstring) : M Page Dispatch :=
  let* page := get in
  let* target := orURIError (resolve path (location_hash page)) in
  let '(targetRoute, routeParams) := target in
  if bool_decide (targetRoute ∈ routes ++ inherited) then
    setRouter (mkRouter (Some targetRoute) routeParams) ;;
    emit (UpdateActiveNavigation targetRoute) ;;
    ret (Handler targetRoute routeParams)
  else ret NotFound.

End Router.

(** ** The superseded router *)

Module RouterOld.

(** [path.replace(/^#\/?/, '')] *)
Definition cleanPathOf (path : jsstring) : jsstring :=
  match path with
  | 35 :: 47 :: rest => rest
  | 35 :: rest => rest
  | _ => path
  end%N.

Definition parseRoute (path : jsstring) : jsstring * gmap jsstring jsstring :=
  let cleanPath := cleanPathOf path in
  if negb (truthy cleanPath) then (js "home", ∅)
  else
    let pieces := split 63 cleanPath in
    let routePart := default [] (pieces !! 0%nat) in
    let queryPart := pieces !! 1%nat in
    let pathSegments := List.filter truthy (split 47 routePart) in
    match pathSegments with
    | [] => (js "home", ∅)
    | route :: more =>
        let params : gmap jsstring jsstring :=
          match more with
          | segment :: _ =>
              if decide (route = js "post") then {[ js "slug" := segment ]} else ∅
          | [] => ∅
          end in
        let params :=
          if truthyProp queryPart
          then foldl (fun acc kv => setProperty (fst kv) (snd kv) acc) params
                     (URI.URLSearchParams (default [] queryPart))
          else params in
        (route, params)
    end.

(** [navigate] of the superseded router, on [Object.entries(params)];
    it yields the value assigned to [window.location.hash]. *)
Definition navigate (route : jsstring) (entries : list (jsstring * jsstring))
  : jsstring :=
  let path := js "#/" ++ route in
  let slug := List.find (fun kv => bool_decide (fst kv = js "slug")) entries in
  let path :=
    match slug with
    | Some kv => if bool_decide (route = js "post") && truthy (snd kv)
                 then path ++ js "/" ++ snd kv else path
    | None => path
    end in
  let queryParams :=
    List.filter (fun kv => negb (bool_decide (fst kv = js "slug"))) entries in
  if truthy (URI.formSerialize queryParams)
  then path ++ js "?" ++ URI.formSerialize queryParams
  else path.

End RouterOld.

(** ** The search box *)

Module SearchManager.
Section WithBrowser.
Context `{Browser} (net : Network).

Definition handleSearch (query : jsstring) : M Page unit :=
  let trimmedQuery := trim query in
  if (length trimmedQuery =? 0)%nat then
    Router.navigate (js "home") ∅
  else if (length trimmedQuery <? 2)%nat then
    ret tt
  else
    let* page := get in
    setSearchManager (mkSearchManager trimmedQuery (searchResults (searchManager page))) ;;
    tryCatch
      (withPostManager (PostManager.loadAllPosts net) ;;
       let* page := get in
       setSearchManager
         (mkSearchManager (currentQuery (searchManager page))
                          (PostManager.searchPosts (postManager page) trimmedQuery)) ;;
       Router.navigate (js "search") {[ js "query" := trimmedQuery ]})
      (fun error =>
         emit (ConsoleError (js "Search error:") error) ;;
         emit (ShowError (js "An error occurred while searching. Please try again."))).

End WithBrowser.
End SearchManager.

(** ** Vocabulary of the specification *)

(** The post document the network serves for [slug], when fetching it
    succeeds: the request is answered, with an ok status and a JSON
    object as its body. *)
Definition fetched (net : Network) (slug : jsstring) : option Document :=
  match net (PostManager.postUrl slug) with
  | Some (mkResponse true (Some (JObject d))) => Some d
  | _ => None
  end.

Definition nonEmpty (o : option jsstring) : Prop :=
  exists s, o = Some s /\ s <> [].

(** A document that carries non-empty [slug], [title], [author], [date]
    and [contents]. *)
Definition carriesRequired (d : Document) : Prop :=
  nonEmpty (doc_slug d) /\ nonEmpty (doc_title d) /\ nonEmpty (doc_author d)
  /\ nonEmpty (doc_date d) /\ nonEmpty (doc_contents d).

(** [Survivors net slugs docs]: [docs] are the documents of the slugs
    whose fetch succeeds and whose document carries the required fields,
    in the order of [slugs]. *)
Inductive Survivors (net : Network) : list jsstring -> list Document -> Prop :=
  | Survivors_nil : Survivors net [] []
  | Survivors_keep slug slugs d docs :
      fetched net slug = Some d -> carriesRequired d ->
      Survivors net slugs docs -> Survivors net (slug :: slugs) (d :: docs)
  | Survivors_drop slug slugs docs :
      (forall d, fetched net slug = Some d -> ~ carriesRequired d) ->
      Survivors net slugs docs -> Survivors net (slug :: slugs) docs.

(** The index document cannot be had: the request fails, or it is
    answered with an ok status and a body that is not JSON or is [null]. *)
Definition indexUnavailable (net : Network) : Prop :=
  net PostManager.indexUrl = None
  \/ net PostManager.indexUrl = Some (mkResponse true None)
  \/ net PostManager.indexUrl = Some (mkResponse true (Some JNull)).

(** The index request is answered with a status that is not ok. *)
Definition indexNotOk (net : Network) : Prop :=
  exists b, net PostManager.indexUrl = Some (mkResponse false b).

(** The request for the post [slug] is answered with an ok status. *)
Definition answersOk (net : Network) (slug : jsstring) : bool :=
  match net (PostManager.postUrl slug) with
  | Some response => ok response
  | None => false
  end.

(** The common slugs whose request is answered with an ok status. *)
Definition discovered (net : Network) : list jsstring :=
  List.filter (answersOk net) PostManager.commonSlugs.

(** The slugs a first load goes through: those of the index, or the
    common slugs found when the index is answered without an ok status. *)
Definition slugsToLoad (net : Network) (slugs : list jsstring) : Prop :=
  (exists index, net PostManager.indexUrl = Some (mkResponse true (Some (JObject index)))
                 /\ slugs = default [] (doc_posts index))
  \/ (indexNotOk net /\ slugs = discovered net).

(** A failure to fetch or parse the index document, in the words of the
    specification, for which an answer that is not ok (a 404) is a
    failed fetch. *)
Definition indexFails (net : Network) : Prop :=
  indexUnavailable net \/ indexNotOk net.

(** What a load that aborts at the index leaves behind: the spinner
    shown and hidden, one request, one line on the console. *)
Definition abortTrace (e : JsError) : list Event :=
  [ShowLoading; Fetch PostManager.indexUrl; ConsoleError (js "Error loading posts:") e;
   HideLoading].

(** No request is made in a trace. *)
Definition noFetch (t : list Event) : Prop :=
  forall url, ~ In (Fetch url) t.

Section Dates.
Context `{Browser}.

Definition validDate (p : Post) : Prop := is_Some (Date_time (date p)).

(** [a] is dated no earlier than [b]. *)
Definition notOlder (a b : Post) : Prop :=
  exists ta tb, Date_time (date a) = Some ta /\ Date_time (date b) = Some tb /\ tb <= ta.

(** A list of posts in descending order of date. *)
Definition descendingByDate (l : list Post) : Prop := StronglySorted notOlder l.

End Dates.

Section QueryVocabulary.
Context `{Browser}.

(** [query] occurs in [field], letter case set aside. *)
Definition containsIgnoringCase (field query : jsstring) : Prop :=
  exists before after, toLowerCase field = before ++ toLowerCase query ++ after.

(** A post matches a query when its title, its plain-text content, one
    of its tag labels or its category label contains the query. *)
Definition matchesQuery (query : jsstring) (post : Post) : Prop :=
  containsIgnoringCase (title post) query
  \/ containsIgnoringCase (extractTextFromHTML (contents post)) query
  \/ (exists tag, In tag (tagArray post) /\ containsIgnoringCase tag query)
  \/ (exists c, category post = Some c /\ containsIgnoringCase c query).

(** The test [searchPosts] applies to a post. *)
Definition searchTest (query : jsstring) (post : Post) : bool :=
  includes (toLowerCase (title post)) (toLowerCase query)
  || includes (toLowerCase (extractTextFromHTML (contents post))) (toLowerCase query)
  || existsb (fun tag => includes (toLowerCase tag) (toLowerCase query)) (tagArray post)
  || match category post with
     | Some c => truthy c && includes (toLowerCase c) (toLowerCase query)
     | None => false
     end.

End QueryVocabulary.

(** The calls of [loadAllPosts] that follow a first one, each against
    the network of its moment. *)
Fixpoint loadAgain `{Browser} (nets : list Network) (this : PostManager)
  : list (Result PostManager (list Post)) :=
  match nets with
  | [] => []
  | net :: rest =>
      let r := PostManager.loadAllPosts net this in
      r :: loadAgain rest (final r)
  end.

(** What [navigate('home')] leaves in the trace. *)
Definition homeTrace : list Event :=
  [AssignHash (js "#home"); UpdateActiveNavigation (js "home"); CloseSidebar].

(** The routes of the specification's fragment scheme. *)
Definition fixedRoutes : list jsstring :=
  [js "home"; js "posts"; js "post"; js "categories"; js "tags"; js "search";
   js "about"].

(** A code unit of a URL-safe slug: a letter, a digit, [-], [_] or [.]. *)
Definition urlSafe (c : N) : bool :=
  URI.isAlphaNum c || (c =? 45)%N || (c =? 95)%N || (c =? 46)%N.

(** A code unit of the output of [encodeURIComponent]: an unreserved
    character or part of a percent escape. *)
Definition escaped (c : N) : bool := URI.isUnreserved c || (c =? 37)%N.

(** A string of 16-bit code units. *)
Definition sixteenBit (s : jsstring) : Prop := Forall (fun c => (c < 65536)%N) s.

(** A printable ASCII code unit that a fragment holds as it is. *)
Definition plainInFragment (c : N) : bool :=
  (0x20 <? c)%N && (c <=? 0x7E)%N
  && negb ((c =? 0x22)%N || (c =? 0x3C)%N || (c =? 0x3E)%N || (c =? 0x60)%N).

(** A string of whole code points: 16-bit code units, no lone surrogate. *)
Definition wellFormed (s : jsstring) : bool :=
  forallb (fun c => (c <? 65536)%N) s
  && forallb (fun cp => match cp with Some _ => true | None => false end)
             (URI.codePoints s).

(** A code unit of a serialized name or value of a query: a form-safe
    one, [+], or part of a percent escape. *)
Definition formUnit (c : N) : bool := URI.isFormSafe c || (c =? 43)%N || (c =? 37)%N.

(** ** A browser and a network for the examples *)

Module Example.

(** The text of markup that has no character references: what stands
    outside the tags. *)
Fixpoint textOutsideTags (inTag : bool) (html : jsstring) : jsstring :=
  match html with
  | [] => []
  | c :: rest =>
      if (c =? 60)%N then textOutsideTags true rest
      else if (c =? 62)%N then textOutsideTags false rest
      else if inTag then textOutsideTags inTag rest
      else c :: textOutsideTags inTag rest
  end.

(** Lower case of the letters A to Z. *)
Definition lowerASCII (s : jsstring) : jsstring :=
  map (fun c => if (65 <=? c)%N && (c <=? 90)%N then (c + 32)%N else c) s.

Definition digit (c : N) : option Z :=
  if (48 <=? c)%N && (c <=? 57)%N then Some (Z.of_N c - 48) else None.

Fixpoint number (acc : Z) (s : jsstring) : option Z :=
  match s with
  | [] => Some acc
  | c :: rest => match digit c with
                 | Some d => number (10 * acc + d) rest
                 | None => None
                 end
  end.

(** Days from 1970-01-01 to the day [d] of month [m] of year [y]. *)
Definition daysFromCivil (y m d : Z) : Z :=
  let y := if m <=? 2 then y - 1 else y in
  let era := y / 400 in
  let yoe := y - era * 400 in
  let doy := (153 * (if 2 <? m then m - 3 else m + 9) + 2) / 5 + d - 1 in
  let doe := yoe * 365 + yoe / 4 - yoe / 100 + doy in
  era * 146097 + doe - 719468.

(** The time value of a date written [YYYY-MM-DD]: midnight UTC. *)
Definition isoTime (s : jsstring) : option Z :=
  match split 45 s with
  | [ys; ms; ds] =>
      match number 0 ys, number 0 ms, number 0 ds with
      | Some y, Some m, Some d =>
          if (length ys =? 4)%nat && (length ms =? 2)%nat && (length ds =? 2)%nat
             && (1 <=? m) && (m <=? 12) && (1 <=? d) && (d <=? 31)
          then Some (daysFromCivil y m d * 86400000)
          else None
      | _, _, _ => None
      end
  | _ => None
  end.

(** The example browser prints a date as its time value. *)
Definition printTime (t : option Z) : jsstring :=
  match t with
  | Some ms =>
      (if ms <? 0 then js "-" else [])
      ++ js (NilZero.string_of_uint (N.to_uint (Z.abs_N ms)))
  | None => js "Invalid Date"
  end.

Definition browser : Browser :=
  {| div_textContent := textOutsideTags false;
     div_innerText := textOutsideTags false;
     toLowerCase := lowerASCII;
     toLowerCase_empty := eq_refl;
     Date_time := isoTime;
     toLocaleDateString := printTime |}.

(** A server of static files: a file is served with an ok status, what
    is not there with a 404 page. *)
Definition serve (files : list (jsstring * Json)) : Network :=
  fun url =>
    match List.find (fun file => bool_decide (fst file = url)) files with
    | Some file => Some (mkResponse true (Some (snd file)))
    | None => Some (mkResponse false None)
    end.

(** No network. *)
Definition offline : Network := fun _ => None.

Definition indexDocument (slugs : list jsstring) : Document :=
  mkDocument (Some slugs) None None None None None None TagsAbsent None None.

Definition indexOf (slugs : list jsstring) : Json := JObject (indexDocument slugs).

Definition postOf (slug title date category tags : string) : Json :=
  JObject (mkDocument None (Some (js slug)) (Some (js title)) (Some (js "Niaz"))
             (Some (js date)) (Some (js "<p>Hello</p>")) (Some (js category))
             (TagsString (js tags)) None None).

Definition fileOf (slug : string) (j : Json) : jsstring * Json :=
  (PostManager.postUrl (js slug), j).

(** The index lists [a], [b] and [c]; there is no file for [b]. *)
Definition site : Network :=
  serve [ (PostManager.indexUrl, indexOf [js "a"; js "b"; js "c"]);
          fileOf "a" (postOf "a" "First steps" "2024-01-15" "news" "intro, JavaScript");
          fileOf "c" (postOf "c" "Later thoughts" "2024-06-01" "news" "css") ].

(** A site without index, with one of the common slugs. *)
Definition siteWithoutIndex : Network :=
  serve [ fileOf "welcome-to-my-blog"
            (postOf "welcome-to-my-blog" "Welcome" "2024-01-01" "news" "intro") ].

(** Five posts, dated in no particular order. *)
Definition siteOfFive : Network :=
  serve [ (PostManager.indexUrl,
           indexOf [js "p1"; js "p2"; js "p3"; js "p4"; js "p5"]);
          fileOf "p1" (postOf "p1" "One" "2024-03-01" "news" "");
          fileOf "p2" (postOf "p2" "Two" "2023-12-25" "news" "");
          fileOf "p3" (postOf "p3" "Three" "2024-07-04" "notes" "");
          fileOf "p4" (postOf "p4" "Four" "2024-01-15" "notes" "");
          fileOf "p5" (postOf "p5" "Five" "2024-05-20" "news" "") ].

(** The manager once [site] is loaded. *)
Definition loaded : PostManager :=
  final (@PostManager.loadAllPosts browser site newPostManager).

(** Three posts, the second with a date that is no date. *)
Definition siteWithUndatedPost : Network :=
  serve [ (PostManager.indexUrl, indexOf [js "a"; js "b"; js "c"]);
          fileOf "a" (postOf "a" "First steps" "2024-01-01" "news" "");
          fileOf "b" (postOf "b" "Sooner or later" "soon" "news" "");
          fileOf "c" (postOf "c" "Later thoughts" "2024-06-01" "news" "") ].

(** The manager once [siteWithUndatedPost] is loaded. *)
Definition loadedUndated : PostManager :=
  final (@PostManager.loadAllPosts browser siteWithUndatedPost newPostManager).

End Example.


(** * Properties *)

(** ** Running a computation *)

Section Run.
Context {S : Type}.

Lemma completion_ret {A} (a : A) (s : S) : completion (ret a s) = Normal a.
Proof. reflexivity. Qed.
Lemma final_ret {A} (a : A) (s : S) : final (ret a s) = s.
Proof. reflexivity. Qed.
Lemma trace_ret {A} (a : A) (s : S) : trace (ret a s) = [].
Proof. reflexivity. Qed.

Lemma completion_throw {A} (e : JsError) (s : S) : completion (@throw S A e s) = Throw e.
Proof. reflexivity. Qed.
Lemma final_throw {A} (e : JsError) (s : S) : final (@throw S A e s) = s.
Proof. reflexivity. Qed.
Lemma trace_throw {A} (e : JsError) (s : S) : trace (@throw S A e s) = [].
Proof. reflexivity. Qed.

Lemma completion_emit (e : Event) (s : S) : completion (emit e s) = Normal tt.
Proof. reflexivity. Qed.
Lemma final_emit (e : Event) (s : S) : final (emit e s) = s.
Proof. reflexivity. Qed.
Lemma trace_emit (e : Event) (s : S) : trace (emit e s) = [e].
Proof. reflexivity. Qed.

Lemma completion_get (s : S) : completion (get s) = Normal s.
Proof. reflexivity. Qed.
Lemma final_get (s : S) : final (get s) = s.
Proof. reflexivity. Qed.
Lemma trace_get (s : S) : trace (get s) = [].
Proof. reflexivity. Qed.

Lemma completion_modify (f : S -> S) (s : S) : completion (modify f s) = Normal tt.
Proof. reflexivity. Qed.
Lemma final_modify (f : S -> S) (s : S) : final (modify f s) = f s.
Proof. reflexivity. Qed.
Lemma trace_modify (f : S -> S) (s : S) : trace (modify f s) = [].
Proof. reflexivity. Qed.

Lemma completion_bind {A B} (m : M S A) (k : A -> M S B) (s : S) :
  completion (bind m k s) =
  match completion (m s) with
  | Normal a => completion (k a (final (m s)))
  | Throw e => Throw e
  end.
Proof. unfold bind. now destruct (completion (m s)). Qed.

Lemma final_bind {A B} (m : M S A) (k : A -> M S B) (s : S) :
  final (bind m k s) =
  match completion (m s) with
  | Normal a => final (k a (final (m s)))
  | Throw e => final (m s)
  end.
Proof. unfold bind. now destruct (completion (m s)). Qed.

Lemma trace_bind {A B} (m : M S A) (k : A -> M S B) (s : S) :
  trace (bind m k s) =
  match completion (m s) with
  | Normal a => trace (m s) ++ trace (k a (final (m s)))
  | Throw e => trace (m s)
  end.
Proof. unfold bind. now destruct (completion (m s)). Qed.

Lemma completion_tryCatch {A} (m : M S A) (h : JsError -> M S A) (s : S) :
  completion (tryCatch m h s) =
  match completion (m s) with
  | Normal a => Normal a
  | Throw e => completion (h e (final (m s)))
  end.
Proof. unfold tryCatch. now destruct (completion (m s)) eqn:E; [rewrite E|]. Qed.

Lemma final_tryCatch {A} (m : M S A) (h : JsError -> M S A) (s : S) :
  final (tryCatch m h s) =
  match completion (m s) with
  | Normal a => final (m s)
  | Throw e => final (h e (final (m s)))
  end.
Proof. unfold tryCatch. now destruct (completion (m s)). Qed.

Lemma trace_tryCatch {A} (m : M S A) (h : JsError -> M S A) (s : S) :
  trace (tryCatch m h s) =
  match completion (m s) with
  | Normal a => trace (m s)
  | Throw e => trace (m s) ++ trace (h e (final (m s)))
  end.
Proof. unfold tryCatch. now destruct (completion (m s)). Qed.

Lemma completion_respond (net : Network) (url : jsstring) (s : S) :
  completion (respond net url s) =
  match net url with Some response => Normal response | None => Throw FetchRejected end.
Proof. unfold respond. now destruct (net url). Qed.
Lemma final_respond (net : Network) (url : jsstring) (s : S) :
  final (respond net url s) = s.
Proof. unfold respond. now destruct (net url). Qed.
Lemma trace_respond (net : Network) (url : jsstring) (s : S) :
  trace (respond net url s) = [].
Proof. unfold respond. now destruct (net url). Qed.

Lemma completion_fetch (net : Network) (url : jsstring) (s : S) :
  completion (fetch net url s) =
  match net url with Some response => Normal response | None => Throw FetchRejected end.
Proof. unfold fetch, request, bind, emit. simpl. apply completion_respond. Qed.
Lemma final_fetch (net : Network) (url : jsstring) (s : S) : final (fetch net url s) = s.
Proof. unfold fetch, request, bind, emit. simpl. apply final_respond. Qed.
Lemma trace_fetch (net : Network) (url : jsstring) (s : S) :
  trace (fetch net url s) = [Fetch url].
Proof. unfold fetch, request, bind, emit. simpl. now rewrite trace_respond. Qed.

Lemma completion_json (response : Response) (s : S) :
  completion (json response s) =
  match body response with Some j => Normal j | None => Throw JsonSyntaxError end.
Proof. unfold json. now destruct (body response). Qed.
Lemma final_json (response : Response) (s : S) : final (json response s) = s.
Proof. unfold json. now destruct (body response). Qed.
Lemma trace_json (response : Response) (s : S) : trace (json response s) = [].
Proof. unfold json. now destruct (body response). Qed.

(** A result is its three components. *)
Lemma result_eq {A} (r : Result S A) t s c :
  trace r = t -> final r = s -> completion r = c -> r = mkResult t s c.
Proof. destruct r. simpl. now intros -> -> ->. Qed.

End Run.

Create Rewrite HintDb run.
#[export] Hint Rewrite
  @completion_ret @final_ret @trace_ret
  @completion_throw @final_throw @trace_throw
  @completion_emit @final_emit @trace_emit
  @completion_get @final_get @trace_get
  @completion_modify @final_modify @trace_modify
  @completion_bind @final_bind @trace_bind
  @completion_tryCatch @final_tryCatch @trace_tryCatch
  @completion_respond @final_respond @trace_respond
  @completion_fetch @final_fetch @trace_fetch
  @completion_json @final_json @trace_json : run.

(** One computation step after the other, as far as the outcome of each
    is known. *)
Ltac run :=
  repeat (progress (autorewrite with run;
                    cbn [ok body negb default from_option id completion final trace])).

(** ** Sorting *)

Section Sorting.
Context {A : Type} (comparefn : A -> A -> option Z).

Lemma sortInsert_Permutation (x : A) (l : list A) :
  Permutation (sortInsert comparefn x l) (x :: l).
Proof.
  induction l as [|y l IH]; simpl; [reflexivity|].
  destruct (0 <? sortCompare comparefn x y); [|reflexivity].
  rewrite IH. apply perm_swap.
Qed.

Lemma sort_Permutation (l : list A) : Permutation (sort comparefn l) l.
Proof.
  induction l as [|x l IH]; simpl; [reflexivity|].
  rewrite sortInsert_Permutation. now apply perm_skip.
Qed.

(** Sortedness, for a transitive order that the comparator decides on
    the elements at hand. *)
Context (R : A -> A -> Prop) (P : A -> Prop).
Hypothesis R_trans : forall a b c, R a b -> R b c -> R a c.
Hypothesis after : forall x y, P x -> P y -> 0 < sortCompare comparefn x y -> R y x.
Hypothesis before : forall x y, P x -> P y -> sortCompare comparefn x y <= 0 -> R x y.

Lemma sortInsert_StronglySorted (x : A) (l : list A) :
  P x -> Forall P l -> StronglySorted R l ->
  StronglySorted R (sortInsert comparefn x l).
Proof.
  intros Px Pl Hs. induction Hs as [|y l Hs IH Hy]; simpl.
  - repeat constructor.
  - apply Forall_cons_1 in Pl as [Py Pl].
    destruct (Z.ltb_spec 0 (sortCompare comparefn x y)) as [Hlt|Hle].
    + constructor; [now apply IH|].
      eapply Permutation_Forall; [symmetry; apply sortInsert_Permutation|].
      constructor; [now apply after|assumption].
    + constructor; [now constructor|].
      constructor; [now apply before|].
      eapply List.Forall_impl; [|exact Hy]. intros z Hz.
      eapply R_trans; [apply before|]; eassumption.
Qed.

Lemma sort_StronglySorted (l : list A) :
  Forall P l -> StronglySorted R (sort comparefn l).
Proof.
  induction l as [|x l IH]; simpl; intros Pl; [constructor|].
  apply Forall_cons_1 in Pl as [Px Pl].
  apply sortInsert_StronglySorted; [assumption| |now apply IH].
  eapply Permutation_Forall; [symmetry; apply sort_Permutation|assumption].
Qed.

End Sorting.

Lemma slice0_nat {A} (n : nat) (l : list A) : slice0 (Z.of_nat n) l = take n l.
Proof.
  unfold slice0. destruct (Z.ltb_spec (Z.of_nat n) 0) as [?|_]; [lia|].
  destruct (Nat.le_gt_cases n (length l)).
  - f_equal. lia.
  - rewrite !take_ge by lia. reflexivity.
Qed.

(** ** The content store: [latest] *)

Section Latest.
Context `{Browser}.

Lemma notOlder_trans (a b c : Post) : notOlder a b -> notOlder b c -> notOlder a c.
Proof.
  intros (ta & tb & Ha & Hb & Hab) (tb' & tc & Hb' & Hc & Hbc).
  exists ta, tc. rewrite Hb in Hb'. injection Hb' as <-. repeat split; [assumption..|lia].
Qed.

Lemma byDate_after (x y : Post) :
  validDate x -> validDate y ->
  0 < sortCompare PostManager.byDateDescending x y -> notOlder y x.
Proof.
  intros [tx Hx] [ty Hy]. unfold sortCompare, PostManager.byDateDescending.
  rewrite Hx, Hy. simpl. intros ?. exists ty, tx. repeat split; [assumption..|lia].
Qed.

Lemma byDate_before (x y : Post) :
  validDate x -> validDate y ->
  sortCompare PostManager.byDateDescending x y <= 0 -> notOlder x y.
Proof.
  intros [tx Hx] [ty Hy]. unfold sortCompare, PostManager.byDateDescending.
  rewrite Hx, Hy. simpl. intros ?. exists tx, ty. repeat split; [assumption..|lia].
Qed.

(** C5, as the code has it. On a collection whose dates are all valid,
    and for [n] that is not negative, [getLatestPosts n] returns the
    first [n] posts of the collection sorted by descending date: of a
    list that holds the posts of the collection, each as often, in
    descending order of date.  No post it leaves out is more recent
    than one it returns. *)
Theorem getLatestPosts_sorted_truncated (this : PostManager) (n : nat) :
  Forall validDate (posts this) ->
  exists sorted,
    completion (PostManager.getLatestPosts (Z.of_nat n) this) = Normal (take n sorted)
    /\ Permutation sorted (posts this)
    /\ descendingByDate sorted
    /\ forall p q, In p (take n sorted) -> In q (drop n sorted) -> notOlder p q.
Proof.
  intros Hvalid. exists (sort PostManager.byDateDescending (posts this)).
  assert (Hsorted : descendingByDate (sort PostManager.byDateDescending (posts this))).
  { exact (sort_StronglySorted _ notOlder validDate notOlder_trans
             byDate_after byDate_before _ Hvalid). }
  split; [|split; [|split]].
  - unfold PostManager.getLatestPosts, bind, modify, get, ret. simpl. now rewrite slice0_nat.
  - apply sort_Permutation.
  - exact Hsorted.
  - intros p q Hp Hq. unfold descendingByDate in Hsorted.
    rewrite <- (take_drop n (sort PostManager.byDateDescending (posts this))) in Hsorted.
    revert Hsorted Hp Hq.
    generalize (take n (sort PostManager.byDateDescending (posts this))) as front.
    generalize (drop n (sort PostManager.byDateDescending (posts this))) as back.
    intros back front. induction front as [|a front IH]; simpl; [tauto|].
    intros Hs [->|Hp] Hq; apply StronglySorted_inv in Hs as [Hs Ha].
    + rewrite List.Forall_forall in Ha. apply Ha, in_or_app. now right.
    + now apply IH.
Qed.

End Latest.

(** ** The content store: loading *)

Section Loading.
Context `{Browser} (net : Network).

Lemma truthyProp_nonEmpty (o : option jsstring) : truthyProp o = true <-> nonEmpty o.
Proof.
  unfold nonEmpty. destruct o as [[|c s]|]; simpl; split.
  - discriminate.
  - intros (s & [= <-] & Hs). congruence.
  - intros _. eexists. split; [reflexivity|discriminate].
  - reflexivity.
  - discriminate.
  - intros (s & [=] & _).
Qed.

Lemma validatePost_carriesRequired (d : Document) :
  PostManager.everyRequired d = true <-> carriesRequired d.
Proof.
  unfold carriesRequired. rewrite <- !truthyProp_nonEmpty.
  unfold PostManager.everyRequired, PostManager.requiredFields. cbn [forallb]. rewrite !andb_true_iff.
  change (PostManager.property d (js "slug")) with (doc_slug d).
  change (PostManager.property d (js "title")) with (doc_title d).
  change (PostManager.property d (js "author")) with (doc_author d).
  change (PostManager.property d (js "date")) with (doc_date d).
  change (PostManager.property d (js "contents")) with (doc_contents d).
  tauto.
Qed.

(** Once its request is out, [loadPost] never throws and leaves the
    manager as it was; it yields the processed post of a surviving
    document and [null] otherwise. *)
Lemma loadPostAwaited_outcome (slug : jsstring) (this : PostManager) :
  final (PostManager.loadPostAwaited net slug this) = this
  /\ ((exists d, fetched net slug = Some d /\ carriesRequired d
                 /\ completion (PostManager.loadPostAwaited net slug this)
                    = Normal (Some (PostManager.processPost d)))
      \/ ((forall d, fetched net slug = Some d -> ~ carriesRequired d)
          /\ completion (PostManager.loadPostAwaited net slug this) = Normal None)).
Proof.
  unfold PostManager.loadPostAwaited, PostManager.readPost,
    PostManager.reportPost, fetched.
  run.
  destruct (net (PostManager.postUrl slug)) as [[[|] [[|d]|]]|]; cbn [ok body negb]; run;
    try (split; [reflexivity|right; split; [intros d' [=]|reflexivity]]).
  unfold PostManager.validatePost. run.
  destruct (PostManager.everyRequired d) eqn:Hv; cbn [negb]; run.
  - split; [reflexivity|left]. exists d.
    apply validatePost_carriesRequired in Hv. auto.
  - split; [reflexivity|right]. split; [|reflexivity].
    intros d' [= <-] Hc. apply validatePost_carriesRequired in Hc. congruence.
Qed.

(** [loadPost] is its request followed by the rest. *)
Lemma loadPost_request (slug : jsstring) (this : PostManager) :
  PostManager.loadPost net slug this
  = (request (PostManager.postUrl slug) ;; PostManager.loadPostAwaited net slug) this.
Proof.
  unfold PostManager.loadPost, PostManager.loadPostAwaited, fetch, request,
    respond, tryCatch, bind, emit.
  cbn [completion final trace].
  destruct (net (PostManager.postUrl slug)) as [response|];
    cbn [ret throw completion final trace];
    [destruct (completion (PostManager.readPost slug response this))|];
    reflexivity.
Qed.

Lemma requestEach_outcome (slugs : list jsstring) (this : PostManager) :
  final (PostManager.requestEach slugs this) = this
  /\ completion (PostManager.requestEach slugs this) = Normal tt.
Proof.
  induction slugs as [|slug slugs [IHf IHc]];
    cbn [PostManager.requestEach]; unfold request; run; auto.
Qed.

Lemma awaitEach_outcome (slugs : list jsstring) (this : PostManager) :
  final (PostManager.awaitEach net slugs this) = this
  /\ exists docs, Survivors net slugs docs
       /\ exists loaded, completion (PostManager.awaitEach net slugs this) = Normal loaded
            /\ PostManager.nonNull loaded = map PostManager.processPost docs.
Proof.
  induction slugs as [|slug slugs IH]; cbn [PostManager.awaitEach]; run.
  - split; [reflexivity|]. exists []. split; [constructor|]. now exists [].
  - destruct (loadPostAwaited_outcome slug this) as [Hf Hc]. rewrite Hf.
    destruct IH as [IHf (docs & Hs & loaded & Hl & Hn)].
    destruct Hc as [(d & Hd & Hreq & ->)|[Hnone ->]]; run;
      rewrite Hl, ?IHf; run; (split; [reflexivity|]).
    + exists (d :: docs). split; [now constructor|].
      eexists. split; [reflexivity|].
      change (PostManager.processPost d :: PostManager.nonNull loaded
              = map PostManager.processPost (d :: docs)).
      now rewrite Hn.
    + exists docs. split; [now constructor|].
      eexists. split; [reflexivity|]. exact Hn.
Qed.

Lemma loadEach_outcome (slugs : list jsstring) (this : PostManager) :
  final (PostManager.loadEach net slugs this) = this
  /\ exists docs, Survivors net slugs docs
       /\ exists loaded, completion (PostManager.loadEach net slugs this) = Normal loaded
            /\ PostManager.nonNull loaded = map PostManager.processPost docs.
Proof.
  unfold PostManager.loadEach. run.
  destruct (requestEach_outcome slugs this) as [-> ->].
  apply awaitEach_outcome.
Qed.

Lemma extractCategoriesAndTags_posts (this : PostManager) :
  posts (PostManager.extractCategoriesAndTags this) = posts this.
Proof.
  unfold PostManager.extractCategoriesAndTags.
  now destruct (foldl _ _ (posts this)).
Qed.

Lemma discoverLoop_outcome (slugs existingSlugs : list jsstring) (this : PostManager) :
  final (PostManager.discoverLoop net slugs existingSlugs this) = this
  /\ completion (PostManager.discoverLoop net slugs existingSlugs this)
     = Normal (existingSlugs ++ List.filter (answersOk net) slugs).
Proof.
  revert existingSlugs. induction slugs as [|slug slugs IH]; intros existingSlugs;
    cbn [PostManager.discoverLoop List.filter]; run.
  - now rewrite app_nil_r.
  - assert (Hok : answersOk net slug =
                  match net (PostManager.postUrl slug) with
                  | Some response => ok response
                  | None => false
                  end) by reflexivity.
    rewrite Hok. clear Hok.
    destruct (IH (existingSlugs ++ [slug])) as [Ha Hb].
    destruct (IH existingSlugs) as [Hc Hd].
    destruct (net (PostManager.postUrl slug)) as [[[|] b]|]; run;
      rewrite ?Ha, ?Hb, ?Hc, ?Hd, <- ?app_assoc; auto.
Qed.

(** A first [loadAllPosts] either aborts at the index, leaving the
    manager as it was, or stores and returns the surviving posts. *)
Lemma loadAllPosts_first (this : PostManager) :
  postsLoaded this = false ->
  (indexUnavailable net
   /\ exists e, completion (PostManager.loadAllPosts net this) = Throw e
        /\ final (PostManager.loadAllPosts net this) = this
        /\ trace (PostManager.loadAllPosts net this) = abortTrace e)
  \/ (exists slugs docs,
        slugsToLoad net slugs
        /\ Survivors net slugs docs
        /\ completion (PostManager.loadAllPosts net this) = Normal (map PostManager.processPost docs)
        /\ posts (final (PostManager.loadAllPosts net this)) = map PostManager.processPost docs
        /\ postsLoaded (final (PostManager.loadAllPosts net this)) = true).
Proof.
  intros Hfresh. unfold PostManager.loadAllPosts, indexUnavailable, slugsToLoad, indexNotOk.
  run. rewrite Hfresh. run.
  destruct (net PostManager.indexUrl) as [[[|] b]|]; run.
  - destruct b as [[|index]|]; run.
    + left. split; [auto|]. exists TypeError. auto.
    + right.
      destruct (loadEach_outcome (default [] (doc_posts index)) this)
        as [Hf (docs & Hs & loaded & Hl & Hn)].
      exists (default [] (doc_posts index)), docs.
      split; [left; eauto|]. split; [exact Hs|].
      rewrite Hl, ?Hf. run. rewrite ?Hl, ?Hf. run.
      cbn [posts postsLoaded]. rewrite !extractCategoriesAndTags_posts.
      cbn [posts]. rewrite Hn. auto.
    + left. split; [auto|]. exists JsonSyntaxError. auto.
  - right. unfold PostManager.discoverPosts.
    destruct (discoverLoop_outcome PostManager.commonSlugs [] this) as [Hdf Hdc].
    rewrite Hdc, ?Hdf. run. rewrite ?Hdc, ?Hdf. run.
    destruct (loadEach_outcome (discovered net) this)
      as [Hf (docs & Hs & loaded & Hl & Hn)].
    exists (discovered net), docs.
    split; [right; split; [eexists; reflexivity|reflexivity]|]. split; [exact Hs|].
    change ([] ++ List.filter (answersOk net) PostManager.commonSlugs) with (discovered net).
    rewrite Hl, ?Hf. run. rewrite ?Hl, ?Hf. run.
    cbn [posts postsLoaded]. rewrite !extractCategoriesAndTags_posts.
    cbn [posts]. rewrite Hn. auto.
  - left. split; [auto|]. exists FetchRejected. auto.
Qed.

(** C1. When the index is served and lists [slugs], a first
    [loadAllPosts] is fulfilled, no exception escapes it, and the
    collection it returns and stores holds the processed posts of
    exactly the surviving documents, in the order of the index. *)
Theorem loadAllPosts_partial_failure_isolation
  (this : PostManager) (index : Document) (slugs : list jsstring) :
  postsLoaded this = false ->
  net PostManager.indexUrl = Some (mkResponse true (Some (JObject index))) ->
  doc_posts index = Some slugs ->
  exists docs,
    Survivors net slugs docs
    /\ completion (PostManager.loadAllPosts net this) = Normal (map PostManager.processPost docs)
    /\ posts (final (PostManager.loadAllPosts net this)) = map PostManager.processPost docs
    /\ postsLoaded (final (PostManager.loadAllPosts net this)) = true.
Proof.
  intros Hfresh Hindex Hposts.
  destruct (loadAllPosts_first this Hfresh)
    as [[Hun _]|(slugs' & docs & Hsrc & Hrest)].
  - exfalso. unfold indexUnavailable in Hun. rewrite Hindex in Hun.
    destruct Hun as [?|[?|?]]; discriminate.
  - exists docs. destruct Hsrc as [(index' & Hi & ->)|[[b Hb] _]].
    + rewrite Hindex in Hi. injection Hi as <-.
      rewrite Hposts in Hrest. exact Hrest.
    + rewrite Hindex in Hb. discriminate.
Qed.

(** C2, as the code has it. On a first load: when the index request
    fails, or is answered with an ok status and a body that is not JSON
    or is [null], [loadAllPosts] is rejected with the error, the manager
    is left as it was and no post is requested; when the index request
    is answered with a status that is not ok, [loadAllPosts] is fulfilled
    with the survivors among the common slugs that are answered ok. *)
Theorem loadAllPosts_index_failure (this : PostManager) :
  postsLoaded this = false ->
  (indexUnavailable net ->
   exists e, completion (PostManager.loadAllPosts net this) = Throw e
     /\ final (PostManager.loadAllPosts net this) = this
     /\ trace (PostManager.loadAllPosts net this) = abortTrace e)
  /\ (indexNotOk net ->
      exists docs,
        Survivors net (discovered net) docs
        /\ completion (PostManager.loadAllPosts net this) = Normal (map PostManager.processPost docs)).
Proof.
  intros Hfresh.
  destruct (loadAllPosts_first this Hfresh)
    as [[Hun Habort]|(slugs & docs & Hsrc & Hs & Hc & _)]; split.
  - intros _. exact Habort.
  - intros [b Hb]. exfalso. unfold indexUnavailable in Hun. rewrite Hb in Hun.
    destruct Hun as [?|[?|?]]; discriminate.
  - intros Hun. exfalso. unfold indexUnavailable in Hun.
    destruct Hsrc as [(index & Hi & _)|[[b Hb] _]].
    + rewrite Hi in Hun. destruct Hun as [?|[?|?]]; discriminate.
    + rewrite Hb in Hun. destruct Hun as [?|[?|?]]; discriminate.
  - intros [b Hb]. exists docs.
    destruct Hsrc as [(index & Hi & _)|[_ ->]]; [|auto].
    rewrite Hb in Hi. discriminate.
Qed.

Lemma loadAllPosts_cached (this : PostManager) :
  postsLoaded this = true ->
  PostManager.loadAllPosts net this = mkResult [] this (Normal (posts this)).
Proof.
  intros Hloaded. apply result_eq; unfold PostManager.loadAllPosts; run;
    rewrite Hloaded; run; reflexivity.
Qed.

(** A load that is fulfilled leaves the manager loaded, holding what it
    returned. *)
Lemma loadAllPosts_fulfilled (this : PostManager) (ps : list Post) :
  completion (PostManager.loadAllPosts net this) = Normal ps ->
  postsLoaded (final (PostManager.loadAllPosts net this)) = true
  /\ posts (final (PostManager.loadAllPosts net this)) = ps.
Proof.
  destruct (postsLoaded this) eqn:Hloaded.
  - rewrite (loadAllPosts_cached this Hloaded). cbn [completion final].
    intros [= <-]. auto.
  - destruct (loadAllPosts_first this Hloaded)
      as [[_ (e & -> & _)]|(slugs & docs & _ & _ & -> & Hp & Hl)].
    + discriminate.
    + intros [= <-]. auto.
Qed.

End Loading.

Section Reloading.
Context `{Browser}.

(** C4. After a [loadAllPosts] that was fulfilled with a collection,
    every later call, whatever the network then is, is fulfilled with
    that same collection, makes no request (its trace is empty) and
    leaves the manager as it is. *)
Theorem loadAllPosts_idempotent (net : Network) (this : PostManager)
  (ps : list Post) (nets : list Network) :
  completion (PostManager.loadAllPosts net this) = Normal ps ->
  Forall (fun r => r = mkResult [] (final (PostManager.loadAllPosts net this)) (Normal ps))
         (loadAgain nets (final (PostManager.loadAllPosts net this))).
Proof.
  intros Hfirst. apply loadAllPosts_fulfilled in Hfirst as [Hloaded Hposts].
  revert Hloaded Hposts. generalize (final (PostManager.loadAllPosts net this)) as this'.
  intros this' Hloaded <-.
  induction nets as [|net' nets IH]; cbn [loadAgain]; [constructor|].
  rewrite (loadAllPosts_cached net' this' Hloaded). cbn [final].
  constructor; [reflexivity|exact IH].
Qed.

End Reloading.

(** ** The query engine *)

Lemma startsWith_prefix (s t : jsstring) :
  startsWith s t = true <-> exists after, s = t ++ after.
Proof.
  revert s. induction t as [|b t IH]; intros s; cbn [startsWith].
  - split; [intros _; now exists s|reflexivity].
  - destruct s as [|a s].
    + split; [discriminate|intros [after [=]]].
    + rewrite andb_true_iff, N.eqb_eq, IH. split.
      * intros [-> [after ->]]. now exists after.
      * intros [after [= -> ->]]. split; [reflexivity|now exists after].
Qed.

Lemma includes_infix (s t : jsstring) :
  includes s t = true <-> exists before after, s = before ++ t ++ after.
Proof.
  induction s as [|a s IH]; cbn [includes]; rewrite orb_true_iff, startsWith_prefix.
  - split.
    + intros [[after Ha]|[=]]. now exists [], after.
    + intros ([|? before] & after & Hs); [left; now exists after|discriminate].
  - rewrite IH. split.
    + intros [[after ->]|(before & after & ->)].
      * now exists [], after.
      * now exists (a :: before), after.
    + intros ([|a' before] & after & Hs).
      * left. now exists after.
      * injection Hs as -> ->. right. now exists before, after.
Qed.

Lemma includes_empty (s : jsstring) : includes s [] = true.
Proof. apply includes_infix. now exists [], s. Qed.

Lemma filter_all {A} (keep : A -> bool) (l : list A) :
  (forall x, keep x = true) -> List.filter keep l = l.
Proof.
  intros Hall. induction l as [|x l IH]; cbn [List.filter]; [reflexivity|].
  now rewrite Hall, IH.
Qed.

Section Query.
Context `{Browser}.

Lemma searchPosts_filter (this : PostManager) (query : jsstring) :
  PostManager.searchPosts this query = List.filter (searchTest query) (posts this).
Proof. reflexivity. Qed.

Lemma searchTest_matchesQuery (query : jsstring) (post : Post) :
  searchTest query post = true <-> matchesQuery query post.
Proof.
  unfold searchTest, matchesQuery, containsIgnoringCase.
  rewrite !orb_true_iff, !includes_infix, existsb_exists.
  split.
  - intros [[[Ht|Hc]|(tag & Hin & Htag)]|Hcat]; [tauto|tauto| |].
    + right; right; left. exists tag. now rewrite <- includes_infix.
    + right; right; right. destruct (category post) as [c|]; [|discriminate].
      apply andb_true_iff in Hcat as [_ Hcat]. exists c.
      now rewrite <- includes_infix.
  - intros [Ht|[Hc|[(tag & Hin & Htag)|(c & Hcat & Hc)]]]; [tauto|tauto| |].
    + left; right. exists tag. now rewrite includes_infix.
    + rewrite Hcat. destruct c as [|a c].
      * left; left; left. rewrite toLowerCase_empty in Hc.
        destruct Hc as (before & after & Hc).
        symmetry in Hc. apply app_eq_nil in Hc as [_ Hc].
        apply app_eq_nil in Hc as [-> _]. now exists [], (toLowerCase (title post)).
      * right. cbn [truthy andb]. now rewrite includes_infix.
Qed.

(** C6. [searchPosts query] is the collection filtered, in its order, by
    a test that a post passes exactly when it matches the query: when
    its title, its plain-text content, one of its tags or its category
    contains the query, letter case set aside.  Nothing is asked of the
    length of the query. *)
Theorem searchPosts_matches_in_collection_order (this : PostManager)
  (query : jsstring) :
  exists keep : Post -> bool,
    (forall post, keep post = true <-> matchesQuery query post)
    /\ PostManager.searchPosts this query = List.filter keep (posts this).
Proof.
  exists (searchTest query). split.
  - apply searchTest_matchesQuery.
  - apply searchPosts_filter.
Qed.

(** C10. [searchPosts] with the empty query returns the whole
    collection. *)
Theorem searchPosts_empty_query (this : PostManager) :
  PostManager.searchPosts this [] = posts this.
Proof.
  rewrite searchPosts_filter. apply filter_all. intros post.
  unfold searchTest. rewrite toLowerCase_empty, includes_empty. reflexivity.
Qed.

End Query.

(** The scenario of the specification, on the loaded example site: only
    the post tagged [JavaScript] is found, whatever the case of the
    query. *)
Lemma searchPosts_JavaScript :
  map slug (@PostManager.searchPosts Example.browser Example.loaded (js "JAVAscript"))
  = [js "a"].
Proof. vm_compute. reflexivity. Qed.

(** ** The search box *)

Section SearchBox.
Context `{Browser} (net : Network).

Lemma navigate_home (page : Page) :
  Router.navigate (js "home") ∅ page
  = mkResult homeTrace
      (mkPage (postManager page) (searchManager page)
              (mkRouter (Some (js "home")) ∅) (js "#home"))
      (Normal tt).
Proof.
  unfold Router.navigate, Router.addQuery, setRouter, assignHash.
  rewrite !lookup_empty. cbn [truthyProp].
  apply result_eq; run; reflexivity.
Qed.

(** C7, as the code has it. For a query shorter than two code units
    once trimmed, [handleSearch] loads nothing, requests nothing and
    computes no results.  With one code unit left it does nothing at
    all.  With none left it navigates to the home route. *)
Theorem handleSearch_short_query (query : jsstring) (page : Page) :
  (length (trim query) < 2)%nat ->
  let r := SearchManager.handleSearch net query page in
  completion r = Normal tt
  /\ noFetch (trace r)
  /\ postManager (final r) = postManager page
  /\ searchManager (final r) = searchManager page
  /\ (length (trim query) = 1%nat -> r = mkResult [] page (Normal tt))
  /\ (length (trim query) = 0%nat ->
      trace r = homeTrace
      /\ router (final r) = mkRouter (Some (js "home")) ∅
      /\ location_hash (final r) = js "#home").
Proof.
  intros Hshort. unfold SearchManager.handleSearch.
  destruct (length (trim query)) as [|[|n]] eqn:Hlen; [| |lia];
    cbn [Nat.eqb Nat.ltb Nat.leb].
  - rewrite navigate_home. cbn [completion trace final postManager searchManager
                                 router location_hash].
    repeat split; try discriminate.
    intros url Hin. unfold homeTrace in Hin. cbn [In] in Hin.
    destruct Hin as [?|[?|[?|[]]]]; discriminate.
  - cbn [ret completion trace final]. repeat split; try discriminate; try lia.
    intros url [].
Qed.

End SearchBox.

(** ** Reading the collection *)

Section Reading.
Context `{Browser}.

(** [getLatestPosts] keeps the posts of the collection; it may change
    their order. *)
Lemma getLatestPosts_keeps_the_posts (limit : Z) (this : PostManager) :
  Permutation (posts (final (PostManager.getLatestPosts limit this))) (posts this).
Proof.
  unfold PostManager.getLatestPosts. run. cbn [posts]. apply sort_Permutation.
Qed.

(** After [getLatestPosts] a loaded manager is still loaded: a later
    [loadAllPosts] requests nothing and returns the stored collection,
    which holds the posts of the first load in the order [sort] left. *)
Lemma loadAllPosts_after_getLatestPosts (net : Network) (limit : Z)
  (this : PostManager) :
  postsLoaded this = true ->
  let this' := final (PostManager.getLatestPosts limit this) in
  PostManager.loadAllPosts net this' = mkResult [] this' (Normal (posts this'))
  /\ Permutation (posts this') (posts this).
Proof.
  intros Hloaded. split.
  - apply loadAllPosts_cached. unfold PostManager.getLatestPosts. run.
    exact Hloaded.
  - apply getLatestPosts_keeps_the_posts.
Qed.

End Reading.

(** C8, where the code departs from it. On the loaded example site the
    posts of category [news] come in the order of the index, [a] then
    [c]; once [getLatestPosts 1] has been called the stored collection
    is in another order and the same question is answered [c] then [a]. *)
Theorem getLatestPosts_reorders_the_collection :
  let this := Example.loaded in
  let after := final (@PostManager.getLatestPosts Example.browser 1 this) in
  map slug (posts this) = [js "a"; js "c"]
  /\ map slug (PostManager.getPostsByCategory this (js "news")) = [js "a"; js "c"]
  /\ map slug (posts after) = [js "c"; js "a"]
  /\ map slug (PostManager.getPostsByCategory after (js "news")) = [js "c"; js "a"]
  /\ map slug (PostManager.getPostsByTag after (js "css")) = [js "c"].
Proof. vm_compute. repeat split. Qed.

(** ** Photo placeholders *)

(** The scenario of the specification. *)
Lemma replacePhotoPlaceholders_scenario :
  replacePhotoPlaceholders (js "<p>{{photo1}}</p>") [js "x.jpg"]
  = js "<p>" ++ imgTag (js "x.jpg") 0 ++ js "</p>".
Proof. vm_compute. reflexivity. Qed.

(** A replacement text without dollar sign is inserted as it is. *)
Lemma getSubstitution_plain (matched before after replacement : jsstring) :
  forallb (fun c => negb (c =? 36)%N) replacement = true ->
  getSubstitution matched before after replacement = replacement.
Proof.
  induction replacement as [|c rest IH]; cbn [forallb getSubstitution];
    [reflexivity|].
  intros [Hc Hrest]%andb_true_iff. apply negb_true_iff in Hc. rewrite Hc.
  now rewrite (IH Hrest).
Qed.

(** A placeholder beyond the photos is left as it is. *)
Lemma replacePhotoPlaceholders_beyond :
  replacePhotoPlaceholders (js "{{photo2}}") [js "x.jpg"] = js "{{photo2}}".
Proof. vm_compute. reflexivity. Qed.

(** C9, where the code departs from it. A dollar sign in a photo
    reference is read as a replacement pattern: with the photo
    [img/$&.jpg] the placeholder is not replaced by the image element of
    that photo, and the placeholder text itself is still in the result. *)
Theorem replacePhotoPlaceholders_dollar_pattern :
  let result := replacePhotoPlaceholders (js "<p>{{photo1}}</p>") [js "img/$&.jpg"] in
  result = js "<p>" ++ imgTag (js "img/{{photo1}}.jpg") 0 ++ js "</p>"
  /\ result <> js "<p>" ++ imgTag (js "img/$&.jpg") 0 ++ js "</p>"
  /\ includes result (placeholder 0) = true.
Proof. vm_compute. repeat split. discriminate. Qed.

(** The transform is a function of its two arguments: computed twice, it
    gives the same text. *)
Lemma replacePhotoPlaceholders_deterministic (content : jsstring)
  (photos : list jsstring) (first second : jsstring) :
  first = replacePhotoPlaceholders content photos ->
  second = replacePhotoPlaceholders content photos ->
  first = second.
Proof. congruence. Qed.

(** ** The router *)

Lemma split1_without (sep : N) (s : jsstring) :
  forallb (fun c => negb (c =? sep)%N) s = true -> split1 sep s = (s, []).
Proof.
  induction s as [|c s IH]; cbn [forallb split1]; [reflexivity|].
  intros [Hc Hs]%andb_true_iff. rewrite (IH Hs).
  now destruct (c =? sep)%N.
Qed.

Lemma split1_at (sep : N) (a b : jsstring) :
  forallb (fun c => negb (c =? sep)%N) a = true ->
  split1 sep (a ++ sep :: b) = (a, fst (split1 sep b) :: snd (split1 sep b)).
Proof.
  induction a as [|c a IH]; cbn [forallb app split1].
  - intros _. rewrite N.eqb_refl. now destruct (split1 sep b).
  - intros [Hc Ha]%andb_true_iff. rewrite (IH Ha).
    now destruct (c =? sep)%N.
Qed.

Lemma plainInFragment_spec (c : N) :
  plainInFragment c = true ->
  URI.isTabOrNewline c = false
  /\ URI.isHighSurrogate c = false /\ URI.isLowSurrogate c = false
  /\ URI.inFragmentPercentEncodeSet c = false.
Proof.
  unfold plainInFragment, URI.isTabOrNewline, URI.isHighSurrogate,
    URI.isLowSurrogate, URI.inFragmentPercentEncodeSet.
  rewrite !andb_true_iff, negb_true_iff, !orb_false_iff, !andb_false_iff.
  rewrite N.ltb_lt, N.leb_le, !N.eqb_neq, !N.leb_gt, !N.ltb_ge.
  intros [[Hlo Hhi] [[[H22 H3C] H3E] H60]].
  repeat split; try assumption; try lia; left; lia.
Qed.

Lemma codePoints_plain (s : jsstring) :
  forallb plainInFragment s = true ->
  URI.codePoints s = map Some s /\ List.filter (fun c => negb (URI.isTabOrNewline c)) s = s.
Proof.
  induction s as [|c s IH]; cbn [forallb URI.codePoints List.filter map];
    [auto|].
  intros [Hc Hs]%andb_true_iff.
  destruct (plainInFragment_spec c Hc) as (-> & -> & -> & _).
  destruct (IH Hs) as [-> ->]. auto.
Qed.

(** A fragment of plain text is read from the address bar as it was
    assigned. *)
Lemma hashAfterAssign_plain (s : jsstring) :
  s <> [] -> forallb plainInFragment s = true ->
  URI.hashAfterAssign (35%N :: s) = 35%N :: s.
Proof.
  intros Hne Hplain. unfold URI.hashAfterAssign.
  destruct (codePoints_plain s Hplain) as [Hcp ->]. rewrite Hcp.
  match goal with
  | |- context [flat_map ?f (map Some s)] =>
      assert (Hsame : flat_map f (map Some s) = s)
  end.
  { clear Hne Hcp. induction s as [|c s IH]; [reflexivity|].
    cbn [forallb] in Hplain. apply andb_true_iff in Hplain as [Hc Hs].
    cbn [map flat_map default from_option id].
    destruct (plainInFragment_spec c Hc) as (_ & _ & _ & ->).
    cbn [app]. now rewrite (IH Hs). }
  rewrite Hsame. now destruct s.
Qed.

Lemma urlSafe_spec (c : N) :
  urlSafe c = true ->
  plainInFragment c = true /\ (c =? 47)%N = false /\ (c =? 63)%N = false.
Proof.
  unfold urlSafe, URI.isAlphaNum, plainInFragment.
  rewrite !orb_true_iff, !andb_true_iff, negb_true_iff, !orb_false_iff.
  rewrite !N.leb_le, N.ltb_lt, !N.eqb_eq, !N.eqb_neq. lia.
Qed.

Lemma forallb_urlSafe (slug : jsstring) :
  forallb urlSafe slug = true ->
  forallb plainInFragment slug = true
  /\ forallb (fun c => negb (c =? 47)%N) slug = true
  /\ forallb (fun c => negb (c =? 63)%N) slug = true.
Proof.
  induction slug as [|c slug IH]; cbn [forallb]; [auto|].
  intros [Hc Hs]%andb_true_iff.
  destruct (urlSafe_spec c Hc) as (-> & -> & ->).
  destruct (IH Hs) as (-> & -> & ->). auto.
Qed.

(** What [handleRouteChange] reads from [#route/slug]. *)
Lemma resolve_route_slug (route slug : jsstring) :
  In route fixedRoutes -> slug <> [] -> forallb urlSafe slug = true ->
  Router.resolve None (35%N :: route ++ 47%N :: slug)
  = Some (route, {[ js "slug" := slug ]}).
Proof.
  intros Hroute Hne Hsafe.
  destruct (forallb_urlSafe slug Hsafe) as (_ & Hslash & Hquery).
  assert (Hr : forallb (fun c => negb (c =? 47)%N) route = true
               /\ forallb (fun c => negb (c =? 63)%N) route = true
               /\ truthy route = true).
  { unfold fixedRoutes in Hroute. cbn [In] in Hroute.
    repeat (destruct Hroute as [<-|Hroute]; [repeat split|]). destruct Hroute. }
  destruct Hr as (Hrslash & Hrquery & Htruthy).
  unfold Router.resolve. cbn [truthyProp slice1 drop]. rewrite drop_0.
  rewrite (split1_at 47 route slug Hrslash), (split1_without 47 slug Hslash).
  cbn [fst snd]. unfold split.
  rewrite (split1_without 63 (35%N :: route ++ 47%N :: slug)).
  - cbn [lookup list_lookup default from_option id]. rewrite Htruthy.
    reflexivity.
  - cbn [forallb negb N.eqb Pos.eqb andb]. rewrite forallb_app.
    cbn [forallb negb N.eqb Pos.eqb andb]. now rewrite Hrquery, Hquery.
Qed.

(** The round trip of a route of the fixed set with a URL-safe slug. *)
Lemma navigate_resolve_safe_slug (route slug : jsstring) (page : Page) :
  In route fixedRoutes -> slug <> [] -> forallb urlSafe slug = true ->
  let sent := final (Router.navigate route {[ js "slug" := slug ]} page) in
  location_hash sent = js "#" ++ route ++ js "/" ++ slug
  /\ Router.resolve None (location_hash sent) = Some (route, {[ js "slug" := slug ]}).
Proof.
  intros Hroute Hne Hsafe.
  assert (Hhash : location_hash (final (Router.navigate route {[ js "slug" := slug ]} page))
                  = 35%N :: route ++ 47%N :: slug).
  { unfold Router.navigate, Router.addQuery, setRouter, assignHash.
    rewrite lookup_singleton_eq.
    rewrite !lookup_singleton_ne by (intros Heq; vm_compute in Heq; discriminate).
    assert (Htruthy : truthyProp (Some slug) = true)
      by (destruct slug; [congruence|reflexivity]).
    rewrite Htruthy. cbn [truthyProp]. run. cbn [location_hash default from_option id].
    change (js "#" ++ route ++ js "/" ++ slug) with (35%N :: route ++ 47%N :: slug).
    apply hashAfterAssign_plain; [destruct route; discriminate|].
    rewrite forallb_app. cbn [forallb].
    destruct (forallb_urlSafe slug Hsafe) as (-> & _ & _).
    unfold fixedRoutes in Hroute. cbn [In] in Hroute.
    repeat (destruct Hroute as [<-|Hroute]; [reflexivity|]). destruct Hroute. }
  cbv zeta. rewrite Hhash. split; [reflexivity|].
  now apply resolve_route_slug.
Qed.

(** A parameter [query] is not written: any route of the fixed set comes
    back without it. *)
Lemma navigate_drops_query (route value : jsstring) (page : Page) :
  In route fixedRoutes ->
  let sent := final (Router.navigate route {[ js "query" := value ]} page) in
  location_hash sent = js "#" ++ route
  /\ Router.resolve None (location_hash sent) = Some (route, ∅).
Proof.
  intros Hroute.
  assert (Hhash : location_hash (final (Router.navigate route {[ js "query" := value ]} page))
                  = js "#" ++ route).
  { unfold Router.navigate, Router.addQuery, setRouter, assignHash.
    rewrite !lookup_singleton_ne by (intros Heq; vm_compute in Heq; discriminate).
    cbn [truthyProp]. run. cbn [location_hash].
    unfold fixedRoutes in Hroute. cbn [In] in Hroute.
    repeat (destruct Hroute as [<-|Hroute]; [reflexivity|]). destruct Hroute. }
  cbv zeta. rewrite Hhash. split; [reflexivity|].
  unfold fixedRoutes in Hroute. cbn [In] in Hroute.
  repeat (destruct Hroute as [<-|Hroute]; [reflexivity|]). destruct Hroute.
Qed.

(** *** What [encodeURIComponent] writes *)

Ltac euclid := zify; Z.to_euclidean_division_equations; lia.

Lemma hexDigit_escaped (d : N) : (d < 16)%N -> escaped (URI.hexDigit d) = true.
Proof.
  intros Hd. unfold escaped, URI.isUnreserved, URI.isAlphaNum, URI.hexDigit.
  destruct (N.ltb_spec d 10).
  - replace ((48 <=? 48 + d) && (48 + d <=? 57))%N with true; [reflexivity|].
    symmetry. apply andb_true_iff. split; apply N.leb_le; lia.
  - replace ((65 <=? 55 + d) && (55 + d <=? 90))%N with true;
      [now rewrite orb_true_r|].
    symmetry. apply andb_true_iff. split; apply N.leb_le; lia.
Qed.

Lemma percentEncode_escaped (b : N) :
  (b < 256)%N -> forallb escaped (URI.percentEncode b) = true.
Proof.
  intros Hb. unfold URI.percentEncode. cbn [forallb].
  rewrite !hexDigit_escaped by euclid. reflexivity.
Qed.

Lemma utf8_bytes (cp : N) :
  (cp < 0x110000)%N -> Forall (fun b => (b < 256)%N) (URI.utf8 cp).
Proof.
  intros Hcp. unfold URI.utf8.
  destruct (N.ltb_spec cp 0x80); [repeat constructor; lia|].
  destruct (N.ltb_spec cp 0x800); [repeat constructor; euclid|].
  destruct (N.ltb_spec cp 0x10000); repeat constructor; euclid.
Qed.

Lemma flat_map_percentEncode_escaped (bytes : list N) :
  Forall (fun b => (b < 256)%N) bytes ->
  forallb escaped (flat_map URI.percentEncode bytes) = true.
Proof.
  induction 1 as [|b bytes Hb _ IH]; [reflexivity|].
  cbn [flat_map]. rewrite forallb_app, percentEncode_escaped by assumption.
  exact IH.
Qed.

Lemma codePoints_bound (s : jsstring) :
  sixteenBit s ->
  Forall (fun o => forall cp, o = Some cp -> (cp < 0x110000)%N) (URI.codePoints s).
Proof.
  unfold sixteenBit.
  assert (Hall : forall n s, (length s <= n)%nat ->
            Forall (fun c => (c < 65536)%N) s ->
            Forall (fun o => forall cp, o = Some cp -> (cp < 0x110000)%N)
                   (URI.codePoints s)).
  { clear s. induction n as [|n IH]; intros [|c s] Hlen Hs;
      cbn [length] in Hlen; try lia; cbn [URI.codePoints]; try constructor.
    apply Forall_cons_1 in Hs as [Hc Hs].
    destruct (URI.isHighSurrogate c) eqn:Hhigh.
    - destruct s as [|d s]; [repeat constructor; discriminate|].
      destruct (URI.isLowSurrogate d) eqn:Hlow.
      + apply Forall_cons_1 in Hs as [Hd Hs]. cbn [length] in Hlen.
        constructor; [|apply IH; [lia|assumption]].
        intros cp [= <-].
        unfold URI.isHighSurrogate in Hhigh. unfold URI.isLowSurrogate in Hlow.
        apply andb_true_iff in Hhigh as [_ Hc'].
        apply andb_true_iff in Hlow as [_ Hd'].
        apply N.leb_le in Hc'. apply N.leb_le in Hd'. lia.
      + constructor; [discriminate|]. apply IH; [lia|assumption].
    - destruct (URI.isLowSurrogate c).
      + constructor; [discriminate|]. apply IH; [lia|assumption].
      + constructor; [|apply IH; [lia|assumption]].
        intros cp [= <-]. lia. }
  intros Hs. now apply (Hall (length s)).
Qed.

Lemma encodeCodePoints_escaped (cps : list (option N)) (e : jsstring) :
  Forall (fun o => forall cp, o = Some cp -> (cp < 0x110000)%N) cps ->
  URI.encodeCodePoints cps = Some e -> forallb escaped e = true.
Proof.
  intros Hcps. revert e.
  induction Hcps as [|o cps Ho _ IH]; intros e; cbn [URI.encodeCodePoints].
  - now intros [= <-].
  - destruct o as [cp|]; [|discriminate].
    destruct (URI.encodeCodePoints cps) as [r|]; [|discriminate].
    intros [= <-]. rewrite forallb_app, (IH r eq_refl), andb_true_r.
    destruct (URI.isUnreserved cp) eqn:Hun.
    + cbn [forallb]. unfold escaped. now rewrite Hun.
    + apply flat_map_percentEncode_escaped, utf8_bytes, Ho. reflexivity.
Qed.

Lemma encodeURIComponent_escaped (s e : jsstring) :
  sixteenBit s -> URI.encodeURIComponent s = Some e -> forallb escaped e = true.
Proof.
  intros Hs. apply encodeCodePoints_escaped, codePoints_bound, Hs.
Qed.

Lemma escaped_spec (c : N) :
  escaped c = true -> plainInFragment c = true /\ (c =? 47)%N = false.
Proof.
  unfold escaped, URI.isUnreserved, URI.isAlphaNum, plainInFragment.
  rewrite !orb_true_iff, !andb_true_iff, negb_true_iff, !orb_false_iff.
  rewrite !N.leb_le, N.ltb_lt, !N.eqb_eq, !N.eqb_neq. lia.
Qed.

Lemma forallb_escaped (e : jsstring) :
  forallb escaped e = true ->
  forallb plainInFragment e = true
  /\ forallb (fun c => negb (c =? 47)%N) e = true.
Proof.
  induction e as [|c e IH]; cbn [forallb]; [auto|].
  intros [Hc He]%andb_true_iff.
  destruct (escaped_spec c Hc) as (-> & ->).
  destruct (IH He) as (-> & ->). auto.
Qed.

(** A parameter [q] is written, and then read as part of the route: no
    route of the fixed set comes back from a navigation with a query. *)
Lemma navigate_q_stays_in_the_route (route value e : jsstring) (page : Page) :
  In route fixedRoutes -> value <> [] -> sixteenBit value ->
  URI.encodeURIComponent value = Some e ->
  let sent := final (Router.navigate route {[ js "q" := value ]} page) in
  location_hash sent = js "#" ++ route ++ js "?q=" ++ e
  /\ forall r params,
       Router.resolve None (location_hash sent) = Some (r, params) ->
       r = route ++ js "?q=" ++ e.
Proof.
  intros Hroute Hne Hbits Hencode.
  destruct (forallb_escaped e (encodeURIComponent_escaped value e Hbits Hencode))
    as [Hplain Hslash].
  assert (Hr : forallb plainInFragment (route ++ js "?q=") = true
               /\ forallb (fun c => negb (c =? 47)%N) (route ++ js "?q=") = true
               /\ js "#" ++ route ++ js "?q=" ++ e
                  = 35%N :: (route ++ js "?q=") ++ e
               /\ truthy ((route ++ js "?q=") ++ e) = true).
  { unfold fixedRoutes in Hroute. cbn [In] in Hroute.
    repeat (destruct Hroute as [<-|Hroute]; [repeat split|]). destruct Hroute. }
  destruct Hr as (Hrplain & Hrslash & Hurl & Htruthy).
  assert (Hhash : location_hash (final (Router.navigate route {[ js "q" := value ]} page))
                  = js "#" ++ route ++ js "?q=" ++ e).
  { unfold Router.navigate, Router.addQuery, setRouter, assignHash,
      Router.orURIError.
    rewrite lookup_singleton_eq.
    rewrite !lookup_singleton_ne by (intros Heq; vm_compute in Heq; discriminate).
    assert (Hv : truthyProp (Some value) = true)
      by (destruct value; [congruence|reflexivity]).
    rewrite Hv. cbn [truthyProp default from_option id]. rewrite Hencode. run.
    cbn [location_hash].
    assert (Hsent : (js "#" ++ route) ++ js "?" ++ js "q" ++ js "=" ++ e
                    = 35%N :: (route ++ js "?q=") ++ e).
    { change (js "#") with [35%N].
      change (js "?" ++ js "q" ++ js "=" ++ e) with (js "?q=" ++ e).
      cbn [app]. now rewrite app_assoc. }
    rewrite Hsent, Hurl. apply hashAfterAssign_plain.
    - destruct route; discriminate.
    - rewrite forallb_app. now rewrite Hrplain, Hplain. }
  cbv zeta. rewrite Hhash. split; [reflexivity|].
  intros r params. rewrite Hurl. unfold Router.resolve.
  cbn [truthyProp slice1 drop]. rewrite drop_0.
  rewrite (split1_without 47 ((route ++ js "?q=") ++ e))
    by (rewrite forallb_app; now rewrite Hrslash, Hslash).
  destruct (Router.decodeInto _ ∅) as [routeParams|]; [|discriminate].
  rewrite Htruthy. rewrite <- app_assoc. now intros [= <- _].
Qed.

(** Without parameters, each route of the fixed set comes back from the
    address bar as it went. *)
Lemma navigate_resolve_routes :
  Forall (fun route =>
            Router.resolve None (location_hash (final (Router.navigate route ∅ newPage)))
            = Some (route, ∅))
         fixedRoutes.
Proof. repeat constructor. Qed.

(** The scenario of the specification: [#post/my-slug]. *)
Lemma navigate_resolve_slug :
  let page := final (Router.navigate (js "post") {[ js "slug" := js "my-slug" ]} newPage) in
  location_hash page = js "#post/my-slug"
  /\ Router.resolve None (location_hash page)
     = Some (js "post", {[ js "slug" := js "my-slug" ]}).
Proof. vm_compute. split; reflexivity. Qed.

(** C3, where the code departs from it. The search box navigates with
    the parameter [query], which [navigate] does not write: the fragment
    is [#search] and the parameter does not come back.  A parameter that
    [navigate] does write, [q], stays in the route name when the
    fragment is read, so that no handler is found.  The superseded
    router writes and reads both. *)
Theorem navigate_resolve_loses_the_query :
  let sent := final (Router.navigate (js "search") {[ js "query" := js "css" ]} newPage) in
  let sent' := final (Router.navigate (js "search") {[ js "q" := js "css" ]} newPage) in
  location_hash sent = js "#search"
  /\ Router.resolve None (location_hash sent) = Some (js "search", ∅)
  /\ location_hash sent' = js "#search?q=css"
  /\ Router.resolve None (location_hash sent')
     = Some (js "search?q=css", {[ js "q" := js "css" ]})
  /\ completion (Router.handleRouteChange None sent') = Normal NotFound
  /\ RouterOld.parseRoute (location_hash sent') = (js "search", {[ js "q" := js "css" ]})
  /\ RouterOld.parseRoute
       (URI.hashAfterAssign (RouterOld.navigate (js "search") [(js "query", js "css")]))
     = (js "search", {[ js "query" := js "css" ]}).
Proof. vm_compute. repeat split. Qed.

(** ** Instances *)

(** C1 on the example site: [b] is not there, [a] and [c] are loaded. *)
Lemma loadAllPosts_partial_failure_isolation_witness :
  exists docs,
    Survivors Example.site [js "a"; js "b"; js "c"] docs
    /\ completion (@PostManager.loadAllPosts Example.browser Example.site newPostManager)
       = Normal (map (@PostManager.processPost Example.browser) docs)
    /\ posts (final (@PostManager.loadAllPosts Example.browser Example.site newPostManager))
       = map (@PostManager.processPost Example.browser) docs
    /\ postsLoaded (final (@PostManager.loadAllPosts Example.browser Example.site newPostManager))
       = true.
Proof.
  apply (@loadAllPosts_partial_failure_isolation Example.browser Example.site
           newPostManager (Example.indexDocument [js "a"; js "b"; js "c"]));
    reflexivity.
Defined.

(** The collection of the example site: two posts, [a] then [c]. *)
Lemma loadAllPosts_example_site :
  map slug (posts Example.loaded) = [js "a"; js "c"].
Proof. vm_compute. reflexivity. Qed.

(** C2 as the specification has it fails: the example site without
    index answers the index request with a 404, a failed fetch, and
    [loadAllPosts] is fulfilled with the post found among the common
    slugs. *)
Lemma loadAllPosts_index_404_falls_back :
  indexFails Example.siteWithoutIndex
  /\ exists ps,
       completion (@PostManager.loadAllPosts Example.browser Example.siteWithoutIndex newPostManager)
       = Normal ps
       /\ map slug ps = [js "welcome-to-my-blog"].
Proof.
  split.
  - right. exists None. reflexivity.
  - eexists. split; [vm_compute; reflexivity|reflexivity].
Qed.

(** C2 without a network: the load aborts. *)
Lemma loadAllPosts_index_failure_witness :
  exists e,
    completion (@PostManager.loadAllPosts Example.browser Example.offline newPostManager) = Throw e
    /\ final (@PostManager.loadAllPosts Example.browser Example.offline newPostManager)
       = newPostManager
    /\ trace (@PostManager.loadAllPosts Example.browser Example.offline newPostManager)
       = abortTrace e.
Proof.
  apply (proj1 (@loadAllPosts_index_failure Example.browser Example.offline
                  newPostManager eq_refl)).
  left. reflexivity.
Defined.

(** C4 on the example site, with the network gone afterwards. *)
Lemma loadAllPosts_idempotent_witness :
  Forall (fun r => r = mkResult [] Example.loaded (Normal (posts Example.loaded)))
         (@loadAgain Example.browser [Example.offline; Example.site] Example.loaded).
Proof.
  apply (@loadAllPosts_idempotent Example.browser Example.site newPostManager
           (posts Example.loaded) [Example.offline; Example.site]).
  vm_compute. reflexivity.
Defined.

(** C5 on the example site. *)
Lemma getLatestPosts_sorted_truncated_witness :
  exists sorted,
    completion (@PostManager.getLatestPosts Example.browser (Z.of_nat 1) Example.loaded)
    = Normal (take 1 sorted)
    /\ Permutation sorted (posts Example.loaded)
    /\ @descendingByDate Example.browser sorted
    /\ forall p q, In p (take 1 sorted) -> In q (drop 1 sorted) ->
                   @notOlder Example.browser p q.
Proof.
  apply (@getLatestPosts_sorted_truncated Example.browser Example.loaded 1).
  apply Forall_forall. intros p Hp. apply list_elem_of_In in Hp.
  vm_compute in Hp. destruct Hp as [<-|[<-|[]]]; vm_compute; eexists; reflexivity.
Defined.

(** The scenario of the specification: of five posts with distinct
    dates, the three most recent, the most recent first. *)
Lemma getLatestPosts_three_of_five :
  let this := final (@PostManager.loadAllPosts Example.browser Example.siteOfFive
                       newPostManager) in
  map slug (posts this) = [js "p1"; js "p2"; js "p3"; js "p4"; js "p5"]
  /\ exists latest,
       completion (@PostManager.getLatestPosts Example.browser 3 this) = Normal latest
       /\ map slug latest = [js "p3"; js "p5"; js "p1"].
Proof. vm_compute. split; [reflexivity|]. eexists. split; reflexivity. Qed.

(** The latest post of the example site is [c]. *)
Lemma getLatestPosts_example_site :
  completion (@PostManager.getLatestPosts Example.browser 1 Example.loaded)
  = Normal (drop 1 (posts Example.loaded)).
Proof. vm_compute. reflexivity. Qed.

(** C5 as the specification has it fails: the loader takes any date
    that is not empty, a date that is no date makes every comparison
    with it NaN, and of the three posts of [siteWithUndatedPost]
    [getLatestPosts(1)] returns [a], the oldest, and leaves out [c],
    the most recent. *)
Lemma getLatestPosts_undated_post :
  postsLoaded Example.loadedUndated = true
  /\ map (fun post => (slug post, @Date_time Example.browser (date post)))
         (posts Example.loadedUndated)
     = [(js "a", Some 1704067200000); (js "b", None); (js "c", Some 1717200000000)]
  /\ exists latest,
       completion (@PostManager.getLatestPosts Example.browser 1 Example.loadedUndated)
       = Normal latest
       /\ map slug latest = [js "a"].
Proof.
  vm_compute. split; [reflexivity|]. split; [reflexivity|].
  eexists. split; reflexivity.
Qed.

(** C7 as the specification has it fails: the empty query navigates. *)
Lemma handleSearch_empty_query_navigates :
  (length (trim (js "")) < 2)%nat
  /\ trace (@SearchManager.handleSearch Example.browser Example.site (js "") newPage)
     = homeTrace
  /\ location_hash (final (@SearchManager.handleSearch Example.browser Example.site (js "") newPage))
     = js "#home".
Proof. vm_compute. repeat split; lia. Qed.

(** C7 on a query of one letter between blanks. *)
Lemma handleSearch_short_query_witness :
  @SearchManager.handleSearch Example.browser Example.site (js " a ") newPage
  = mkResult [] newPage (Normal tt).
Proof.
  assert (Hshort : (length (trim (js " a ")) < 2)%nat) by (vm_compute; lia).
  apply (@handleSearch_short_query Example.browser Example.site (js " a ") newPage Hshort).
  reflexivity.
Defined.

(** * Further properties of the code *)

(** ** Running a computation whose first step is known *)

Section Stepping.
Context {S : Type}.

Lemma bind_get {B} (k : S -> M S B) (s : S) : bind get k s = k s s.
Proof. unfold bind, get. cbn [completion final trace]. now destruct (k s s). Qed.

Lemma bind_modify {B} (f : S -> S) (k : unit -> M S B) (s : S) :
  bind (modify f) k s = k tt (f s).
Proof. unfold bind, modify. cbn [completion final trace]. now destruct (k tt (f s)). Qed.

Lemma bind_emit {B} (e : Event) (k : unit -> M S B) (s : S) :
  bind (emit e) k s
  = mkResult (e :: trace (k tt s)) (final (k tt s)) (completion (k tt s)).
Proof. reflexivity. Qed.

Lemma bind_normal {A B} (m : M S A) (k : A -> M S B) (s : S) t s' a :
  m s = mkResult t s' (Normal a) ->
  bind m k s = mkResult (t ++ trace (k a s')) (final (k a s')) (completion (k a s')).
Proof. unfold bind. now intros ->. Qed.

Lemma bind_throw {A B} (m : M S A) (k : A -> M S B) (s : S) t s' e :
  m s = mkResult t s' (Throw e) -> bind m k s = mkResult t s' (Throw e).
Proof. unfold bind. now intros ->. Qed.

Lemma tryCatch_normal {A} (m : M S A) (h : JsError -> M S A) (s : S) t s' a :
  m s = mkResult t s' (Normal a) -> tryCatch m h s = mkResult t s' (Normal a).
Proof. unfold tryCatch. now intros ->. Qed.

Lemma tryCatch_throw {A} (m : M S A) (h : JsError -> M S A) (s : S) t s' e :
  m s = mkResult t s' (Throw e) ->
  tryCatch m h s = mkResult (t ++ trace (h e s')) (final (h e s')) (completion (h e s')).
Proof. unfold tryCatch. now intros ->. Qed.

End Stepping.

(** ** The utilities: trimming and the excerpt *)

Lemma trimStart_spec (s : jsstring) :
  exists ws, s = ws ++ trimStart s /\ forallb isWhiteSpace ws = true
    /\ forall c, head (trimStart s) = Some c -> isWhiteSpace c = false.
Proof.
  induction s as [|a s (ws & Hs & Hws & Hhd)]; cbn [trimStart].
  - exists []. repeat split. intros c [=].
  - destruct (isWhiteSpace a) eqn:Ha.
    + exists (a :: ws). cbn [forallb app]. rewrite Ha, Hws, <- Hs. auto.
    + exists []. repeat split. intros c [= <-]. exact Ha.
Qed.

(** [trim] cuts white space off both ends, and all of it. *)
Lemma trim_spec (s : jsstring) :
  exists l r, s = l ++ trim s ++ r
    /\ forallb isWhiteSpace l = true /\ forallb isWhiteSpace r = true
    /\ (forall c, head (trim s) = Some c -> isWhiteSpace c = false)
    /\ (forall c, last (trim s) = Some c -> isWhiteSpace c = false).
Proof.
  unfold trim.
  destruct (trimStart_spec s) as (l & Hs & Hl & Hhd).
  destruct (trimStart_spec (rev (trimStart s))) as (r & Ht & Hr & Hlast).
  set (u := trimStart (rev (trimStart s))) in *.
  assert (Ht' : trimStart s = rev u ++ rev r).
  { rewrite <- rev_app_distr, <- Ht, rev_involutive. reflexivity. }
  exists l, (rev r). repeat split.
  - rewrite <- Ht'. exact Hs.
  - exact Hl.
  - rewrite forallb_forall in *. intros c Hc. apply Hr. now apply in_rev.
  - intros c Hc. apply Hhd. rewrite Ht'.
    destruct (rev u); [discriminate|exact Hc].
  - intros c Hc. apply Hlast. destruct u as [|x u']; [discriminate|].
    cbn [rev] in Hc. rewrite last_snoc in Hc. exact Hc.
Qed.

Lemma trim_length (s : jsstring) : (length (trim s) <= length s)%nat.
Proof.
  destruct (trim_spec s) as (l & r & Hs & _).
  rewrite Hs at 2. rewrite !length_app. lia.
Qed.

Section Excerpt.
Context `{Browser}.

Lemma generateExcerpt_length (content : jsstring) :
  (length (generateExcerpt content) <= 153)%nat.
Proof.
  unfold generateExcerpt.
  destruct (Nat.leb_spec (length (extractTextFromHTML content)) 150) as [Hle|Hgt]; [lia|].
  rewrite length_app. unfold substring0.
  pose proof (trim_length (take 150 (extractTextFromHTML content))) as Ht.
  rewrite length_take in Ht. change (length (js "...")) with 3%nat. lia.
Qed.

(** X1. [generateExcerpt] returns a text of 150 code units or fewer as it
    is, and never more than 153 code units: at most 150 of the text and
    the three dots. *)
Theorem generateExcerpt_bounded (content : jsstring) :
  (length (generateExcerpt content) <= 153)%nat
  /\ ((length (extractTextFromHTML content) <= 150)%nat ->
      generateExcerpt content = extractTextFromHTML content)
  /\ ((150 < length (extractTextFromHTML content))%nat ->
      exists kept, generateExcerpt content = kept ++ js "..."
        /\ kept `sublist_of` take 150 (extractTextFromHTML content)).
Proof.
  split; [apply generateExcerpt_length|]. unfold generateExcerpt.
  destruct (Nat.leb_spec (length (extractTextFromHTML content)) 150) as [Hle|Hgt].
  - split; [reflexivity|lia].
  - split; [lia|].
    intros _. eexists. split; [reflexivity|]. unfold substring0.
    destruct (trim_spec (take 150 (extractTextFromHTML content))) as (l & r & Hs & _).
    rewrite Hs at 2. apply sublist_inserts_l, sublist_inserts_r. reflexivity.
Qed.

End Excerpt.

(** ** The utilities: reading time *)

Lemma whiteSpaceRuns_length (inRun : bool) (s : jsstring) :
  (whiteSpaceRuns inRun s <= length s)%nat.
Proof.
  revert inRun. induction s as [|c s IH]; intros inRun; cbn [whiteSpaceRuns length]; [lia|].
  destruct (isWhiteSpace c).
  - specialize (IH true). destruct inRun; lia.
  - specialize (IH false). lia.
Qed.

Lemma calculateReadingTime_positive (text : jsstring) :
  (1 <= calculateReadingTime text)%nat.
Proof.
  unfold calculateReadingTime.
  pose proof (Nat.div_mod_eq (S (whiteSpaceRuns false text) + 200 - 1) 200) as Hdiv.
  pose proof (Nat.mod_upper_bound (S (whiteSpaceRuns false text) + 200 - 1) 200
                ltac:(lia)) as Hmod.
  lia.
Qed.

(** X2. The reading time is at least one minute, also for an empty text,
    and a minute beyond the first takes 200 code units of text at least. *)
Theorem calculateReadingTime_bounds (text : jsstring) :
  (1 <= calculateReadingTime text)%nat
  /\ (200 * (calculateReadingTime text - 1) <= length text)%nat.
Proof.
  unfold calculateReadingTime.
  pose proof (whiteSpaceRuns_length false text) as Hruns.
  set (runs := whiteSpaceRuns false text) in *.
  pose proof (Nat.div_mod_eq (S runs + 200 - 1) 200) as Hdiv.
  pose proof (Nat.mod_upper_bound (S runs + 200 - 1) 200 ltac:(lia)) as Hmod.
  lia.
Qed.

(** ** The utilities: content without placeholders *)

Lemma startsWith_app (s a b : jsstring) :
  startsWith s (a ++ b) = true -> startsWith s a = true.
Proof.
  revert s. induction a as [|x a IH]; intros s; [reflexivity|].
  destruct s as [|c s]; cbn [startsWith app]; [discriminate|].
  rewrite !andb_true_iff. intros [? ?]. auto.
Qed.

Lemma replaceLoop_without (opening rest replacement before s : jsstring) :
  includes s opening = false ->
  replaceLoop (opening ++ rest) replacement before s 0 = s.
Proof.
  revert before. induction s as [|c s IH]; intros before; [reflexivity|].
  cbn [includes]. rewrite orb_false_iff. intros [Hhere Hlater].
  cbn [replaceLoop].
  destruct (startsWith (c :: s) (opening ++ rest)) eqn:Hs.
  - apply startsWith_app in Hs. congruence.
  - f_equal. now apply IH.
Qed.

(** X3. Content in which [{{photo] does not occur is returned as it is,
    whatever the photos. *)
Theorem replacePhotoPlaceholders_without_placeholder
  (content : jsstring) (photos : list jsstring) :
  includes content (js "{{photo") = false ->
  replacePhotoPlaceholders content photos = content.
Proof.
  intros Hnone. unfold replacePhotoPlaceholders. generalize 0%nat as index.
  induction photos as [|photo photos IH]; intros index; cbn [replaceEach]; [reflexivity|].
  unfold replaceAll, placeholder. rewrite replaceLoop_without by exact Hnone. apply IH.
Qed.

(** ** The utilities: escaping markup *)

Lemma serializeText_cons (c : N) (text : jsstring) :
  serializeText (c :: text)
  = (if (c =? 38)%N then js "&amp;"
     else if (c =? 60)%N then js "&lt;"
     else if (c =? 62)%N then js "&gt;"
     else if (c =? 160)%N then js "&nbsp;"
     else [c]) ++ serializeText text.
Proof. reflexivity. Qed.

(** X4. The escaped text holds neither [<] nor [>], so no tag opens or
    closes in it, and two texts that are escaped alike are the same. *)
Theorem escapeHTML_no_markup (text : jsstring) :
  Forall (fun c => c <> 60%N /\ c <> 62%N) (escapeHTML text)
  /\ forall text', escapeHTML text = escapeHTML text' -> text = text'.
Proof.
  unfold escapeHTML. split.
  - induction text as [|c text IH]; [constructor|].
    rewrite serializeText_cons. apply Forall_app. split; [|exact IH].
    destruct (N.eqb_spec c 38); [repeat constructor; discriminate|].
    destruct (N.eqb_spec c 60); [repeat constructor; discriminate|].
    destruct (N.eqb_spec c 62); [repeat constructor; discriminate|].
    destruct (N.eqb_spec c 160); [repeat constructor; discriminate|].
    repeat constructor; assumption.
  - induction text as [|c text IH]; intros [|c' text'].
    + reflexivity.
    + rewrite serializeText_cons. cbn [serializeText flat_map].
      repeat destruct (_ =? _)%N; discriminate.
    + rewrite serializeText_cons. cbn [serializeText flat_map].
      repeat destruct (_ =? _)%N; discriminate.
    + rewrite !serializeText_cons.
      destruct (N.eqb_spec c 38) as [->|?]; [|
      destruct (N.eqb_spec c 60) as [->|?]; [|
      destruct (N.eqb_spec c 62) as [->|?]; [|
      destruct (N.eqb_spec c 160) as [->|?]]]];
      (destruct (N.eqb_spec c' 38) as [->|?]; [|
       destruct (N.eqb_spec c' 60) as [->|?]; [|
       destruct (N.eqb_spec c' 62) as [->|?]; [|
       destruct (N.eqb_spec c' 160) as [->|?]]]]);
      intros Heq; vm_compute js in Heq; cbn [app] in Heq;
      try discriminate; try (injection Heq as Heq; congruence);
      try (injection Heq as Heq; f_equal; now apply IH);
      try (injection Heq as -> Heq; f_equal; now apply IH).
Qed.

(** ** The utilities: e-mail addresses *)

Lemma test_OneOrMore (class : N -> bool) (terms : list Term) (s : jsstring) :
  test (OneOrMore class :: terms) s = true
  <-> exists a rest, s = a ++ rest /\ a <> [] /\ forallb class a = true
                     /\ test terms rest = true.
Proof.
  induction s as [|c s IH].
  - split; [discriminate|]. intros (a & rest & Hs & Ha & _).
    destruct a; [congruence|discriminate].
  - cbn [test]. rewrite andb_true_iff, orb_true_iff, IH. split.
    + intros [Hc [Hnow|(a & rest & -> & Ha & Hall & Hrest)]].
      * exists [c], s. cbn [forallb]. rewrite Hc. repeat split; [discriminate|assumption].
      * exists (c :: a), rest. cbn [forallb]. rewrite Hc, Hall.
        repeat split; [discriminate|assumption].
    + intros ([|x a] & rest & Hs & Ha & Hall & Hrest); [congruence|].
      injection Hs as <- ->. cbn [forallb] in Hall. apply andb_true_iff in Hall as [Hx Hall].
      split; [exact Hx|]. destruct a as [|y a]; [now left|].
      right. exists (y :: a), rest. repeat split; [discriminate|assumption..].
Qed.

Lemma test_Char (c : N) (terms : list Term) (s : jsstring) :
  test (Char c :: terms) s = true <-> exists rest, s = c :: rest /\ test terms rest = true.
Proof.
  destruct s as [|a s]; cbn [test].
  - split; [discriminate|]. intros (rest & [=] & _).
  - rewrite andb_true_iff, N.eqb_eq. split.
    + intros [-> Hs]. eauto.
    + intros (rest & [= -> ->] & Hs). auto.
Qed.

Lemma test_nil (s : jsstring) : test [] s = true <-> s = [].
Proof. destruct s; cbn [test]; split; congruence. Qed.

(** X5. [isValidEmail] accepts exactly the strings [local@domain.tld]
    whose three parts are not empty and hold neither white space nor
    [@]; the domain may itself hold dots. *)
Theorem isValidEmail_shape (email : jsstring) :
  isValidEmail email = true
  <-> exists localPart domain tld,
        email = localPart ++ [64%N] ++ domain ++ [46%N] ++ tld
        /\ localPart <> [] /\ domain <> [] /\ tld <> []
        /\ forallb notSpaceNorAt (localPart ++ domain ++ tld) = true.
Proof.
  unfold isValidEmail, emailRegex. rewrite test_OneOrMore. split.
  - intros (localPart & r1 & -> & Hl & Hla & H1).
    apply test_Char in H1 as (r2 & -> & H2).
    apply test_OneOrMore in H2 as (domain & r3 & -> & Hd & Hda & H3).
    apply test_Char in H3 as (r4 & -> & H4).
    apply test_OneOrMore in H4 as (tld & r5 & -> & Ht & Hta & H5).
    apply test_nil in H5 as ->.
    exists localPart, domain, tld. rewrite app_nil_r, !forallb_app, Hla, Hda, Hta.
    repeat split; assumption.
  - intros (localPart & domain & tld & -> & Hl & Hd & Ht & Hall).
    rewrite !forallb_app, !andb_true_iff in Hall. destruct Hall as (Hla & Hda & Hta).
    exists localPart, ([64%N] ++ domain ++ [46%N] ++ tld).
    split; [reflexivity|]. do 2 (split; [assumption|]).
    apply test_Char. eexists. split; [reflexivity|].
    apply test_OneOrMore. exists domain, ([46%N] ++ tld).
    split; [reflexivity|]. do 2 (split; [assumption|]).
    apply test_Char. eexists. split; [reflexivity|].
    apply test_OneOrMore. exists tld, [].
    split; [now rewrite app_nil_r|]. do 2 (split; [assumption|]). reflexivity.
Qed.

(** An address without [@], and one that ends in its dot, are refused. *)
Lemma isValidEmail_examples :
  isValidEmail (js "niaz@example.com") = true
  /\ isValidEmail (js "niaz.example.com") = false
  /\ isValidEmail (js "niaz@example.") = false
  /\ isValidEmail (js "a b@example.com") = false
  /\ isValidEmail (js "a@b@example.com") = false.
Proof. vm_compute. auto. Qed.

(** ** The content store: what a load leaves in the trace *)

Section LoadingTrace.
Context `{Browser} (net : Network).

(** Once its request is out, [loadPost] ends in one of two ways. *)
Lemma loadPostAwaited_result (slug : jsstring) (this : PostManager) :
  (exists post, PostManager.loadPostAwaited net slug this
                = mkResult [] this (Normal (Some post)))
  \/ (exists e, PostManager.loadPostAwaited net slug this
                = mkResult [ConsoleError (js "Error loading post " ++ slug ++ js ":") e]
                           this (Normal None)).
Proof.
  unfold PostManager.loadPostAwaited, PostManager.readPost, PostManager.reportPost,
    PostManager.validatePost, respond, json.
  destruct (net (PostManager.postUrl slug)) as [[[|] [[|d]|]]|] eqn:Hnet;
    try (right; eexists; reflexivity).
  cbv beta iota zeta delta [tryCatch bind ret throw completion final trace ok body].
  destruct (PostManager.everyRequired d).
  - left. eexists. reflexivity.
  - right. eexists. reflexivity.
Qed.

(** X6. [loadPost] is never rejected and leaves the manager as it was.
    It makes one request; it yields the processed post when the document
    survives, and [null] after one line on the console otherwise. *)
Theorem loadPost_never_rejects (slug : jsstring) (this : PostManager) :
  final (PostManager.loadPost net slug this) = this
  /\ ((exists d, fetched net slug = Some d /\ carriesRequired d
         /\ completion (PostManager.loadPost net slug this)
            = Normal (Some (PostManager.processPost d))
         /\ trace (PostManager.loadPost net slug this)
            = [Fetch (PostManager.postUrl slug)])
      \/ ((forall d, fetched net slug = Some d -> ~ carriesRequired d)
          /\ completion (PostManager.loadPost net slug this) = Normal None
          /\ exists e, trace (PostManager.loadPost net slug this)
               = [Fetch (PostManager.postUrl slug);
                  ConsoleError (js "Error loading post " ++ slug ++ js ":") e])).
Proof.
  rewrite loadPost_request. unfold request. run.
  destruct (loadPostAwaited_outcome net slug this) as [Hf Hc]. split; [exact Hf|].
  destruct (loadPostAwaited_result slug this) as [(post & Hr)|(e & Hr)];
    rewrite Hr in *; cbn [completion trace] in *;
    destruct Hc as [(d & Hd & Hreq & Hc)|[Hnone Hc]]; try discriminate.
  - left. exists d. auto.
  - right. eauto.
Qed.

Lemma discoverLoop_trace (slugs existingSlugs : list jsstring) (this : PostManager) :
  trace (PostManager.discoverLoop net slugs existingSlugs this)
  = map (fun slug => Fetch (PostManager.postUrl slug)) slugs.
Proof.
  revert existingSlugs. induction slugs as [|slug slugs IH]; intros existingSlugs;
    cbn [PostManager.discoverLoop map]; run; [reflexivity|].
  destruct (net (PostManager.postUrl slug)) as [[[|] b]|]; run;
    rewrite IH; reflexivity.
Qed.

(** X7. [discoverPosts] is never rejected, also without a network: it
    asks for the five common slugs, in their order, and yields those
    whose request is answered with an ok status; the manager is left as
    it was. *)
Theorem discoverPosts_never_rejects (this : PostManager) :
  completion (PostManager.discoverPosts net this) = Normal (discovered net)
  /\ final (PostManager.discoverPosts net this) = this
  /\ trace (PostManager.discoverPosts net this)
     = map (fun slug => Fetch (PostManager.postUrl slug)) PostManager.commonSlugs.
Proof.
  unfold PostManager.discoverPosts.
  destruct (discoverLoop_outcome net PostManager.commonSlugs [] this) as [Hf Hc].
  rewrite Hc, Hf, discoverLoop_trace. auto.
Qed.

Lemma requestEach_trace (slugs : list jsstring) (this : PostManager) :
  trace (PostManager.requestEach slugs this)
  = map (fun slug => Fetch (PostManager.postUrl slug)) slugs.
Proof.
  induction slugs as [|slug slugs IH]; cbn [PostManager.requestEach map];
    unfold request; run; [reflexivity|].
  now rewrite IH.
Qed.

Lemma awaitEach_trace (slugs : list jsstring) (this : PostManager) :
  Forall (fun e => exists label error, e = ConsoleError label error)
         (trace (PostManager.awaitEach net slugs this)).
Proof.
  induction slugs as [|slug slugs IH]; cbn [PostManager.awaitEach]; run; [constructor|].
  destruct (awaitEach_outcome net slugs this) as [IHf (docs & _ & loaded & Hl & _)].
  destruct (loadPostAwaited_result slug this) as [(post & ->)|(e & ->)];
    run; rewrite Hl; run; rewrite ?app_nil_r; [exact IH|].
  constructor; [eauto|exact IH].
Qed.

Lemma loadEach_trace (slugs : list jsstring) (this : PostManager) :
  Forall (fun e => (exists url, e = Fetch url)
                   \/ exists label error, e = ConsoleError label error)
         (trace (PostManager.loadEach net slugs this)).
Proof.
  unfold PostManager.loadEach. run.
  destruct (requestEach_outcome slugs this) as [-> ->].
  rewrite requestEach_trace. apply Forall_app. split.
  - apply Forall_map, Forall_true. intros slug. left. eauto.
  - eapply List.Forall_impl; [|apply awaitEach_trace]. intros e ?. now right.
Qed.

(** X8. A first [loadAllPosts] shows the loading indicator first and
    hides it last, whether it is fulfilled or rejected; in between there
    are only requests and lines on the console. *)
Theorem loadAllPosts_hides_the_spinner (this : PostManager) :
  postsLoaded this = false ->
  exists middle,
    trace (PostManager.loadAllPosts net this) = ShowLoading :: middle ++ [HideLoading]
    /\ Forall (fun e => (exists url, e = Fetch url)
                        \/ exists label error, e = ConsoleError label error) middle.
Proof.
  intros Hfresh. unfold PostManager.loadAllPosts. run. rewrite Hfresh. run.
  destruct (net PostManager.indexUrl) as [[[|] b]|]; run.
  - destruct b as [[|index]|]; run.
    + eexists [_; _]. split; [reflexivity|].
      constructor; [left; eauto|constructor; [right; eauto|constructor]].
    + destruct (loadEach_outcome net (default [] (doc_posts index)) this)
        as [Hf (docs & Hs & loaded & Hl & Hn)].
      rewrite Hl, ?Hf. run. rewrite ?Hl, ?Hf. run.
      exists (Fetch PostManager.indexUrl
              :: trace (PostManager.loadEach net (default [] (doc_posts index)) this)).
      split; [cbn [app]; now rewrite ?app_nil_r|].
      constructor; [eauto|apply loadEach_trace].
    + eexists [_; _]. split; [reflexivity|].
      constructor; [left; eauto|constructor; [right; eauto|constructor]].
  - destruct (discoverLoop_outcome net PostManager.commonSlugs [] this) as [Hdf Hdc].
    pose proof (discoverLoop_trace PostManager.commonSlugs [] this) as Hdt.
    unfold PostManager.discoverPosts in *. cbn [app] in Hdc.
    rewrite Hdc, ?Hdf. run. rewrite ?Hdc, ?Hdf. run.
    change (List.filter (answersOk net) PostManager.commonSlugs) with (discovered net).
    destruct (loadEach_outcome net (discovered net) this)
      as [Hf (docs & Hs & loaded & Hl & Hn)].
    rewrite Hl, ?Hf. run. rewrite ?Hl, ?Hf. run.
    exists (Fetch PostManager.indexUrl
            :: trace (PostManager.discoverLoop net PostManager.commonSlugs [] this)
            ++ trace (PostManager.loadEach net (discovered net) this)).
    split; [cbn [app]; now rewrite ?app_nil_r, <- ?app_assoc|].
    constructor; [eauto|]. apply Forall_app. split; [|apply loadEach_trace].
    rewrite Hdt. apply Forall_map, Forall_true. intros slug. left. eauto.
  - eexists [_; _]. split; [reflexivity|].
      constructor; [left; eauto|constructor; [right; eauto|constructor]].
Qed.

(** X9. [loadAllPosts] is rejected exactly on a manager not yet loaded
    when the index cannot be had, and a rejected call leaves the manager
    as it was: nothing is stored and the next call starts afresh. *)
Theorem loadAllPosts_rejected (this : PostManager) :
  ((exists e, completion (PostManager.loadAllPosts net this) = Throw e)
   <-> postsLoaded this = false /\ indexUnavailable net)
  /\ forall e, completion (PostManager.loadAllPosts net this) = Throw e ->
       final (PostManager.loadAllPosts net this) = this.
Proof.
  destruct (postsLoaded this) eqn:Hloaded.
  - rewrite (loadAllPosts_cached net this Hloaded). cbn [completion final]. split.
    + split; [intros [e [=]]|intros [[=] _]].
    + intros e [=].
  - destruct (loadAllPosts_first net this Hloaded)
      as [[Hun (e & Hc & Hf & _)]|(slugs & docs & Hsrc & _ & Hc & _)]; rewrite Hc.
    + split; [split; eauto|auto].
    + split; [|intros e [=]]. split; [intros [e [=]]|]. intros [_ Hun]. exfalso.
      unfold indexUnavailable in Hun.
      destruct Hsrc as [(index & Hi & _)|[[b Hb] _]].
      * rewrite Hi in Hun. destruct Hun as [?|[?|?]]; discriminate.
      * rewrite Hb in Hun. destruct Hun as [?|[?|?]]; discriminate.
Qed.

Lemma Survivors_carriesRequired (slugs : list jsstring) (docs : list Document) :
  Survivors net slugs docs -> Forall carriesRequired docs.
Proof. induction 1; [constructor|now constructor|assumption]. Qed.

(** X10. Every post a first load stores carries its five required fields,
    none of them empty, has a reading time of one minute or more and an
    excerpt of 153 code units at most. *)
Theorem loadAllPosts_stores_valid_posts (this : PostManager) (ps : list Post) :
  postsLoaded this = false ->
  completion (PostManager.loadAllPosts net this) = Normal ps ->
  posts (final (PostManager.loadAllPosts net this)) = ps
  /\ Forall (fun post => slug post <> [] /\ title post <> [] /\ author post <> []
                         /\ date post <> [] /\ contents post <> []
                         /\ (1 <= readingTime post)%nat
                         /\ (length (excerpt post) <= 153)%nat) ps.
Proof.
  intros Hfresh Hc.
  destruct (loadAllPosts_first net this Hfresh)
    as [[_ (e & He & _)]|(slugs & docs & _ & Hs & Hn & Hp & _)]; [congruence|].
  rewrite Hn in Hc. injection Hc as <-. split; [exact Hp|].
  apply Forall_map. eapply List.Forall_impl; [|exact (Survivors_carriesRequired _ _ Hs)].
  intros d ((s & Hs1 & Hs2) & (t & Ht1 & Ht2) & (a & Ha1 & Ha2) & (dt & Hd1 & Hd2)
            & (c & Hc1 & Hc2)).
  unfold PostManager.processPost. cbn [slug title author date contents readingTime excerpt].
  rewrite Hs1, Ht1, Ha1, Hd1, Hc1. cbn [default from_option id].
  repeat split; try assumption.
  - apply calculateReadingTime_positive.
  - apply generateExcerpt_length.
Qed.

End LoadingTrace.

(** ** The content store: tags and categories *)

Lemma split1_pieces (sep : N) (s : jsstring) :
  Forall (fun piece => ~ In sep piece) (split sep s).
Proof.
  unfold split. induction s as [|c s IH]; cbn [split1].
  - repeat constructor. intros [].
  - destruct (split1 sep s) as [hd tl]. apply Forall_cons_1 in IH as [Hhd Htl].
    destruct (N.eqb_spec c sep) as [->|Hc].
    + constructor; [intros []|]. now constructor.
    + constructor; [|exact Htl]. intros [?|?]; [congruence|auto].
Qed.

(** X11. The tags read from a comma-separated string are not empty, hold
    no comma, and neither begin nor end with white space. *)
Theorem tagArrayOf_string (s : jsstring) :
  Forall (fun tag => tag <> [] /\ ~ In 44%N tag
                     /\ (forall c, head tag = Some c -> isWhiteSpace c = false)
                     /\ (forall c, last tag = Some c -> isWhiteSpace c = false))
         (PostManager.tagArrayOf (TagsString s)).
Proof.
  cbn [PostManager.tagArrayOf]. rewrite List.Forall_forall. intros tag Htag.
  apply filter_In in Htag as [Htag Hne].
  apply in_map_iff in Htag as (piece & <- & Hpiece).
  pose proof (split1_pieces 44 s) as Hpieces. rewrite List.Forall_forall in Hpieces.
  specialize (Hpieces piece Hpiece).
  destruct (trim_spec piece) as (l & r & Hs & _ & _ & Hhd & Hlast).
  repeat split; [|  |exact Hhd|exact Hlast].
  - intros Hnil. rewrite Hnil in Hne. discriminate.
  - intros Hin. apply Hpieces. rewrite Hs. apply in_or_app. right.
    apply in_or_app. now left.
Qed.

Lemma Set_add_elem (x y : jsstring) (s : list jsstring) :
  x ∈ Set_add y s <-> x = y \/ x ∈ s.
Proof.
  unfold Set_add. destruct (decide (y ∈ s)) as [Hy|Hy].
  - split; [auto|]. intros [->|?]; assumption.
  - rewrite elem_of_app, list_elem_of_singleton. tauto.
Qed.

Lemma Set_add_NoDup (y : jsstring) (s : list jsstring) : NoDup s -> NoDup (Set_add y s).
Proof.
  unfold Set_add. intros Hs. destruct (decide (y ∈ s)) as [Hy|Hy]; [exact Hs|].
  apply NoDup_app. repeat split; [exact Hs| |apply NoDup_singleton].
  intros x Hx Hx'. apply list_elem_of_singleton in Hx'. congruence.
Qed.

Lemma foldl_Set_add (tags new : list jsstring) :
  NoDup tags ->
  NoDup (foldl (fun tags tag => Set_add tag tags) tags new)
  /\ forall t, t ∈ foldl (fun tags tag => Set_add tag tags) tags new <-> t ∈ tags \/ t ∈ new.
Proof.
  revert tags. induction new as [|x new IH]; intros tags Hnd; cbn [foldl].
  - split; [exact Hnd|]. intros t. rewrite elem_of_nil. tauto.
  - destruct (IH (Set_add x tags) (Set_add_NoDup x tags Hnd)) as [Hnd' Hin].
    split; [exact Hnd'|]. intros t. rewrite Hin, Set_add_elem, elem_of_cons. tauto.
Qed.

Lemma extract_fold (ps : list Post) (cats0 tags0 : list jsstring) :
  NoDup cats0 -> NoDup tags0 ->
  let acc :=
    foldl (fun (acc : list jsstring * list jsstring) (post : Post) =>
             (if truthyProp (category post)
              then Set_add (default [] (category post)) (fst acc) else fst acc,
              foldl (fun tags tag => Set_add tag tags) (snd acc) (tagArray post)))
          (cats0, tags0) ps in
  NoDup (fst acc) /\ NoDup (snd acc)
  /\ (forall c, c ∈ fst acc <->
        c ∈ cats0 \/ (c <> [] /\ exists p, p ∈ ps /\ category p = Some c))
  /\ (forall t, t ∈ snd acc <-> t ∈ tags0 \/ exists p, p ∈ ps /\ t ∈ tagArray p).
Proof.
  revert cats0 tags0. induction ps as [|p ps IH]; intros cats0 tags0 Hc Ht; cbn [foldl].
  - cbn [fst snd]. repeat split; auto.
    + intros [?|(_ & q & Hq & _)]; [assumption|]. now apply elem_of_nil in Hq.
    + intros [?|(q & Hq & _)]; [assumption|]. now apply elem_of_nil in Hq.
  - cbn [fst snd].
    destruct (foldl_Set_add tags0 (tagArray p) Ht) as [Ht' Htin].
    assert (Hc' : NoDup (if truthyProp (category p)
                         then Set_add (default [] (category p)) cats0 else cats0)).
    { destruct (truthyProp (category p)); [now apply Set_add_NoDup|exact Hc]. }
    destruct (IH _ _ Hc' Ht') as (Hnc & Hnt & Hcin & Htin'). cbv zeta.
    split; [exact Hnc|]. split; [exact Hnt|]. split.
    + intros c. rewrite Hcin. setoid_rewrite elem_of_cons.
      destruct (category p) as [[|a cp]|] eqn:Hcat; cbn [truthyProp truthy default from_option id].
      * split.
        -- intros [?|(Hne & q & Hq & Hqc)]; [now left|].
           right. split; [exact Hne|]. exists q. auto.
        -- intros [?|(Hne & q & [->|Hq] & Hqc)]; [now left|congruence|].
           right. split; [exact Hne|]. exists q. auto.
      * rewrite Set_add_elem. split.
        -- intros [[->|?]|(Hne & q & Hq & Hqc)]; [|now left|].
           ++ right. split; [discriminate|]. exists p. auto.
           ++ right. split; [exact Hne|]. exists q. auto.
        -- intros [?|(Hne & q & [->|Hq] & Hqc)]; [now left; right| |].
           ++ left. left. congruence.
           ++ right. split; [exact Hne|]. exists q. auto.
      * split.
        -- intros [?|(Hne & q & Hq & Hqc)]; [now left|].
           right. split; [exact Hne|]. exists q. auto.
        -- intros [?|(Hne & q & [->|Hq] & Hqc)]; [now left|congruence|].
           right. split; [exact Hne|]. exists q. auto.
    + intros t. rewrite Htin', Htin. setoid_rewrite elem_of_cons. split.
      * intros [[?|?]|(q & Hq & Hqt)]; [now left|right; exists p; auto|].
        right. exists q. auto.
      * intros [?|(q & [->|Hq] & Hqt)]; [now left; left|now left; right|].
        right. exists q. auto.
Qed.

(** The two sets after [extractCategoriesAndTags] are what the loop
    over the posts gathers, from nothing. *)
Lemma extractCategoriesAndTags_fold (this : PostManager) :
  (categories (PostManager.extractCategoriesAndTags this),
   allTags (PostManager.extractCategoriesAndTags this))
  = foldl (fun (acc : list jsstring * list jsstring) (post : Post) =>
             (if truthyProp (category post)
              then Set_add (default [] (category post)) (fst acc) else fst acc,
              foldl (fun tags tag => Set_add tag tags) (snd acc) (tagArray post)))
          ([], []) (posts this).
Proof.
  unfold PostManager.extractCategoriesAndTags.
  now destruct (foldl _ _ (posts this)) as [cats tags].
Qed.

(** X12. [extractCategoriesAndTags] leaves the posts alone and rebuilds
    the two sets from them: they hold no duplicates, a category is in
    the set exactly when it is the (non-empty) category of a post, and a
    tag exactly when a post carries it.  What the sets held before is
    forgotten. *)
Theorem extractCategoriesAndTags_sets (this : PostManager) :
  posts (PostManager.extractCategoriesAndTags this) = posts this
  /\ NoDup (categories (PostManager.extractCategoriesAndTags this))
  /\ NoDup (allTags (PostManager.extractCategoriesAndTags this))
  /\ (forall c, c ∈ categories (PostManager.extractCategoriesAndTags this)
                <-> c <> [] /\ exists p, p ∈ posts this /\ category p = Some c)
  /\ (forall t, t ∈ allTags (PostManager.extractCategoriesAndTags this)
                <-> exists p, p ∈ posts this /\ t ∈ tagArray p).
Proof.
  pose proof (extract_fold (posts this) [] [] (NoDup_nil_2 (A:=jsstring))
                (NoDup_nil_2 (A:=jsstring))) as Hfold.
  cbv zeta in Hfold. rewrite <- extractCategoriesAndTags_fold in Hfold.
  cbn [fst snd] in Hfold. destruct Hfold as (Hnc & Hnt & Hcin & Htin).
  split; [apply extractCategoriesAndTags_posts|].
  split; [exact Hnc|]. split; [exact Hnt|]. split.
  - intros c. rewrite Hcin, elem_of_nil. tauto.
  - intros t. rewrite Htin, elem_of_nil. tauto.
Qed.

(** ** The content store: listing, lookup and neighbours *)

(** The order of [sort()] on strings. *)
Ltac compare_units :=
  repeat match goal with
         | H : context [(?a <? ?b)%N] |- _ => destruct (N.ltb_spec a b)
         | H : context [(?a =? ?b)%N] |- _ => destruct (N.eqb_spec a b)
         | |- context [(?a <? ?b)%N] => destruct (N.ltb_spec a b)
         | |- context [(?a =? ?b)%N] => destruct (N.eqb_spec a b)
         end;
  cbn [orb andb] in *; try discriminate; try lia; subst; try lia.

Lemma lessThan_asym (x y : jsstring) : lessThan x y = true -> lessThan y x = false.
Proof.
  revert y. induction x as [|a x IH]; intros [|b y]; cbn [lessThan];
    try discriminate; try reflexivity.
  intros Hxy. compare_units; auto.
Qed.

Lemma notAfter_trans (x y z : jsstring) :
  lessThan y x = false -> lessThan z y = false -> lessThan z x = false.
Proof.
  revert y z. induction x as [|a x IH]; intros [|b y] [|c z]; cbn [lessThan];
    try discriminate; try reflexivity.
  intros Hyx Hzy. compare_units; eauto.
Qed.

Lemma defaultCompare_after (x y : jsstring) :
  0 < sortCompare defaultCompare x y -> lessThan x y = false.
Proof.
  unfold sortCompare, defaultCompare. cbn [default from_option id].
  destruct (lessThan x y); [lia|reflexivity].
Qed.

Lemma defaultCompare_before (x y : jsstring) :
  sortCompare defaultCompare x y <= 0 -> lessThan y x = false.
Proof.
  unfold sortCompare, defaultCompare. cbn [default from_option id].
  destruct (lessThan x y) eqn:Hxy; [intros _; now apply lessThan_asym|].
  destruct (lessThan y x); [lia|reflexivity].
Qed.

Lemma sort_defaultCompare (l : list jsstring) :
  StronglySorted (fun x y => lessThan y x = false) (sort defaultCompare l)
  /\ Permutation (sort defaultCompare l) l.
Proof.
  split; [|apply sort_Permutation].
  apply (sort_StronglySorted defaultCompare (fun x y => lessThan y x = false)
           (fun _ => True)).
  - intros a b c. apply notAfter_trans.
  - intros x y _ _. apply defaultCompare_after.
  - intros x y _ _. apply defaultCompare_before.
  - apply Forall_true. auto.
Qed.

Section Listing.
Context `{Browser}.

(** X13. [getAllCategories] and [getAllTags] list what the two sets hold,
    each element as often as the set has it, in ascending order of code
    units: no element comes before one that is less than it. *)
Theorem getAllCategories_getAllTags_sorted (this : PostManager) :
  StronglySorted (fun x y => lessThan y x = false) (PostManager.getAllCategories this)
  /\ Permutation (PostManager.getAllCategories this) (categories this)
  /\ StronglySorted (fun x y => lessThan y x = false) (PostManager.getAllTags this)
  /\ Permutation (PostManager.getAllTags this) (allTags this).
Proof.
  unfold PostManager.getAllCategories, PostManager.getAllTags.
  destruct (sort_defaultCompare (categories this)).
  destruct (sort_defaultCompare (allTags this)). auto.
Qed.

Lemma filter_nonempty {A} (f : A -> bool) (l : list A) :
  List.filter f l <> [] <-> exists x, x ∈ l /\ f x = true.
Proof.
  split.
  - destruct (List.filter f l) as [|x l'] eqn:Hf; [congruence|]. intros _.
    assert (Hx : In x (List.filter f l)) by (rewrite Hf; now left).
    apply filter_In in Hx as [Hx Hfx]. exists x. split; [now apply list_elem_of_In|exact Hfx].
  - intros (x & Hx & Hfx) Hnil.
    assert (Hin : In x (List.filter f l)).
    { apply filter_In. split; [now apply list_elem_of_In|exact Hfx]. }
    rewrite Hnil in Hin. destruct Hin.
Qed.

(** What a first load that is fulfilled leaves in the manager. *)
Lemma loadAllPosts_first_sets (net : Network) (this : PostManager) (ps : list Post) :
  postsLoaded this = false ->
  completion (PostManager.loadAllPosts net this) = Normal ps ->
  exists pm,
    posts pm = ps
    /\ posts (final (PostManager.loadAllPosts net this)) = ps
    /\ categories (final (PostManager.loadAllPosts net this))
       = categories (PostManager.extractCategoriesAndTags pm)
    /\ allTags (final (PostManager.loadAllPosts net this))
       = allTags (PostManager.extractCategoriesAndTags pm).
Proof.
  intros Hfresh. unfold PostManager.loadAllPosts. run. rewrite Hfresh. run.
  destruct (net PostManager.indexUrl) as [[[|] b]|]; run; [| |discriminate].
  - destruct b as [[|index]|]; run; [discriminate| |discriminate].
    destruct (loadEach_outcome net (default [] (doc_posts index)) this)
      as [Hf (docs & Hs & loaded & Hl & Hn)].
    rewrite Hl, ?Hf. run. rewrite ?Hl, ?Hf. run.
    cbn [posts categories allTags]. rewrite !extractCategoriesAndTags_posts. cbn [posts].
    intros [= <-]. eexists. split; [|split; [reflexivity|split; reflexivity]]. reflexivity.
  - destruct (discoverLoop_outcome net PostManager.commonSlugs [] this) as [Hdf Hdc].
    unfold PostManager.discoverPosts.
    rewrite Hdc, ?Hdf. run. rewrite ?Hdc, ?Hdf. run. cbn [app].
    destruct (loadEach_outcome net (List.filter (answersOk net) PostManager.commonSlugs) this)
      as [Hf (docs & Hs & loaded & Hl & Hn)].
    rewrite Hl, ?Hf. run. rewrite ?Hl, ?Hf. run.
    cbn [posts categories allTags]. rewrite !extractCategoriesAndTags_posts. cbn [posts].
    intros [= <-]. eexists. split; [|split; [reflexivity|split; reflexivity]]. reflexivity.
Qed.

(** X14. After a first load that is fulfilled, the lists of tags and of
    categories agree with the collection: a tag is listed exactly when
    [getPostsByTag] finds a post for it, a category exactly when it is
    not empty and [getPostsByCategory] finds a post for it. *)
Theorem loadAllPosts_lists_agree (net : Network) (this : PostManager) (ps : list Post) :
  postsLoaded this = false ->
  completion (PostManager.loadAllPosts net this) = Normal ps ->
  (forall tag, tag ∈ PostManager.getAllTags (final (PostManager.loadAllPosts net this))
               <-> PostManager.getPostsByTag (final (PostManager.loadAllPosts net this)) tag <> [])
  /\ (forall c, c ∈ PostManager.getAllCategories (final (PostManager.loadAllPosts net this))
                <-> c <> []
                    /\ PostManager.getPostsByCategory
                         (final (PostManager.loadAllPosts net this)) c <> []).
Proof.
  intros Hfresh Hc.
  destruct (loadAllPosts_first_sets net this ps Hfresh Hc) as (pm & Hpm & Hps & Hcats & Htags).
  pose proof (extract_fold (posts pm) [] [] (NoDup_nil_2 (A:=jsstring))
                (NoDup_nil_2 (A:=jsstring))) as Hfold.
  cbv zeta in Hfold. rewrite <- extractCategoriesAndTags_fold in Hfold.
  cbn [fst snd] in Hfold. destruct Hfold as (_ & _ & Hcin & Htin).
  unfold PostManager.getAllTags, PostManager.getAllCategories,
    PostManager.getPostsByTag, PostManager.getPostsByCategory.
  rewrite Hps, Hcats, Htags. split.
  - intros tag. rewrite sort_Permutation, Htin, elem_of_nil, filter_nonempty, Hpm.
    split.
    + intros [[]|(p & Hp & Ht)]. exists p. split; [exact Hp|].
      now apply bool_decide_eq_true.
    + intros (p & Hp & Ht). right. exists p. split; [exact Hp|].
      now apply bool_decide_eq_true in Ht.
  - intros c. rewrite sort_Permutation, Hcin, elem_of_nil, filter_nonempty, Hpm.
    split.
    + intros [[]|(Hne & p & Hp & Ht)]. split; [exact Hne|]. exists p.
      split; [exact Hp|]. now apply bool_decide_eq_true.
    + intros (Hne & p & Hp & Ht). right. split; [exact Hne|]. exists p.
      split; [exact Hp|]. now apply bool_decide_eq_true in Ht.
Qed.

(** X15. In a collection whose slugs differ from one another,
    [getPostBySlug] yields a post exactly for the slug of a post of the
    collection, and it yields that post. *)
Theorem getPostBySlug_lookup (this : PostManager) :
  NoDup (map slug (posts this)) ->
  forall s p, PostManager.getPostBySlug this s = Some p <-> In p (posts this) /\ slug p = s.
Proof.
  unfold PostManager.getPostBySlug. intros Hnd s p. split.
  - intros Hfind. apply find_some in Hfind as [Hin Hs].
    apply bool_decide_eq_true in Hs. auto.
  - intros [Hin <-]. induction (posts this) as [|q l IH]; [destruct Hin|].
    cbn [List.find]. cbn [map] in Hnd. apply NoDup_cons in Hnd as [Hq Hnd].
    destruct (bool_decide_reflect (slug q = slug p)) as [Heq|Hne].
    + destruct Hin as [->|Hin]; [reflexivity|]. exfalso. apply Hq.
      rewrite Heq. apply list_elem_of_In, in_map, Hin.
    + destruct Hin as [->|Hin]; [congruence|]. now apply IH.
Qed.

Lemma findIndexFrom_at {A} (f : A -> bool) (i : Z) (front : list A) (x : A) (back : list A) :
  Forall (fun y => f y = false) front -> f x = true ->
  findIndexFrom f i (front ++ x :: back) = i + Z.of_nat (length front).
Proof.
  intros Hfront Hx. revert i. induction Hfront as [|y front Hy _ IH]; intros i;
    cbn [app findIndexFrom length].
  - rewrite Hx. lia.
  - rewrite Hy, IH. lia.
Qed.

Lemma findIndexFrom_none {A} (f : A -> bool) (i : Z) (l : list A) :
  Forall (fun y => f y = false) l -> findIndexFrom f i l = -1.
Proof.
  intros Hl. revert i. induction Hl as [|y l Hy _ IH]; intros i; cbn [findIndexFrom];
    [reflexivity|]. now rewrite Hy, IH.
Qed.

Lemma findIndex_slug (front : list Post) (p : Post) (back : list Post) :
  NoDup (map slug (front ++ p :: back)) ->
  findIndex (fun post => bool_decide (slug post = slug p)) (front ++ p :: back)
  = Z.of_nat (length front).
Proof.
  intros Hnd. unfold findIndex. rewrite findIndexFrom_at; [lia| |now apply bool_decide_eq_true].
  rewrite map_app in Hnd. cbn [map] in Hnd. apply NoDup_app in Hnd as (_ & Hdisj & _).
  apply List.Forall_forall. intros y Hy. apply bool_decide_eq_false. intros Heq.
  apply (Hdisj (slug y)).
  - apply list_elem_of_In, in_map, Hy.
  - rewrite Heq. left.
Qed.

(** X16. In a collection whose slugs differ from one another, the
    navigation of a post links the post that follows it as next, and
    the navigation of that one links the post back as previous. *)
Theorem postNavigation_neighbours (this : PostManager)
  (front : list Post) (p q : Post) (back : list Post) :
  NoDup (map slug (posts this)) ->
  posts this = front ++ p :: q :: back ->
  snd (PostManager.postNavigation this p) = Some q
  /\ fst (PostManager.postNavigation this q) = Some p.
Proof.
  intros Hnd Hposts. unfold PostManager.postNavigation. cbn [fst snd]. rewrite Hposts in *.
  split.
  - rewrite findIndex_slug by exact Hnd.
    rewrite length_app. cbn [length].
    destruct (Z.ltb_spec (Z.of_nat (length front)) (Z.of_nat (length front + S (S (length back))) - 1));
      [|lia].
    unfold at_index. destruct (Z.ltb_spec (Z.of_nat (length front) + 1) 0); [lia|].
    replace (Z.to_nat (Z.of_nat (length front) + 1)) with (length front + 1)%nat by lia.
    rewrite lookup_app_r by lia.
    replace (length front + 1 - length front)%nat with 1%nat by lia. reflexivity.
  - replace (front ++ p :: q :: back) with ((front ++ [p]) ++ q :: back) in *
      by now rewrite <- app_assoc.
    rewrite findIndex_slug by exact Hnd. rewrite length_app. cbn [length].
    destruct (Z.ltb_spec 0 (Z.of_nat (length front + 1))); [|lia].
    unfold at_index. destruct (Z.ltb_spec (Z.of_nat (length front + 1) - 1) 0); [lia|].
    replace (Z.to_nat (Z.of_nat (length front + 1) - 1)) with (length front + 0)%nat by lia.
    rewrite lookup_app_l by (rewrite length_app; cbn [length]; lia).
    rewrite lookup_app_r by lia.
    replace (length front + 0 - length front)%nat with 0%nat by lia. reflexivity.
Qed.

(** X17. The first post of the collection has no previous post, and in a
    collection whose slugs differ the last has no next one.  A post
    whose slug is not in the collection has no previous post, and the
    first post of the collection as its next. *)
Theorem postNavigation_ends (this : PostManager) (p : Post) :
  (forall back, posts this = p :: back -> fst (PostManager.postNavigation this p) = None)
  /\ (forall front, NoDup (map slug (posts this)) -> posts this = front ++ [p] ->
        snd (PostManager.postNavigation this p) = None)
  /\ (Forall (fun q => slug q <> slug p) (posts this) ->
        PostManager.postNavigation this p = (None, head (posts this))).
Proof.
  unfold PostManager.postNavigation. repeat split.
  - intros back ->. cbn [fst]. unfold findIndex. cbn [findIndexFrom].
    now rewrite bool_decide_eq_true_2.
  - intros front Hnd Hposts. cbn [snd]. rewrite Hposts in *.
    rewrite findIndex_slug by exact Hnd. rewrite length_app. cbn [length].
    destruct (Z.ltb_spec (Z.of_nat (length front)) (Z.of_nat (length front + 1) - 1));
      [lia|reflexivity].
  - intros Hnone. unfold findIndex. rewrite findIndexFrom_none.
    + cbn [Z.ltb Z.compare]. destruct (posts this) as [|q l]; [reflexivity|].
      cbn [length head]. destruct (Z.ltb_spec (-1) (Z.of_nat (S (length l)) - 1)); [|lia].
      reflexivity.
    + eapply List.Forall_impl; [|exact Hnone]. intros q Hq. now apply bool_decide_eq_false.
Qed.

End Listing.

(** ** The router: what a fragment dispatches to *)

(** X18. A route of the fixed set with a URL-safe slug makes the round
    trip: after [navigate], [handleRouteChange] calls the handler of
    that route with that slug and stores both. *)
Theorem navigate_handleRouteChange_slug (route slug : jsstring) (page : Page) :
  In route fixedRoutes -> slug <> [] -> forallb urlSafe slug = true ->
  let sent := final (Router.navigate route {[ js "slug" := slug ]} page) in
  completion (Router.handleRouteChange None sent)
  = Normal (Handler route {[ js "slug" := slug ]})
  /\ router (final (Router.handleRouteChange None sent))
     = mkRouter (Some route) {[ js "slug" := slug ]}.
Proof.
  intros Hroute Hne Hsafe.
  destruct (navigate_resolve_safe_slug route slug page Hroute Hne Hsafe) as [_ Hresolve].
  cbv zeta in *. unfold Router.handleRouteChange, Router.orURIError, setRouter. run.
  rewrite Hresolve. run.
  assert (Hin : bool_decide (route ∈ Router.routes ++ Router.inherited) = true).
  { unfold fixedRoutes in Hroute. cbn [In] in Hroute.
    repeat (destruct Hroute as [<-|Hroute]; [reflexivity|]). destruct Hroute. }
  rewrite Hin. run. cbn [router]. auto.
Qed.

(** X19. A fragment that begins with [#/], as the links of
    [generatePostNavigation] and the superseded router have it, is read
    as the home route whatever follows: when [handleRouteChange] is
    fulfilled, it has called the handler of [home]. *)
Theorem handleRouteChange_leading_slash (rest : jsstring) (page : Page) (d : Dispatch) :
  location_hash page = js "#/" ++ rest ->
  completion (Router.handleRouteChange None page) = Normal d ->
  exists params, d = Handler (js "home") params
    /\ router (final (Router.handleRouteChange None page))
       = mkRouter (Some (js "home")) params.
Proof.
  intros Hhash. unfold Router.handleRouteChange, Router.orURIError, Router.resolve, setRouter.
  run. rewrite Hhash. change (js "#/" ++ rest) with (35%N :: 47%N :: rest).
  cbn [truthyProp slice1 drop]. cbn [split1]. rewrite N.eqb_refl.
  destruct (split1 47 rest) as [part parts].
  destruct (Router.decodeInto _ _) as [params|]; run; [|discriminate].
  cbn [truthy]. change (bool_decide (js "home" ∈ Router.routes ++ Router.inherited)) with true.
  run. intros [= <-]. exists params. cbn [router]. auto.
Qed.

(** ** UTF-8 and UTF-16, there and back *)

Section Utf8.
Import URI.
Open Scope N_scope.

Lemma utf8Decode_first (b : N) (rest : list N) :
  utf8Decode None (b :: rest)
  = match lead b with
    | LeadAscii => Some b :: utf8Decode None rest
    | LeadOf n bits lo hi => utf8Decode (Some (n, bits, lo, hi)) rest
    | LeadInvalid => None :: utf8Decode None rest
    end.
Proof. reflexivity. Qed.

Lemma utf8Decode_next (n : nat) (bits lo hi b : N) (rest : list N) :
  lo <= b <= hi ->
  utf8Decode (Some (n, bits, lo, hi)) (b :: rest)
  = match n with
    | 1%nat | 0%nat => Some (bits * 0x40 + (b - 0x80)) :: utf8Decode None rest
    | S n' => utf8Decode (Some (n', bits * 0x40 + (b - 0x80), 0x80, 0xBF)) rest
    end.
Proof.
  intros [Hlo Hhi]. cbn [utf8Decode].
  apply N.leb_le in Hlo, Hhi. rewrite Hlo, Hhi. reflexivity.
Qed.

Lemma lead_ascii (b : N) : b < 0x80 -> lead b = LeadAscii.
Proof. intros Hb. unfold lead. destruct (N.leb_spec b 0x7F); [reflexivity|lia]. Qed.

Lemma lead_two (b : N) : 0xC2 <= b <= 0xDF -> lead b = LeadOf 1 (b - 0xC0) 0x80 0xBF.
Proof.
  intros Hb. unfold lead.
  destruct (N.leb_spec b 0x7F); [lia|].
  destruct (N.leb_spec 0xC2 b); [|lia]. destruct (N.leb_spec b 0xDF); [|lia].
  reflexivity.
Qed.

Lemma lead_three (b : N) :
  0xE0 <= b <= 0xEF ->
  lead b = LeadOf 2 (b - 0xE0) (if b =? 0xE0 then 0xA0 else 0x80)
                  (if b =? 0xED then 0x9F else 0xBF).
Proof.
  intros Hb. unfold lead.
  destruct (N.leb_spec b 0x7F); [lia|].
  destruct (N.leb_spec 0xC2 b); [|lia]. destruct (N.leb_spec b 0xDF); [lia|].
  destruct (N.leb_spec 0xE0 b); [|lia]. destruct (N.leb_spec b 0xEF); [|lia].
  reflexivity.
Qed.

Lemma lead_four (b : N) :
  0xF0 <= b <= 0xF4 ->
  lead b = LeadOf 3 (b - 0xF0) (if b =? 0xF0 then 0x90 else 0x80)
                  (if b =? 0xF4 then 0x8F else 0xBF).
Proof.
  intros Hb. unfold lead.
  destruct (N.leb_spec b 0x7F); [lia|].
  destruct (N.leb_spec 0xC2 b); [|lia]. destruct (N.leb_spec b 0xDF); [lia|].
  destruct (N.leb_spec 0xE0 b); [|lia]. destruct (N.leb_spec b 0xEF); [lia|].
  destruct (N.leb_spec 0xF0 b); [|lia]. destruct (N.leb_spec b 0xF4); [|lia].
  reflexivity.
Qed.

(** The decoder reads back the bytes of a code point that is not a
    surrogate. *)
Lemma utf8Decode_utf8 (cp : N) (rest : list N) :
  cp < 0xD800 \/ 0xE000 <= cp < 0x110000 ->
  utf8Decode None (utf8 cp ++ rest) = Some cp :: utf8Decode None rest.
Proof.
  intros Hcp. unfold utf8.
  destruct (N.ltb_spec cp 0x80); [|destruct (N.ltb_spec cp 0x800);
    [|destruct (N.ltb_spec cp 0x10000)]]; cbn [app].
  - rewrite utf8Decode_first, lead_ascii by assumption. reflexivity.
  - rewrite utf8Decode_first, lead_two by euclid.
    rewrite utf8Decode_next by euclid. do 2 f_equal. euclid.
  - rewrite utf8Decode_first, lead_three by euclid.
    rewrite utf8Decode_next by
      (destruct (N.eqb_spec (0xE0 + cp / 0x1000) 0xE0);
       destruct (N.eqb_spec (0xE0 + cp / 0x1000) 0xED); euclid).
    rewrite utf8Decode_next by euclid. do 2 f_equal. euclid.
  - rewrite utf8Decode_first, lead_four by euclid.
    rewrite utf8Decode_next by
      (destruct (N.eqb_spec (0xF0 + cp / 0x40000) 0xF0);
       destruct (N.eqb_spec (0xF0 + cp / 0x40000) 0xF4); euclid).
    rewrite utf8Decode_next by euclid.
    rewrite utf8Decode_next by euclid. do 2 f_equal. euclid.
Qed.

End Utf8.

Section Utf16.
Import URI.
Open Scope N_scope.

Lemma codePoints_wellFormed (s : jsstring) :
  wellFormed s = true ->
  exists cps, codePoints s = map Some cps
    /\ Forall (fun cp => cp < 0xD800 \/ 0xE000 <= cp < 0x110000) cps
    /\ flat_map codeUnits cps = s.
Proof.
  assert (Hall : forall n s, (length s <= n)%nat -> wellFormed s = true ->
            exists cps, codePoints s = map Some cps
              /\ Forall (fun cp => cp < 0xD800 \/ 0xE000 <= cp < 0x110000) cps
              /\ flat_map codeUnits cps = s).
  { clear s. induction n as [|n IH]; intros [|c s] Hlen Hs;
      cbn [length] in Hlen; try lia;
      try (exists []; repeat split; constructor).
    unfold wellFormed in Hs. cbn [forallb codePoints] in Hs.
    apply andb_true_iff in Hs as [[Hc H16]%andb_true_iff Hcps].
    apply N.ltb_lt in Hc.
    destruct (isHighSurrogate c) eqn:Hhigh.
    - destruct s as [|d s]; [discriminate|].
      cbn [forallb] in H16. apply andb_true_iff in H16 as [Hd H16]. apply N.ltb_lt in Hd.
      destruct (isLowSurrogate d) eqn:Hlow; [|discriminate].
      cbn [forallb] in Hcps. cbn [length] in Hlen.
      destruct (IH s ltac:(lia)) as (cps & Hcp & Hsc & Hunits).
      { unfold wellFormed. now rewrite H16, Hcps. }
      unfold isHighSurrogate in Hhigh. unfold isLowSurrogate in Hlow.
      apply andb_true_iff in Hhigh as [Hc1 Hc2], Hlow as [Hd1 Hd2].
      apply N.leb_le in Hc1, Hc2, Hd1, Hd2.
      exists ((0x10000 + (c - 0xD800) * 0x400 + (d - 0xDC00)) :: cps).
      cbn [codePoints map flat_map].
      replace (isHighSurrogate c) with true
        by (symmetry; unfold isHighSurrogate; apply andb_true_iff; split; now apply N.leb_le).
      replace (isLowSurrogate d) with true
        by (symmetry; unfold isLowSurrogate; apply andb_true_iff; split; now apply N.leb_le).
      rewrite Hcp. split; [reflexivity|]. split; [constructor; [lia|exact Hsc]|].
      rewrite Hunits. unfold codeUnits.
      destruct (N.ltb_spec (0x10000 + (c - 0xD800) * 0x400 + (d - 0xDC00)) 0x10000); [lia|].
      cbn [app]. f_equal; [euclid|]. f_equal. euclid.
    - destruct (isLowSurrogate c) eqn:Hlow; [discriminate|].
      cbn [forallb] in Hcps.
      destruct (IH s ltac:(lia)) as (cps & Hcp & Hsc & Hunits).
      { unfold wellFormed. now rewrite H16, Hcps. }
      exists (c :: cps). cbn [codePoints map flat_map]. rewrite Hhigh, Hlow, Hcp.
      unfold isHighSurrogate in Hhigh. unfold isLowSurrogate in Hlow.
      apply andb_false_iff in Hhigh, Hlow. rewrite !N.leb_gt in Hhigh, Hlow.
      split; [reflexivity|]. split; [constructor; [lia|exact Hsc]|].
      rewrite Hunits. unfold codeUnits.
      destruct (N.ltb_spec c 0x10000); [reflexivity|lia]. }
  intros Hs. now apply (Hall (length s)).
Qed.

Lemma utf8Decode_flat_map (cps : list N) :
  Forall (fun cp => cp < 0xD800 \/ 0xE000 <= cp < 0x110000) cps ->
  utf8Decode None (flat_map utf8 cps) = map Some cps.
Proof.
  induction 1 as [|cp cps Hcp _ IH]; [reflexivity|].
  cbn [flat_map map]. rewrite utf8Decode_utf8 by exact Hcp. now rewrite IH.
Qed.

Lemma utf8Bytes_wellFormed (s : jsstring) (cps : list N) :
  codePoints s = map Some cps -> utf8Bytes s = flat_map utf8 cps.
Proof.
  unfold utf8Bytes. intros ->. induction cps as [|cp cps IH]; [reflexivity|].
  cbn [map flat_map default from_option id]. now rewrite IH.
Qed.

(** A text of whole code points comes back from its UTF-8 bytes. *)
Lemma utf8DecodeWithoutBOM_utf8Bytes (s : jsstring) :
  wellFormed s = true -> utf8DecodeWithoutBOM (utf8Bytes s) = s.
Proof.
  intros Hwf. unfold utf8DecodeWithoutBOM.
  destruct (codePoints_wellFormed s Hwf) as (cps & Hcp & Hsc & Hunits).
  rewrite (utf8Bytes_wellFormed s cps Hcp).
  rewrite utf8Decode_flat_map by exact Hsc. rewrite <- Hunits.
  clear. induction cps as [|cp cps IH]; [reflexivity|].
  cbn [map flat_map default from_option id]. now rewrite IH.
Qed.

End Utf16.

(** ** The query of the superseded router, there and back *)

Section FormEncoding.
Import URI.
Open Scope N_scope.

Lemma hexValue_hexDigit (d : N) : d < 16 -> hexValue (hexDigit d) = Some d.
Proof.
  intros Hd. unfold hexValue, hexDigit. destruct (N.ltb_spec d 10).
  - destruct (N.leb_spec 48 (48 + d)); [|lia]. destruct (N.leb_spec (48 + d) 57); [|lia].
    cbn [andb]. f_equal. lia.
  - destruct (N.leb_spec 48 (55 + d)); [|lia]. destruct (N.leb_spec (55 + d) 57); [lia|].
    destruct (N.leb_spec 65 (55 + d)); [|lia]. destruct (N.leb_spec (55 + d) 70); [|lia].
    cbn [andb]. f_equal. lia.
Qed.

Lemma hexDigit_formUnit (d : N) :
  d < 16 -> formUnit (hexDigit d) = true /\ hexDigit d <> 43 /\ hexDigit d <> 37.
Proof.
  intros Hd. unfold formUnit, isFormSafe, isAlphaNum, hexDigit.
  destruct (N.ltb_spec d 10); (split; [|lia]).
  - destruct (N.leb_spec 48 (48 + d)); [|lia]. destruct (N.leb_spec (48 + d) 57); [|lia].
    reflexivity.
  - destruct (N.leb_spec 65 (55 + d)); [|lia]. destruct (N.leb_spec (55 + d) 90); [|lia].
    cbn [andb]. now rewrite orb_true_r.
Qed.

Lemma isFormSafe_spec (b : N) :
  isFormSafe b = true -> b <> 43 /\ b <> 37 /\ b <> 32.
Proof.
  unfold isFormSafe, isAlphaNum.
  rewrite !orb_true_iff, !andb_true_iff, !N.leb_le, !N.eqb_eq. lia.
Qed.

Lemma formUnit_spec (c : N) :
  formUnit c = true ->
  plainInFragment c = true
  /\ (c =? 61) = false /\ (c =? 38) = false /\ (c =? 63) = false /\ (c =? 47) = false.
Proof.
  unfold formUnit, isFormSafe, isAlphaNum, plainInFragment.
  rewrite !orb_true_iff, !andb_true_iff, negb_true_iff, !orb_false_iff.
  rewrite !N.leb_le, N.ltb_lt, !N.eqb_eq, !N.eqb_neq. lia.
Qed.

Lemma percentDecode_literal (b : N) (rest : list N) :
  b <> 37 -> percentDecode (b :: rest) = b :: percentDecode rest.
Proof.
  intros Hb. cbn [percentDecode]. apply N.eqb_neq in Hb. rewrite Hb.
  now destruct rest as [|h [|l rest']].
Qed.

Lemma percentDecode_escape (x y : N) (rest : list N) :
  x < 16 -> y < 16 ->
  percentDecode (37 :: hexDigit x :: hexDigit y :: rest) = (16 * x + y) :: percentDecode rest.
Proof.
  intros Hx Hy. cbn [percentDecode]. rewrite N.eqb_refl, !hexValue_hexDigit by assumption.
  reflexivity.
Qed.

(** The bytes of a name or value come back from what the serializer
    writes for them. *)
Lemma percentDecode_formEncode (bytes : list N) :
  Forall (fun b => b < 256) bytes ->
  percentDecode
    (plusToSpace (flat_map (fun b => if isFormSafe b then [b]
                                     else if b =? 32 then [43]
                                     else percentEncode b) bytes))
  = bytes
  /\ forallb formUnit
       (flat_map (fun b => if isFormSafe b then [b]
                           else if b =? 32 then [43]
                           else percentEncode b) bytes) = true.
Proof.
  induction 1 as [|b bytes Hb _ [IHd IHu]]; [auto|].
  cbn [flat_map]. unfold plusToSpace in *. rewrite map_app, forallb_app, IHu.
  destruct (isFormSafe b) eqn:Hsafe.
  - destruct (isFormSafe_spec b Hsafe) as (H43 & H37 & _).
    cbn [map app forallb]. apply N.eqb_neq in H43. rewrite H43.
    rewrite percentDecode_literal by exact H37. split; [f_equal; exact IHd|].
    unfold formUnit. now rewrite Hsafe.
  - destruct (N.eqb_spec b 32) as [->|H32].
    + cbn [map app forallb]. rewrite percentDecode_literal by discriminate.
      split; [f_equal; exact IHd|reflexivity].
    + unfold percentEncode. cbn [map app forallb].
      destruct (hexDigit_formUnit (b / 16)) as (Hu1 & Hp1 & _); [euclid|].
      destruct (hexDigit_formUnit (b mod 16)) as (Hu2 & Hp2 & _); [euclid|].
      apply N.eqb_neq in Hp1, Hp2. rewrite Hp1, Hp2, Hu1, Hu2.
      rewrite percentDecode_escape by euclid.
      split; [f_equal; [euclid|exact IHd]|reflexivity].
Qed.

Lemma utf8Bytes_bytes (s : jsstring) :
  wellFormed s = true -> Forall (fun b => b < 256) (utf8Bytes s).
Proof.
  intros Hwf. destruct (codePoints_wellFormed s Hwf) as (cps & Hcp & Hsc & _).
  rewrite (utf8Bytes_wellFormed s cps Hcp). clear Hcp.
  induction Hsc as [|cp cps Hcp _ IH]; [constructor|].
  cbn [flat_map]. apply Forall_app. split; [|exact IH]. apply utf8_bytes. lia.
Qed.

Lemma formEncode_units (s : jsstring) :
  wellFormed s = true -> forallb formUnit (formEncode s) = true.
Proof.
  intros Hwf. unfold formEncode.
  now destruct (percentDecode_formEncode (utf8Bytes s) (utf8Bytes_bytes s Hwf)).
Qed.

Lemma formEncode_decoded (s : jsstring) :
  wellFormed s = true ->
  utf8DecodeWithoutBOM (percentDecode (plusToSpace (formEncode s))) = s.
Proof.
  intros Hs. assert (Hwf : wellFormed s = true).
  { exact Hs. }
  unfold formEncode.
  destruct (percentDecode_formEncode (utf8Bytes s) (utf8Bytes_bytes s Hwf)) as [-> _].
  now apply utf8DecodeWithoutBOM_utf8Bytes.
Qed.

Lemma forallb_formUnit (s : jsstring) :
  forallb formUnit s = true ->
  forallb plainInFragment s = true
  /\ forallb (fun c => negb (c =? 61)) s = true
  /\ forallb (fun c => negb (c =? 38)) s = true
  /\ forallb (fun c => negb (c =? 63)) s = true
  /\ forallb (fun c => negb (c =? 47)) s = true.
Proof.
  induction s as [|c s IH]; cbn [forallb]; [auto 6|].
  intros [Hc Hs]%andb_true_iff.
  destruct (formUnit_spec c Hc) as (-> & -> & -> & -> & ->).
  destruct (IH Hs) as (-> & -> & -> & -> & ->). auto 6.
Qed.

(** One [name=value] piece of a serialized query. *)
Lemma parsePair_piece (name value : jsstring) :
  wellFormed name = true -> wellFormed value = true ->
  parsePair (formEncode name ++ 61 :: formEncode value) = (name, value).
Proof.
  intros Hn Hv.
  assert (Hnw : wellFormed name = true)
    by exact Hn.
  assert (Hvw : wellFormed value = true)
    by exact Hv.
  destruct (forallb_formUnit _ (formEncode_units name Hnw)) as (_ & Hn61 & _).
  destruct (forallb_formUnit _ (formEncode_units value Hvw)) as (_ & Hv61 & _).
  unfold parsePair. rewrite (split1_at 61 _ _ Hn61), (split1_without 61 _ Hv61).
  cbn [fst snd foldl]. now rewrite !formEncode_decoded.
Qed.

Lemma plain_utf8Bytes (s : jsstring) :
  forallb plainInFragment s = true -> utf8Bytes s = s.
Proof.
  intros Hplain. unfold utf8Bytes.
  destruct (codePoints_plain s Hplain) as [-> _].
  induction s as [|c s IH]; [reflexivity|].
  cbn [forallb] in Hplain. apply andb_true_iff in Hplain as [Hc Hs].
  cbn [map flat_map default from_option id]. rewrite (IH Hs).
  unfold plainInFragment in Hc. rewrite !andb_true_iff, N.ltb_lt, N.leb_le in Hc.
  unfold utf8. destruct (N.ltb_spec c 0x80); [reflexivity|lia].
Qed.

Lemma formSerialize_units (pairs : list (jsstring * jsstring)) :
  Forall (fun kv => wellFormed (fst kv) = true /\ wellFormed (snd kv) = true) pairs ->
  forallb (fun c => formUnit c || (c =? 61) || (c =? 38)) (formSerialize pairs) = true.
Proof.
  induction 1 as [|[name value] pairs [Hn Hv] _ IH]; [reflexivity|].
  cbn [fst snd] in *. cbn [formSerialize].
  assert (Hnw : wellFormed name = true)
    by exact Hn.
  assert (Hvw : wellFormed value = true)
    by exact Hv.
  assert (Hweak : forall s, forallb formUnit s = true ->
            forallb (fun c => formUnit c || (c =? 61) || (c =? 38)) s = true).
  { intros s Hs. rewrite forallb_forall in *. intros c Hc. now rewrite (Hs c Hc). }
  rewrite !forallb_app, (Hweak _ (formEncode_units name Hnw)),
    (Hweak _ (formEncode_units value Hvw)).
  cbn [forallb]. destruct pairs; [reflexivity|]. rewrite forallb_app. cbn [forallb].
  rewrite IH. reflexivity.
Qed.

(** What [URLSearchParams] reads from what it serializes. *)
Lemma URLSearchParams_formSerialize (pairs : list (jsstring * jsstring)) :
  Forall (fun kv => wellFormed (fst kv) = true /\ wellFormed (snd kv) = true) pairs ->
  URLSearchParams (formSerialize pairs) = pairs.
Proof.
  intros Hpairs. unfold URLSearchParams.
  assert (Hunits := formSerialize_units pairs Hpairs).
  assert (Hplain : forallb plainInFragment (formSerialize pairs) = true).
  { rewrite forallb_forall in *. intros c Hc. specialize (Hunits c Hc).
    apply orb_true_iff in Hunits as [[Hu|He]%orb_true_iff|He].
    - now destruct (formUnit_spec c Hu).
    - apply N.eqb_eq in He as ->. reflexivity.
    - apply N.eqb_eq in He as ->. reflexivity. }
  assert (Hhead : match formSerialize pairs with 63 :: rest => rest | _ => formSerialize pairs end
                  = formSerialize pairs).
  { destruct (formSerialize pairs) as [|c rest]; [reflexivity|].
    cbn [forallb] in Hunits. apply andb_true_iff in Hunits as [Hc _].
    destruct (N.eqb_spec c 63) as [->|Hne]; [discriminate|].
    destruct c as [|p]; [reflexivity|].
    repeat (destruct p as [p|p|]; try reflexivity). congruence. }
  rewrite Hhead, (plain_utf8Bytes _ Hplain). clear Hunits Hplain Hhead.
  induction Hpairs as [|[name value] pairs [Hn Hv] Hpairs IH]; [reflexivity|].
  cbn [fst snd] in *.
  assert (Hnw : wellFormed name = true)
    by exact Hn.
  assert (Hvw : wellFormed value = true)
    by exact Hv.
  destruct (forallb_formUnit _ (formEncode_units name Hnw)) as (_ & _ & Hn38 & _).
  destruct (forallb_formUnit _ (formEncode_units value Hvw)) as (_ & _ & Hv38 & _).
  set (piece := formEncode name ++ 61 :: formEncode value).
  assert (Hpiece : forallb (fun c => negb (c =? 38)) piece = true).
  { unfold piece. rewrite forallb_app. cbn [forallb]. now rewrite Hn38, Hv38. }
  assert (Htruthy : truthy piece = true) by (unfold piece; now destruct (formEncode name)).
  assert (Hshape : formSerialize ((name, value) :: pairs)
                   = piece ++ match pairs with [] => [] | _ => 38 :: formSerialize pairs end).
  { unfold piece. cbn [formSerialize app]. rewrite <- app_assoc. cbn [app].
    now destruct pairs. }
  rewrite Hshape. unfold split in *. destruct pairs as [|pair pairs].
  - rewrite app_nil_r, (split1_without 38 _ Hpiece). cbn [List.filter].
    rewrite Htruthy. cbn [map]. unfold piece. now rewrite parsePair_piece.
  - rewrite (split1_at 38 _ _ Hpiece).
    destruct (split1 38 (formSerialize (pair :: pairs))) as [hd tl].
    cbn [fst snd].
    change (List.filter truthy (piece :: hd :: tl))
      with (if truthy piece then piece :: List.filter truthy (hd :: tl)
            else List.filter truthy (hd :: tl)).
    rewrite Htruthy. cbn [map]. rewrite IH.
    unfold piece. now rewrite parsePair_piece.
Qed.

End FormEncoding.

(** ** The router: an address bar without percent signs *)

Section NoPercent.
Import URI.
Open Scope N_scope.

Lemma split1_units (sep : N) (s : jsstring) (P : N -> Prop) :
  Forall P s -> Forall (Forall P) (split sep s).
Proof.
  unfold split. induction 1 as [|c s Hc _ IH]; cbn [split1].
  - repeat constructor.
  - destruct (split1 sep s) as [hd tl]. apply Forall_cons_1 in IH as [Hhd Htl].
    destruct (c =? sep); repeat constructor; assumption.
Qed.

Lemma codePoints_units (s : jsstring) (P : N -> Prop) :
  Forall P s -> (forall cp, 0x80 <= cp -> P cp) ->
  Forall P (map (default 0xFFFD) (codePoints s)).
Proof.
  intros Hs Hbig.
  assert (Hall : forall n s, (length s <= n)%nat -> Forall P s ->
            Forall P (map (default 0xFFFD) (codePoints s))).
  { clear s Hs. induction n as [|n IH]; intros [|c s] Hlen Hs;
      cbn [length] in Hlen; try lia; cbn [codePoints map]; try constructor.
    apply Forall_cons_1 in Hs as [Hc Hs].
    destruct (isHighSurrogate c).
    - destruct s as [|d s]; cbn [map default from_option id];
        [repeat constructor; apply Hbig; lia|].
      apply Forall_cons_1 in Hs as [Hd Hs]. cbn [length] in Hlen.
      destruct (isLowSurrogate d); cbn [map default from_option id].
      + constructor; [apply Hbig; lia|]. apply IH; [lia|assumption].
      + constructor; [apply Hbig; lia|]. apply IH; [cbn [length]; lia|now constructor].
    - destruct (isLowSurrogate c); cbn [map default from_option id].
      + constructor; [apply Hbig; lia|]. apply IH; [lia|assumption].
      + constructor; [assumption|]. apply IH; [lia|assumption]. }
  now apply (Hall (length s)).
Qed.

Lemma utf8_units (cp : N) : cp <> 37 -> Forall (fun b => b <> 37) (utf8 cp).
Proof.
  intros Hcp. unfold utf8.
  destruct (N.ltb_spec cp 0x80); [repeat constructor; assumption|].
  destruct (N.ltb_spec cp 0x800); [repeat constructor; euclid|].
  destruct (N.ltb_spec cp 0x10000); repeat constructor; euclid.
Qed.

Lemma utf8Bytes_units (s : jsstring) :
  Forall (fun c => c <> 37) s -> Forall (fun b => b <> 37) (utf8Bytes s).
Proof.
  intros Hs. unfold utf8Bytes.
  assert (Hbig : forall cp, 0x80 <= cp -> cp <> 37) by (intros; lia).
  pose proof (codePoints_units s (fun c => c <> 37) Hs Hbig) as Hcps. clear Hbig.
  induction (codePoints s) as [|cp cps IH]; [constructor|].
  cbn [map] in Hcps. apply Forall_cons_1 in Hcps as [Hcp Hcps].
  cbn [flat_map]. apply Forall_app. split; [now apply utf8_units|now apply IH].
Qed.

Lemma percentDecode_units (bytes : list N) :
  Forall (fun b => b <> 37) bytes -> percentDecode bytes = bytes.
Proof.
  induction 1 as [|b bytes Hb _ IH]; [reflexivity|].
  rewrite percentDecode_literal by exact Hb. now rewrite IH.
Qed.

(** The decoder yields no code point below 64 from a sequence of two
    bytes or more. *)
Lemma utf8Decode_units (bytes : list N) (pending : option (nat * N * N * N)) :
  Forall (fun b => b <> 37) bytes ->
  match pending with
  | Some (n, bits, lo, hi) => 1 <= bits \/ 0x90 <= lo /\ (2 <= n)%nat
  | None => True
  end ->
  Forall (fun cp => cp <> Some 37) (utf8Decode pending bytes).
Proof.
  intros Hbytes. revert pending.
  induction Hbytes as [|b bytes Hb _ IH]; intros pending Hinv.
  - destruct pending; repeat constructor; discriminate.
  - assert (Hstart : Forall (fun cp => cp <> Some 37)
                       match lead b with
                       | LeadAscii => Some b :: utf8Decode None bytes
                       | LeadOf n bits lo hi => utf8Decode (Some (n, bits, lo, hi)) bytes
                       | LeadInvalid => None :: utf8Decode None bytes
                       end).
    { destruct (lead b) as [|n bits lo hi|] eqn:Hlead.
      - constructor; [congruence|now apply IH].
      - apply IH. unfold lead in Hlead.
        destruct (b <=? 0x7F); [discriminate|].
        destruct (N.leb_spec 0xC2 b); cbn [andb] in Hlead.
        + destruct (N.leb_spec b 0xDF); cbn [andb] in Hlead;
            [injection Hlead as <- <- <- <-; left; lia|].
          destruct (N.leb_spec 0xE0 b); cbn [andb] in Hlead; [|lia].
          destruct (N.leb_spec b 0xEF); cbn [andb] in Hlead.
          * injection Hlead as <- <- <- <-.
            destruct (N.eqb_spec b 0xE0); [right; split; lia|left; lia].
          * destruct (N.leb_spec 0xF0 b); cbn [andb] in Hlead; [|lia].
            destruct (b <=? 0xF4); [|discriminate].
            injection Hlead as <- <- <- <-.
            destruct (N.eqb_spec b 0xF0); [right; split; lia|left; lia].
        + destruct (N.leb_spec 0xE0 b); [lia|]. cbn [andb] in Hlead.
          destruct (N.leb_spec 0xF0 b); [lia|]. discriminate.
      - constructor; [discriminate|now apply IH]. }
    cbn [utf8Decode]. destruct pending as [[[[n bits] lo] hi]|]; [|exact Hstart].
    destruct (N.leb_spec lo b); cbn [andb]; [|constructor; [discriminate|exact Hstart]].
    destruct (b <=? hi); [|constructor; [discriminate|exact Hstart]].
    destruct n as [|[|n]].
    + constructor; [|now apply IH]. intros [= Heq]. lia.
    + constructor; [|now apply IH]. intros [= Heq]. lia.
    + apply IH. left. lia.
Qed.

Lemma utf8DecodeWithoutBOM_units (bytes : list N) :
  Forall (fun b => b <> 37) bytes ->
  Forall (fun c => c <> 37) (utf8DecodeWithoutBOM bytes).
Proof.
  intros Hbytes. unfold utf8DecodeWithoutBOM.
  pose proof (utf8Decode_units _ None Hbytes I) as Hcps.
  induction Hcps as [|cp cps Hcp _ IH]; [constructor|].
  cbn [flat_map]. apply Forall_app. split; [|exact IH].
  destruct cp as [cp|]; cbn [default from_option id]; [|repeat constructor; discriminate].
  unfold codeUnits. destruct (N.ltb_spec cp 0x10000);
    repeat constructor; try congruence; euclid.
Qed.

Lemma parsePair_units (piece : list N) :
  Forall (fun b => b <> 37) piece -> Forall (fun c => c <> 37) (snd (parsePair piece)).
Proof.
  intros Hpiece. unfold parsePair.
  pose proof (split1_units 61 piece _ Hpiece) as Hpieces. unfold split in Hpieces.
  destruct (split1 61 piece) as [name others]. cbn [snd].
  apply Forall_cons_1 in Hpieces as [_ Hothers].
  apply utf8DecodeWithoutBOM_units.
  assert (Hvalue : Forall (fun b => b <> 37)
                     match others with
                     | [] => []
                     | v :: vs => foldl (fun acc x => acc ++ [61] ++ x) v vs
                     end).
  { destruct Hothers as [|v vs Hv Hvs]; [constructor|].
    revert v Hv. induction Hvs as [|x vs Hx _ IH]; intros v Hv; cbn [foldl]; [exact Hv|].
    apply IH. apply Forall_app. split; [exact Hv|]. constructor; [discriminate|exact Hx]. }
  rewrite percentDecode_units; unfold plusToSpace.
  - apply Forall_map. eapply List.Forall_impl; [|exact Hvalue].
    intros b Hb. cbn beta. destruct (b =? 43); [discriminate|exact Hb].
  - apply Forall_map. eapply List.Forall_impl; [|exact Hvalue].
    intros b Hb. cbn beta. destruct (b =? 43); [discriminate|exact Hb].
Qed.

Lemma URLSearchParams_units (init : jsstring) :
  Forall (fun c => c <> 37) init ->
  Forall (fun kv => Forall (fun c => c <> 37) (snd kv)) (URLSearchParams init).
Proof.
  intros Hinit. unfold URLSearchParams.
  assert (Hinit' : Forall (fun c => c <> 37)
                     match init with 63 :: rest => rest | _ => init end).
  { destruct init as [|c rest]; [constructor|].
    pose proof (Forall_cons_1 _ _ _ Hinit) as [_ Hrest].
    destruct c as [|p]; [exact Hinit|].
    repeat (destruct p as [p|p|]; try exact Hinit). exact Hrest. }
  apply Forall_map.
  pose proof (split1_units 38 _ _ (utf8Bytes_units _ Hinit')) as Hpieces.
  apply List.Forall_forall. intros piece Hpiece. apply filter_In in Hpiece as [Hpiece _].
  rewrite List.Forall_forall in Hpieces. apply parsePair_units. now apply Hpieces.
Qed.

Lemma decodeURIComponent_units (s : jsstring) :
  Forall (fun c => c <> 37) s -> decodeURIComponent s = Some s.
Proof.
  intros Hs. unfold decodeURIComponent.
  assert (Htokens : tokens s = Some (map Lit s)).
  { induction Hs as [|c s Hc _ IH]; [reflexivity|]. cbn [tokens map].
    apply N.eqb_neq in Hc. now rewrite Hc, IH. }
  rewrite Htokens. clear. induction s as [|c s IH]; [reflexivity|].
  cbn [map decodeTokens]. rewrite IH. reflexivity.
Qed.

Lemma decodeInto_units (pairs : list (jsstring * jsstring))
  (routeParams : gmap jsstring jsstring) :
  Forall (fun kv => Forall (fun c => c <> 37) (snd kv)) pairs ->
  is_Some (Router.decodeInto pairs routeParams).
Proof.
  intros Hpairs. revert routeParams.
  induction Hpairs as [|[key value] pairs Hv _ IH]; intros routeParams;
    cbn [Router.decodeInto]; [eauto|].
  cbn [snd] in Hv. rewrite (decodeURIComponent_units value Hv). apply IH.
Qed.

(** X20. [handleRouteChange] is fulfilled whenever the address bar holds
    no percent sign: the [URIError] of a malformed escape is the only
    way it is rejected. *)
Theorem handleRouteChange_without_percent (page : Page) :
  Forall (fun c => c <> 37) (location_hash page) ->
  exists d, completion (Router.handleRouteChange None page) = Normal d.
Proof.
  intros Hhash. unfold Router.handleRouteChange, Router.orURIError, Router.resolve, setRouter.
  run. cbn [truthyProp].
  destruct (split1 47 (slice1 (location_hash page))) as [route pathParts].
  pose proof (split1_units 63 _ _ Hhash) as Hpieces.
  assert (Hquery : Forall (fun c => c <> 37)
                     (default [] (split 63 (location_hash page) !! 1%nat))).
  { destruct (split 63 (location_hash page) !! 1%nat) as [q|] eqn:Hq; [|constructor].
    cbn [default from_option id]. rewrite List.Forall_forall in Hpieces.
    apply Hpieces. apply list_elem_of_In. eapply list_elem_of_lookup_2. exact Hq. }
  destruct (decodeInto_units _ (match pathParts with
                                | part :: _ => {[ js "slug" := part ]}
                                | [] => ∅
                                end) (URLSearchParams_units _ Hquery)) as [params Hparams].
  rewrite Hparams. run.
  destruct (bool_decide _); run; eauto.
Qed.

End NoPercent.

(** ** The router: what [navigate] stores *)

Lemma addQuery_result (params : gmap jsstring jsstring) (key url : jsstring) (page : Page) :
  (exists url', Router.addQuery params key url page = mkResult [] page (Normal url'))
  \/ Router.addQuery params key url page = mkResult [] page (Throw URIError).
Proof.
  unfold Router.addQuery, Router.orURIError.
  destruct (truthyProp (params !! key)); [|left; eexists; reflexivity].
  destruct (URI.encodeURIComponent (default [] (params !! key))) as [encoded|].
  - left. eexists. reflexivity.
  - right. reflexivity.
Qed.

(** X25. For a route of the fixed set, [navigate] stores the route and
    the parameters first: they are stored whether it returns or throws.
    It leaves the post manager and the search manager alone, and it
    throws a [URIError] only, before the address bar is touched. *)
Theorem navigate_stores_first (route : jsstring) (params : gmap jsstring jsstring)
  (page : Page) :
  In route fixedRoutes ->
  let r := Router.navigate route params page in
  router (final r) = mkRouter (Some route) params
  /\ postManager (final r) = postManager page
  /\ searchManager (final r) = searchManager page
  /\ ((completion r = Normal tt
       /\ exists url, location_hash (final r) = URI.hashAfterAssign url
            /\ trace r = [AssignHash url; UpdateActiveNavigation route; CloseSidebar])
      \/ (completion r = Throw URIError
          /\ location_hash (final r) = location_hash page /\ trace r = [])).
Proof.
  intros _. cbv zeta. unfold Router.navigate, setRouter. rewrite bind_modify.
  set (stored := mkPage (postManager page) (searchManager page)
                        (mkRouter (Some route) params) (location_hash page)).
  set (url0 := if truthyProp (params !! js "slug")
               then (js "#" ++ route) ++ js "/" ++ default [] (params !! js "slug")
               else js "#" ++ route).
  destruct (addQuery_result params (js "category") url0 stored) as [[url1 H1]|H1];
    [|rewrite (bind_throw _ _ _ _ _ _ H1); cbn [completion final trace stored router postManager searchManager location_hash]; auto 10].
  rewrite (bind_normal _ _ _ _ _ _ H1). cbn [trace final completion app].
  destruct (addQuery_result params (js "tag") url1 stored) as [[url2 H2]|H2];
    [|rewrite (bind_throw _ _ _ _ _ _ H2); cbn [completion final trace stored router postManager searchManager location_hash]; auto 10].
  rewrite (bind_normal _ _ _ _ _ _ H2). cbn [trace final completion app].
  destruct (addQuery_result params (js "q") url2 stored) as [[url3 H3]|H3];
    [|rewrite (bind_throw _ _ _ _ _ _ H3); cbn [completion final trace stored router postManager searchManager location_hash]; auto 10].
  rewrite (bind_normal _ _ _ _ _ _ H3). cbn [trace final completion app].
  unfold assignHash, bind, emit, modify.
  cbn [trace final completion app router postManager searchManager location_hash stored].
  repeat split. left. split; [reflexivity|]. exists url3. auto.
Qed.

(** ** The search box: a query of two code units or more *)

Section SearchBoxLong.
Context `{Browser} (net : Network).

Lemma navigate_search (query : jsstring) (page : Page) :
  Router.navigate (js "search") {[ js "query" := query ]} page
  = mkResult [AssignHash (js "#search"); UpdateActiveNavigation (js "search"); CloseSidebar]
      (mkPage (postManager page) (searchManager page)
              (mkRouter (Some (js "search")) {[ js "query" := query ]}) (js "#search"))
      (Normal tt).
Proof.
  unfold Router.navigate, Router.addQuery, setRouter, assignHash.
  rewrite !lookup_singleton_ne by (intros Heq; vm_compute in Heq; discriminate).
  cbn [truthyProp].
  apply result_eq; run; reflexivity.
Qed.

Lemma handleSearch_long (query : jsstring) (page : Page) :
  (2 <= length (trim query))%nat ->
  let load := PostManager.loadAllPosts net (postManager page) in
  SearchManager.handleSearch net query page
  = match completion load with
    | Normal _ =>
        mkResult
          (trace load ++ [AssignHash (js "#search"); UpdateActiveNavigation (js "search");
                          CloseSidebar])
          (mkPage (final load)
                  (mkSearchManager (trim query)
                     (PostManager.searchPosts (final load) (trim query)))
                  (mkRouter (Some (js "search")) {[ js "query" := trim query ]})
                  (js "#search"))
          (Normal tt)
    | Throw e =>
        mkResult
          (trace load ++ [ConsoleError (js "Search error:") e;
                          ShowError (js "An error occurred while searching. Please try again.")])
          (mkPage (final load)
                  (mkSearchManager (trim query) (searchResults (searchManager page)))
                  (router page) (location_hash page))
          (Normal tt)
    end.
Proof.
  intros Hlong. unfold SearchManager.handleSearch.
  destruct (length (trim query)) as [|[|n]] eqn:Hlen; [lia|lia|].
  cbn [Nat.eqb Nat.ltb Nat.leb]. clear Hlen Hlong. cbv zeta.
  unfold setSearchManager. rewrite bind_get, bind_modify.
  cbn [postManager searchManager router location_hash].
  destruct (PostManager.loadAllPosts net (postManager page)) as [t f c] eqn:Hload.
  cbn [completion final trace].
  match goal with
  | |- tryCatch (bind ?m ?k) ?h ?s = _ =>
      assert (Hz : m s = mkResult t (mkPage f (searchManager s) (router s) (location_hash s)) c)
        by (unfold withPostManager, zoom; cbn [postManager]; now rewrite Hload)
  end.
  destruct c as [ps|e].
  - erewrite tryCatch_normal; [reflexivity|].
    erewrite bind_normal by exact Hz.
    rewrite bind_get, bind_modify, navigate_search.
    cbn [completion final trace postManager searchManager router location_hash
         currentQuery searchResults]. reflexivity.
  - erewrite tryCatch_throw by (erewrite bind_throw by exact Hz; reflexivity).
    rewrite bind_emit. reflexivity.
Qed.

(** X21. For a query of two code units or more once trimmed,
    [handleSearch] is never rejected and records the trimmed query.
    When the posts load, it stores the posts [searchPosts] finds for the
    trimmed query and navigates to [#search]; when loading fails, it
    shows an error and leaves the results, the route and the address bar
    as they were. *)
Theorem handleSearch_long_query (query : jsstring) (page : Page) :
  (2 <= length (trim query))%nat ->
  let r := SearchManager.handleSearch net query page in
  let load := PostManager.loadAllPosts net (postManager page) in
  completion r = Normal tt
  /\ currentQuery (searchManager (final r)) = trim query
  /\ postManager (final r) = final load
  /\ ((exists ps, completion load = Normal ps
         /\ searchResults (searchManager (final r))
            = PostManager.searchPosts (final load) (trim query)
         /\ location_hash (final r) = js "#search"
         /\ router (final r) = mkRouter (Some (js "search")) {[ js "query" := trim query ]})
      \/ (exists e, completion load = Throw e
            /\ searchResults (searchManager (final r)) = searchResults (searchManager page)
            /\ location_hash (final r) = location_hash page
            /\ router (final r) = router page
            /\ In (ShowError (js "An error occurred while searching. Please try again."))
                  (trace r))).
Proof.
  intros Hlong. cbv zeta. rewrite (handleSearch_long query page Hlong). cbv zeta.
  destruct (completion (PostManager.loadAllPosts net (postManager page))) as [ps|e];
    cbn [completion final trace postManager searchManager router location_hash
         currentQuery searchResults].
  - do 3 (split; [reflexivity|]). left. exists ps. auto.
  - do 3 (split; [reflexivity|]). right. exists e. repeat split.
    apply in_or_app. right. right. now left.
Qed.

End SearchBoxLong.

(** ** The superseded router: there and back *)

Section OldRouter.
Import URI.

Lemma map_fmap {A B} (f : A -> B) (l : list A) : map f l = f <$> l.
Proof. induction l as [|x l IH]; [reflexivity|]. cbn [map]. now rewrite IH. Qed.

Lemma foldl_setProperty_list_to_map (l : list (jsstring * jsstring))
  (m : gmap jsstring jsstring) :
  NoDup (map fst l) -> ~ In (js "__proto__") (map fst l) ->
  foldl (fun acc kv => setProperty (fst kv) (snd kv) acc) m l = list_to_map l ∪ m.
Proof.
  revert m. induction l as [|[k v] l IH]; intros m Hnd Hproto;
    cbn [foldl list_to_map foldr].
  - now rewrite (left_id ∅ (∪)).
  - cbn [map fst] in Hnd, Hproto. apply NoDup_cons in Hnd as [Hk Hnd].
    rewrite IH; [|exact Hnd|intros Hin; apply Hproto; now right].
    cbn [fst snd uncurry]. unfold setProperty.
    destruct (decide (k = js "__proto__")) as [->|_]; [destruct Hproto; now left|].
    rewrite <- insert_union_l. symmetry. apply insert_union_r.
    apply not_elem_of_list_to_map_1. now rewrite <- map_fmap.
Qed.

Lemma filter_slug_absent (l : list (jsstring * jsstring)) :
  js "slug" ∉ map fst l ->
  List.filter (fun kv => negb (bool_decide (fst kv = js "slug"))) l = l
  /\ List.find (fun kv => bool_decide (fst kv = js "slug")) l = None.
Proof.
  induction l as [|[k v] l IH]; [auto|]. cbn [map fst List.filter List.find].
  intros Hno. apply not_elem_of_cons in Hno as [Hk Hno].
  rewrite bool_decide_eq_false_2 by congruence. cbn [negb].
  destruct (IH Hno) as [-> ->]. auto.
Qed.

(** The parameters without the slug, and the slug, make up the
    parameters. *)
Lemma entries_without_slug (entries : list (jsstring * jsstring)) :
  NoDup (map fst entries) ->
  list_to_map (List.filter (fun kv => negb (bool_decide (fst kv = js "slug"))) entries)
  ∪ match List.find (fun kv => bool_decide (fst kv = js "slug")) entries with
    | Some kv => {[ js "slug" := snd kv ]}
    | None => ∅
    end
  = (list_to_map entries : gmap jsstring jsstring).
Proof.
  induction entries as [|[k v] l IH]; intros Hnd.
  - cbn. now rewrite (left_id ∅ (∪)).
  - cbn [map fst] in Hnd. apply NoDup_cons in Hnd as [Hk Hnd].
    cbn [List.filter List.find fst snd].
    destruct (bool_decide_reflect (k = js "slug")) as [->|Hne]; cbn [negb].
    + destruct (filter_slug_absent l Hk) as [-> _]. cbn [list_to_map foldr uncurry fst snd].
      symmetry. apply insert_union_singleton_r.
      apply not_elem_of_list_to_map_1. now rewrite <- map_fmap.
    + cbn [list_to_map foldr uncurry fst snd].
      rewrite <- insert_union_l. f_equal. now apply IH.
Qed.

Lemma fixedRoutes_plain (route : jsstring) :
  In route fixedRoutes ->
  route <> []
  /\ forallb plainInFragment route = true
  /\ forallb (fun c => negb (c =? 47)%N) route = true
  /\ forallb (fun c => negb (c =? 63)%N) route = true.
Proof.
  unfold fixedRoutes. cbn [In]. intros Hroute.
  repeat (destruct Hroute as [<-|Hroute]; [repeat split; discriminate|]). destruct Hroute.
Qed.

(** What [parseRoute] reads from [#/route], [#/route/segment],
    [#/route?query] and [#/route/segment?query]. *)
Lemma parseRoute_parts (route : jsstring) (segment query : option jsstring) :
  route <> [] ->
  forallb (fun c => negb (c =? 47)%N) route = true ->
  forallb (fun c => negb (c =? 63)%N) route = true ->
  (forall s, segment = Some s ->
     s <> [] /\ forallb (fun c => negb (c =? 47)%N) s = true
     /\ forallb (fun c => negb (c =? 63)%N) s = true) ->
  (forall q, query = Some q -> q <> [] /\ forallb (fun c => negb (c =? 63)%N) q = true) ->
  RouterOld.parseRoute
    (js "#/" ++ route
     ++ match segment with Some s => 47%N :: s | None => [] end
     ++ match query with Some q => 63%N :: q | None => [] end)
  = (route,
     let params : gmap jsstring jsstring :=
       match segment with
       | Some s => if decide (route = js "post") then {[ js "slug" := s ]} else ∅
       | None => ∅
       end in
     match query with
     | Some q => foldl (fun acc kv => setProperty (fst kv) (snd kv) acc) params
                       (URLSearchParams q)
     | None => params
     end).
Proof.
  intros Hne H47 H63 Hseg Hquery.
  unfold RouterOld.parseRoute.
  change (js "#/" ++ ?x) with (35%N :: 47%N :: x). cbn [RouterOld.cleanPathOf].
  set (routePart := route ++ match segment with Some s => 47%N :: s | None => [] end).
  assert (HrouteP : forallb (fun c => negb (c =? 63)%N) routePart = true).
  { unfold routePart. rewrite forallb_app, H63.
    destruct segment as [s|]; [|reflexivity].
    destruct (Hseg s eq_refl) as (_ & _ & Hs). cbn [forallb]. now rewrite Hs. }
  rewrite app_assoc. fold routePart.
  assert (Htruthy : truthy (routePart ++ match query with Some q => 63%N :: q | None => [] end)
                    = true).
  { unfold routePart. destruct route; [congruence|reflexivity]. }
  rewrite Htruthy. cbn [negb].
  assert (Hsegments : List.filter truthy (split 47 routePart)
                      = route :: match segment with Some s => [s] | None => [] end).
  { unfold routePart, split. destruct segment as [s|].
    - destruct (Hseg s eq_refl) as (Hs & Hs47 & _).
      rewrite (split1_at 47 _ _ H47), (split1_without 47 _ Hs47). cbn [fst snd List.filter].
      destruct route; [congruence|]. destruct s; [congruence|]. reflexivity.
    - rewrite app_nil_r, (split1_without 47 _ H47). cbn [List.filter].
      destruct route; [congruence|]. reflexivity. }
  assert (Hpieces : split 63 (routePart ++ match query with Some q => 63%N :: q | None => [] end)
                    = routePart :: match query with Some q => [q] | None => [] end).
  { unfold split. destruct query as [q|].
    - destruct (Hquery q eq_refl) as (Hq & Hq63).
      now rewrite (split1_at 63 _ _ HrouteP), (split1_without 63 _ Hq63).
    - now rewrite app_nil_r, (split1_without 63 _ HrouteP). }
  cbv zeta. rewrite Hpieces. cbn [lookup list_lookup default from_option id].
  rewrite Hsegments. destruct query as [q|].
  - destruct (Hquery q eq_refl) as (Hq & _).
    cbn [lookup list_lookup default from_option id].
    assert (Htq : truthyProp (Some q) = true) by (destruct q; [congruence|reflexivity]).
    rewrite Htq. destruct segment; reflexivity.
  - cbn [lookup list_lookup truthyProp]. destruct segment; reflexivity.
Qed.

(** X22. The superseded router carries a route and its parameters through
    the address bar: for a route of the fixed set and parameters of
    distinct names, none named [__proto__] (an assignment to that name
    adds no property), names and values of whole code points, with a
    slug only on the [post] route, not empty and URL-safe, [parseRoute]
    reads from the hash that [navigate] assigns the route and the
    parameters it was given. *)
Theorem routerOld_navigate_parseRoute (route : jsstring)
  (entries : list (jsstring * jsstring)) :
  In route fixedRoutes ->
  NoDup (map fst entries) ->
  ~ In (js "__proto__") (map fst entries) ->
  Forall (fun kv => wellFormed (fst kv) = true /\ wellFormed (snd kv) = true) entries ->
  (forall s, In (js "slug", s) entries ->
     route = js "post" /\ s <> [] /\ forallb urlSafe s = true) ->
  RouterOld.parseRoute (hashAfterAssign (RouterOld.navigate route entries))
  = (route, list_to_map entries).
Proof.
  intros Hroute Hnd Hproto Htext Hslug.
  destruct (fixedRoutes_plain route Hroute) as (Hne & Hplain & H47 & H63).
  set (queryParams := List.filter (fun kv => negb (bool_decide (fst kv = js "slug"))) entries).
  assert (Hqtext : Forall (fun kv => wellFormed (fst kv) = true /\ wellFormed (snd kv) = true)
                          queryParams).
  { apply List.Forall_forall. intros kv Hkv. apply filter_In in Hkv as [Hkv _].
    rewrite List.Forall_forall in Htext. now apply Htext. }
  assert (Hqnd : NoDup (map fst queryParams)).
  { unfold queryParams. clear - Hnd. induction entries as [|[k v] l IH]; [constructor|].
    cbn [map fst] in Hnd. apply NoDup_cons in Hnd as [Hk Hnd]. cbn [List.filter fst].
    destruct (negb _); [|now apply IH]. cbn [map fst]. apply NoDup_cons. split; [|now apply IH].
    intros Hin. apply Hk. apply list_elem_of_In in Hin. apply list_elem_of_In.
    apply in_map_iff in Hin as (kv & <- & Hkv). apply filter_In in Hkv as [Hkv _].
    now apply in_map. }
  pose proof (entries_without_slug entries Hnd) as Hmap. fold queryParams in Hmap.
  pose proof (formSerialize_units queryParams Hqtext) as Hunits.
  assert (Hq : forallb plainInFragment (formSerialize queryParams) = true
               /\ forallb (fun c => negb (c =? 63)%N) (formSerialize queryParams) = true).
  { split; rewrite forallb_forall in *; intros c Hc; specialize (Hunits c Hc);
      apply orb_true_iff in Hunits as [[Hu|He]%orb_true_iff|He];
      try (apply N.eqb_eq in He as ->; reflexivity);
      destruct (formUnit_spec c Hu) as (? & ? & ? & H63' & ?); [assumption|].
    now rewrite H63'. }
  destruct Hq as [Hqplain Hq63].
  set (segment :=
         match List.find (fun kv => bool_decide (fst kv = js "slug")) entries with
         | Some kv => if bool_decide (route = js "post") && truthy (snd kv)
                      then Some (snd kv) else None
         | None => None
         end).
  set (query := if truthy (formSerialize queryParams)
                then Some (formSerialize queryParams) else None).
  assert (Hnav : RouterOld.navigate route entries
                 = js "#/" ++ route
                   ++ match segment with Some s => 47%N :: s | None => [] end
                   ++ match query with Some q => 63%N :: q | None => [] end).
  { unfold RouterOld.navigate, segment, query. fold queryParams.
    destruct (List.find _ entries) as [kv|];
      [destruct (bool_decide (route = js "post") && truthy (snd kv))|];
      destruct (truthy (formSerialize queryParams));
      cbn [app]; rewrite <- ?app_assoc, ?app_nil_r; reflexivity. }
  assert (Hsegment : forall s, segment = Some s ->
            In (js "slug", s) entries /\ route = js "post" /\ s <> []
            /\ forallb urlSafe s = true).
  { unfold segment. intros s Hs.
    destruct (List.find _ entries) as [[k v]|] eqn:Hfind; [|discriminate].
    apply find_some in Hfind as [Hin Hk]. apply bool_decide_eq_true in Hk.
    cbn [fst snd] in *. subst k.
    destruct (bool_decide (route = js "post") && truthy v); [|discriminate].
    injection Hs as <-. split; [exact Hin|]. now apply Hslug. }
  assert (Hquery : forall q, query = Some q -> q = formSerialize queryParams /\ q <> []).
  { unfold query. intros q. destruct (formSerialize queryParams); [discriminate|].
    cbn [truthy]. intros [= <-]. split; [reflexivity|discriminate]. }
  rewrite Hnav. change (js "#/" ++ ?x) with (35%N :: 47%N :: x).
  rewrite hashAfterAssign_plain; [|discriminate|].
  2:{ cbn [forallb]. change (plainInFragment 47) with true.
      rewrite !forallb_app, Hplain. cbn [andb].
      apply andb_true_iff. split.
      - destruct segment as [s|] eqn:Hs; [|reflexivity].
        destruct (Hsegment s eq_refl) as (_ & _ & _ & Hsafe).
        cbn [forallb]. change (plainInFragment 47) with true.
        now destruct (forallb_urlSafe s Hsafe) as (-> & _ & _).
      - destruct query as [q|] eqn:Hqq; [|reflexivity].
        destruct (Hquery q eq_refl) as [-> _]. cbn [forallb].
        change (plainInFragment 63) with true. now rewrite Hqplain. }
  change (35%N :: 47%N :: ?x) with (js "#/" ++ x).
  rewrite parseRoute_parts; [|assumption..| |].
  2:{ intros s Hs. destruct (Hsegment s Hs) as (_ & _ & Hsne & Hsafe).
      now destruct (forallb_urlSafe s Hsafe) as (_ & -> & ->). }
  2:{ intros q Hqq. destruct (Hquery q Hqq) as [-> Hqne]. auto. }
  f_equal. cbv zeta. rewrite <- Hmap.
  assert (Hbase : match segment with
                  | Some s => if decide (route = js "post") then {[ js "slug" := s ]} else ∅
                  | None => ∅
                  end
                  = match List.find (fun kv => bool_decide (fst kv = js "slug")) entries with
                    | Some kv => ({[ js "slug" := snd kv ]} : gmap jsstring jsstring)
                    | None => ∅
                    end).
  { unfold segment.
    destruct (List.find _ entries) as [[k v]|] eqn:Hfind; [|reflexivity].
    apply find_some in Hfind as [Hin Hk]. apply bool_decide_eq_true in Hk.
    cbn [fst snd] in *. subst k. destruct (Hslug v Hin) as (-> & Hv & _).
    rewrite bool_decide_eq_true_2 by reflexivity.
    destruct v; [congruence|]. cbn [andb truthy].
    now destruct (decide (js "post" = js "post")). }
  rewrite Hbase.
  destruct query as [q|] eqn:Hqq.
  - destruct (Hquery q eq_refl) as [-> _].
    rewrite URLSearchParams_formSerialize by exact Hqtext.
    apply foldl_setProperty_list_to_map; [exact Hqnd|].
    intros Hin. apply Hproto. apply in_map_iff in Hin as (kv & Hkv & Hin).
    apply filter_In in Hin as [Hin _]. apply in_map_iff. eauto.
  - assert (Hnil : queryParams = []).
    { unfold query in Hqq. destruct queryParams as [|[k v] l]; [reflexivity|].
      cbn [formSerialize] in Hqq. destruct (formEncode k); discriminate. }
    rewrite Hnil. cbn [list_to_map foldr]. now rewrite (left_id ∅ (∪)).
Qed.

End OldRouter.

Lemma split_slashes (slashes : jsstring) :
  forallb (fun c => (c =? 47)%N) slashes = true ->
  List.filter truthy (split 47 slashes) = []
  /\ forallb (fun c => negb (c =? 63)%N) slashes = true.
Proof.
  unfold split. induction slashes as [|c s IH]; cbn [forallb split1]; [auto|].
  intros [Hc Hs]%andb_true_iff. destruct (IH Hs) as [IHf IH63].
  apply N.eqb_eq in Hc as ->. rewrite IH63.
  destruct (split1 47 s) as [hd tl]. cbn [N.eqb Pos.eqb List.filter truthy negb andb].
  auto.
Qed.

(** X23. A fragment without a route, that is one in which only slashes
    stand before the query or the end, is read by the superseded router
    as the home route without parameters: a query behind it is dropped. *)
Theorem parseRoute_without_route (slashes rest : jsstring) :
  forallb (fun c => (c =? 47)%N) slashes = true ->
  rest = [] \/ head rest = Some 63%N ->
  RouterOld.parseRoute (js "#" ++ slashes ++ rest) = (js "home", ∅).
Proof.
  intros Hslashes Hrest. unfold RouterOld.parseRoute.
  assert (Hclean : exists slashes',
            RouterOld.cleanPathOf (js "#" ++ slashes ++ rest) = slashes' ++ rest
            /\ forallb (fun c => (c =? 47)%N) slashes' = true).
  { change (js "#" ++ ?x) with (35%N :: x).
    destruct slashes as [|c s].
    - exists []. split; [|reflexivity]. cbn [app].
      destruct Hrest as [->|Hhead]; [reflexivity|].
      destruct rest as [|r rest]; [discriminate|]. injection Hhead as ->. reflexivity.
    - cbn [forallb] in Hslashes. apply andb_true_iff in Hslashes as [Hc Hs].
      apply N.eqb_eq in Hc as ->. exists s. auto. }
  destruct Hclean as (slashes' & -> & Hs').
  destruct (truthy (slashes' ++ rest)); cbn [negb]; [|reflexivity].
  cbv zeta. destruct (split_slashes slashes' Hs') as [Hnone H63].
  assert (Hpieces : split 63 (slashes' ++ rest) !! 0%nat = Some slashes').
  { unfold split. destruct Hrest as [->|Hhead].
    - now rewrite app_nil_r, (split1_without 63 _ H63).
    - destruct rest as [|r rest]; [discriminate|]. injection Hhead as ->.
      rewrite (split1_at 63 _ _ H63). reflexivity. }
  rewrite Hpieces. cbn [default from_option id]. now rewrite Hnone.
Qed.

(** ** Instances of the further properties *)

(** X3 on a paragraph without placeholder and two photos. *)
Lemma replacePhotoPlaceholders_without_placeholder_witness :
  replacePhotoPlaceholders (js "<p>No photo here</p>") [js "a.png"; js "b.png"]
  = js "<p>No photo here</p>".
Proof.
  apply replacePhotoPlaceholders_without_placeholder. vm_compute. reflexivity.
Defined.

(** X8 on the example site. *)
Lemma loadAllPosts_hides_the_spinner_witness :
  exists middle,
    trace (@PostManager.loadAllPosts Example.browser Example.site newPostManager)
    = ShowLoading :: middle ++ [HideLoading]
    /\ Forall (fun e => (exists url, e = Fetch url)
                        \/ exists label error, e = ConsoleError label error) middle.
Proof.
  apply (@loadAllPosts_hides_the_spinner Example.browser Example.site newPostManager).
  reflexivity.
Defined.

(** X10 on the example site. *)
Lemma loadAllPosts_stores_valid_posts_witness :
  posts (final (@PostManager.loadAllPosts Example.browser Example.site newPostManager))
  = posts Example.loaded
  /\ Forall (fun post => slug post <> [] /\ title post <> [] /\ author post <> []
                         /\ date post <> [] /\ contents post <> []
                         /\ (1 <= readingTime post)%nat
                         /\ (length (excerpt post) <= 153)%nat) (posts Example.loaded).
Proof.
  apply (@loadAllPosts_stores_valid_posts Example.browser Example.site newPostManager
           (posts Example.loaded)); [reflexivity|].
  vm_compute. reflexivity.
Defined.

(** X14 on the example site: its tags are [JavaScript], [css] and
    [intro], its one category is [news]. *)
Lemma loadAllPosts_lists_agree_witness :
  (forall tag, tag ∈ PostManager.getAllTags Example.loaded
               <-> PostManager.getPostsByTag Example.loaded tag <> [])
  /\ (forall c, c ∈ PostManager.getAllCategories Example.loaded
                <-> c <> [] /\ PostManager.getPostsByCategory Example.loaded c <> []).
Proof.
  apply (@loadAllPosts_lists_agree Example.browser Example.site newPostManager
           (posts Example.loaded)); [reflexivity|].
  vm_compute. reflexivity.
Defined.

Lemma getAllTags_example_site :
  PostManager.getAllTags Example.loaded = [js "JavaScript"; js "css"; js "intro"]
  /\ PostManager.getAllCategories Example.loaded = [js "news"].
Proof. vm_compute. auto. Qed.

(** X15 on the example site: each post is found by its slug. *)
Lemma getPostBySlug_lookup_witness :
  Forall (fun p => PostManager.getPostBySlug Example.loaded (slug p) = Some p)
         (posts Example.loaded).
Proof.
  assert (Hnd : NoDup (map slug (posts Example.loaded))).
  { apply (bool_decide_unpack _). vm_compute. exact I. }
  apply List.Forall_forall. intros p Hp.
  apply (getPostBySlug_lookup Example.loaded Hnd). auto.
Defined.

(** X16 on the example site, whose two posts link each other. *)
Lemma postNavigation_neighbours_witness :
  match posts Example.loaded with
  | p :: q :: _ =>
      snd (PostManager.postNavigation Example.loaded p) = Some q
      /\ fst (PostManager.postNavigation Example.loaded q) = Some p
  | _ => False
  end.
Proof.
  assert (Hnd : NoDup (map slug (posts Example.loaded))).
  { apply (bool_decide_unpack _). vm_compute. exact I. }
  destruct (posts Example.loaded) as [|p [|q back]] eqn:Hposts;
    [vm_compute in Hposts; discriminate..|].
  rewrite <- Hposts in Hnd.
  exact (postNavigation_neighbours Example.loaded [] p q back Hnd Hposts).
Defined.

(** X18 on a link to a post. *)
Lemma navigate_handleRouteChange_slug_witness :
  completion (Router.handleRouteChange None
                (final (Router.navigate (js "post") {[ js "slug" := js "hello-world" ]}
                          newPage)))
  = Normal (Handler (js "post") {[ js "slug" := js "hello-world" ]})
  /\ router (final (Router.handleRouteChange None
                      (final (Router.navigate (js "post")
                                {[ js "slug" := js "hello-world" ]} newPage))))
     = mkRouter (Some (js "post")) {[ js "slug" := js "hello-world" ]}.
Proof.
  apply (navigate_handleRouteChange_slug (js "post") (js "hello-world") newPage).
  - vm_compute. auto.
  - discriminate.
  - reflexivity.
Defined.

(** X19 on a link of the superseded scheme: [#/post/hello] opens the
    home page, with [post] for a slug. *)
Lemma handleRouteChange_leading_slash_witness :
  exists params,
    Handler (js "home") {[ js "slug" := js "post" ]} = Handler (js "home") params
    /\ router (final (Router.handleRouteChange None
                        (mkPage newPostManager (mkSearchManager [] []) (mkRouter None ∅)
                                (js "#/post/hello"))))
       = mkRouter (Some (js "home")) params.
Proof.
  apply (handleRouteChange_leading_slash (js "post/hello")
           (mkPage newPostManager (mkSearchManager [] []) (mkRouter None ∅)
                   (js "#/post/hello"))
           (Handler (js "home") {[ js "slug" := js "post" ]})).
  - reflexivity.
  - vm_compute. reflexivity.
Defined.

(** X20 on the fragment [#search?q=css]. *)
Lemma handleRouteChange_without_percent_witness :
  exists d,
    completion (Router.handleRouteChange None
                  (mkPage newPostManager (mkSearchManager [] []) (mkRouter None ∅)
                          (js "#search?q=css")))
    = Normal d.
Proof.
  apply handleRouteChange_without_percent.
  apply (bool_decide_unpack _). vm_compute. exact I.
Defined.

(** A percent sign that no escape follows: the error escapes
    [handleRouteChange]. *)
Lemma handleRouteChange_malformed_escape :
  completion (Router.handleRouteChange None
                (mkPage newPostManager (mkSearchManager [] []) (mkRouter None ∅)
                        (js "#search?q=100%")))
  = Throw URIError.
Proof. vm_compute. reflexivity. Qed.

(** X21 on the query [css] between blanks, on the example site. *)
Lemma handleSearch_long_query_witness :
  completion (@SearchManager.handleSearch Example.browser Example.site (js " css ") newPage)
  = Normal tt.
Proof.
  assert (Hlong : (2 <= length (trim (js " css ")))%nat) by (vm_compute; lia).
  exact (proj1 (@handleSearch_long_query Example.browser Example.site (js " css ")
                  newPage Hlong)).
Defined.

(** What the search for [css] leaves on the example site: the post [c]
    as the one result. *)
Lemma handleSearch_example_site :
  map slug (searchResults (searchManager
         (final (@SearchManager.handleSearch Example.browser Example.site (js " css ")
                   newPage))))
  = [js "c"].
Proof. vm_compute. reflexivity. Qed.

(** X25 on a category that holds a blank. *)
Lemma navigate_stores_first_witness :
  router (final (Router.navigate (js "posts") {[ js "category" := js "web dev" ]} newPage))
  = mkRouter (Some (js "posts")) {[ js "category" := js "web dev" ]}.
Proof.
  assert (Hroute : In (js "posts") fixedRoutes) by (vm_compute; auto).
  exact (proj1 (navigate_stores_first (js "posts") {[ js "category" := js "web dev" ]}
                  newPage Hroute)).
Defined.

(** A lone surrogate in the query: [navigate] throws, the route is
    stored, the address bar is as it was. *)
Lemma navigate_lone_surrogate :
  let r := Router.navigate (js "search") {[ js "q" := [0xD800%N] ]} newPage in
  completion r = Throw URIError
  /\ currentRoute (router (final r)) = Some (js "search")
  /\ location_hash (final r) = [].
Proof. vm_compute. auto. Qed.

(** X22 on a post with a referrer that holds a blank, an ampersand and
    an equals sign. *)
Lemma routerOld_navigate_parseRoute_witness :
  RouterOld.parseRoute
    (URI.hashAfterAssign
       (RouterOld.navigate (js "post")
          [(js "slug", js "hello-world"); (js "ref", js "a b&c=d")]))
  = (js "post", list_to_map [(js "slug", js "hello-world"); (js "ref", js "a b&c=d")]).
Proof.
  apply routerOld_navigate_parseRoute.
  - vm_compute. auto.
  - apply (bool_decide_unpack _). vm_compute. exact I.
  - apply (bool_decide_unpack _). vm_compute. exact I.
  - repeat constructor.
  - intros s [[= <-]|[Heq|[]]]; [repeat split; discriminate|].
    vm_compute in Heq. discriminate.
Defined.

Lemma routerOld_navigate_example :
  RouterOld.navigate (js "post")
    [(js "slug", js "hello-world"); (js "ref", js "a b&c=d")]
  = js "#/post/hello-world?ref=a+b%26c%3Dd".
Proof. vm_compute. reflexivity. Qed.

(** A parameter named [__proto__] is not read back, and a value keeps
    the U+FEFF it begins with. *)
Lemma parseRoute_proto_and_U_FEFF :
  RouterOld.parseRoute (js "#/tags?__proto__=x&tag=%EF%BB%BFcss")
  = (js "tags", {[ js "tag" := 0xFEFF%N :: js "css" ]}).
Proof. vm_compute. reflexivity. Qed.

(** X23 on [#//?page=2]. *)
Lemma parseRoute_without_route_witness :
  RouterOld.parseRoute (js "#" ++ js "//" ++ js "?page=2") = (js "home", ∅).
Proof.
  apply parseRoute_without_route; [reflexivity|]. right. reflexivity.
Defined.
